(** * tofi: colour parsing and the HarfBuzz entry backend

    A shallow embedding of [hex_to_color] (color.c) and of the HarfBuzz
    text backend of the entry widget (src/entry_backend/harfbuzz.c).

    Conventions of the embedding:
    - C [double]/[float] values are modelled by rationals ([Q]). The sums
      and products that move the origin of the drawing context and the sum
      of the overflow test are rounded as binary64 arithmetic rounds them
      ([round_double]); the measurements that Cairo returns and the
      extents composed from them, the glyph positions and the geometry of
      the boxes handed to it are exact, and so are the colour channels.
      Every other conversion ([double] to [uint32_t], [long] to
      [uint32_t], unsigned wrap-around) is written out;
    - [uint32_t] and [size_t] values are integers ([Z]) reduced modulo
      [2^32] and [2^64] where the C code computes with them;
    - C strings are [string]s read up to their first NUL character;
    - FreeType, HarfBuzz and Cairo are external libraries: what they answer
      is collected in the record [libs], what the backend does with the
      answers is code; headers of the repository that are not at hand
      ([entry.h], [harfbuzz.h], [unicode.h]) are read off their uses.

    The definitions come first (modules [Color], [Harfbuzz], [Settings] and
    [Notation16]), the facts about them after ([IntFacts], [DoubleFacts],
    [ColorFacts], [HarfbuzzFacts], [ChunkFacts], [MaskFacts], [InitFacts],
    [SettingsFacts], [Notation16Facts]). *)

From Stdlib Require Import ZArith QArith Qround Lia ZifyBool Lqa List Ascii String Bool.
From stdpp Require Import base list.
Import ListNotations.

Open Scope Z_scope.

(** ** Machine integers *)

Definition UINT32_MOD : Z := 2 ^ 32.
Definition SIZE_MOD : Z := 2 ^ 64.
Definition LONG_MAX : Z := 2 ^ 63 - 1.
Definition LONG_MIN : Z := - 2 ^ 63.

(** Conversion of an integer value to [uint32_t]. *)
Definition u32 (z : Z) : Z := z mod UINT32_MOD.

(** Conversion of an integer value to [size_t]. *)
Definition usize (z : Z) : Z := z mod SIZE_MOD.

(** Conversion of a [double] to [uint32_t]: truncation towards zero. A value
    outside the range of the type is undefined in C; the model reduces it
    like an integer conversion. *)
Definition Qtrunc (q : Q) : Z :=
  if Qle_bool 0 q then Qfloor q else Qceiling q.

Definition double_to_u32 (q : Q) : Z := u32 (Qtrunc q).

(** ** Doubles

    A [double] is a rational; the sums and products that the code and Cairo
    compute on the way to the overflow test are rounded as IEEE 754
    binary64 does in the default mode: to the nearest value with 53
    significant bits (or a multiple of [2^-1074] below the normal range),
    ties to the even one. A result beyond the largest finite double, which
    C makes infinite, is outside the model: the range has no upper end.
    The sums of the overflow test and of the steps between rows add an
    integer of 32 bits to a finite double and cannot leave the finite
    range. *)

(** [2^k] for any integer [k]. *)
Definition pow2 (k : Z) : Q :=
  if 0 <=? k then inject_Z (2 ^ k) else / inject_Z (2 ^ (- k)).

(** The exponent of the leading bit of a positive rational:
    [2^(ilog2 q) <= q < 2^(ilog2 q + 1)]. *)
Definition ilog2 (q : Q) : Z :=
  let e := Z.log2 (Qnum q) - Z.log2 (Zpos (Qden q)) in
  if Qle_bool (pow2 e) q then e else e - 1.

(** Rounding to the nearest integer, ties to even. *)
Definition round_half_even (q : Q) : Z :=
  let f := Qfloor q in
  match Qcompare (q - inject_Z f) (1 # 2) with
  | Lt => f
  | Gt => f + 1
  | Eq => if Z.even f then f else f + 1
  end.

(** The spacing of the doubles around a positive rational, as an
    exponent. *)
Definition ulp_exponent (q : Q) : Z := Z.max (ilog2 q - 52) (-1074).

Definition round_positive (q : Q) : Q :=
  let k := ulp_exponent q in
  inject_Z (round_half_even (q / pow2 k)) * pow2 k.

Definition round_double (q : Q) : Q :=
  match Qnum q with
  | 0 => 0
  | Zpos _ => round_positive q
  | Zneg _ => - round_positive (- q)
  end.

(** [a + b] and [a * b] on doubles. *)
Definition double_add (a b : Q) : Q := round_double (a + b).
Definition double_mul (a b : Q) : Q := round_double (a * b).

(** ** C strings *)

Definition NUL : ascii := Ascii.zero.

(** [strlen]: the number of characters before the first NUL. *)
Fixpoint strlen (s : string) : nat :=
  match s with
  | EmptyString => O
  | String c rest => if Ascii.eqb c NUL then O else S (strlen rest)
  end.

(** [s[i]]; reading at or past the end of the Rocq string yields the
    terminator. *)
Definition char_at (s : string) (i : nat) : ascii :=
  match String.get i s with
  | Some c => c
  | None => NUL
  end.

Module Color.

(** [struct color]: four floats. *)
Record color : Type := mkColor { r : Q; g : Q; b : Q; a : Q }.

(** Equality of colours, channel by channel. *)
Definition color_eq (c1 c2 : color) : Prop :=
  (r c1 == r c2 /\ g c1 == g c2 /\ b c1 == b c2 /\ a c1 == a c2)%Q.

(** The value returned for a string of unsupported length. *)
Definition invalid_color : color := mkColor (-1) (-1) (-1) (-1).

(** *** [strtol(s, NULL, 16)] *)

Definition isspace (c : ascii) : bool :=
  let n := Z.of_nat (nat_of_ascii c) in
  (n =? 32) || ((9 <=? n) && (n <=? 13)).

Definition hex_digit (c : ascii) : option Z :=
  let n := Z.of_nat (nat_of_ascii c) in
  if (48 <=? n) && (n <=? 57) then Some (n - 48)
  else if (97 <=? n) && (n <=? 102) then Some (n - 97 + 10)
  else if (65 <=? n) && (n <=? 70) then Some (n - 65 + 10)
  else None.

Fixpoint skip_spaces (s : string) : string :=
  match s with
  | String c rest => if isspace c then skip_spaces rest else s
  | EmptyString => s
  end.

(** The sign of the subject sequence: [true] for a leading minus. *)
Definition take_sign (s : string) : bool * string :=
  match s with
  | String "-" rest => (true, rest)
  | String "+" rest => (false, rest)
  | _ => (false, s)
  end.

(** The optional [0x]/[0X] of base 16, which belongs to the number only
    when a hexadecimal digit follows it. *)
Definition skip_0x (s : string) : string :=
  match s with
  | String "0" (String x (String d rest)) =>
      if (Ascii.eqb x "x" || Ascii.eqb x "X") && bool_decide (is_Some (hex_digit d))
      then String d rest else s
  | _ => s
  end.

(** The magnitude of the longest run of hexadecimal digits at the start. *)
Fixpoint hex_run (s : string) (acc : Z) : Z :=
  match s with
  | String c rest =>
      match hex_digit c with
      | Some d => hex_run rest (acc * 16 + d)
      | None => acc
      end
  | EmptyString => acc
  end.

(** The result is clamped to the range of [long] (64 bits). *)
Definition strtol16 (s : string) : Z :=
  let '(neg, s1) := take_sign (skip_spaces s) in
  let mag := hex_run (skip_0x s1) 0 in
  if neg then (if mag >? - LONG_MIN then LONG_MIN else - mag)
  else (if mag >? LONG_MAX then LONG_MAX else mag).

(** *** [hex_to_color] *)

Definition str_of_chars (cs : list ascii) : string :=
  string_of_list_ascii cs.

(** One channel: [(float)((val & mask) >> shift) / 255.0f]. *)
Definition channel (val mask shift : Z) : Q :=
  inject_Z (Z.shiftr (Z.land val mask) shift) / 255.

Definition color_of_val (val : Z) : color :=
  {| r := channel val 0xFF000000 24;
     g := channel val 0x00FF0000 16;
     b := channel val 0x0000FF00 8;
     a := channel val 0x000000FF 0 |}.

(** [if (hex[0] == '#') hex++;] *)
Definition skip_hash (hex : string) : string :=
  match hex with
  | String "#" rest => rest
  | _ => hex
  end.

Definition hex_to_color (hex : string) : color :=
  let hex := skip_hash hex in
  let len := strlen hex in
  if (len =? 3)%nat then
    let str := str_of_chars [char_at hex 0; char_at hex 0;
                             char_at hex 1; char_at hex 1;
                             char_at hex 2; char_at hex 2] in
    let val := u32 (strtol16 str) in
    let val := u32 (Z.shiftl val 8) in
    let val := Z.lor val 0xFF in
    color_of_val val
  else if (len =? 4)%nat then
    let str := str_of_chars [char_at hex 0; char_at hex 0;
                             char_at hex 1; char_at hex 1;
                             char_at hex 2; char_at hex 2;
                             char_at hex 3; char_at hex 3] in
    let val := u32 (strtol16 str) in
    color_of_val val
  else if (len =? 6)%nat then
    let val := u32 (strtol16 hex) in
    let val := u32 (Z.shiftl val 8) in
    let val := Z.lor val 0xFF in
    color_of_val val
  else if (len =? 8)%nat then
    let val := u32 (strtol16 hex) in
    color_of_val val
  else
    invalid_color.



(** *** What the specification expects *)

(** The colour with the four 8-bit channels [R], [G], [B], [A]. *)
Definition rgba8 (R G B A : Z) : color :=
  mkColor (inject_Z R / 255) (inject_Z G / 255) (inject_Z B / 255) (inject_Z A / 255).

(** [c] is a hexadecimal digit of value [v]. *)
Definition is_hex (c : ascii) (v : Z) : Prop := hex_digit c = Some v.

(** The optional leading hash sign. *)
Definition with_hash (hash : bool) (s : string) : string :=
  if hash then String "#" s else s.

(** The accepted lengths. *)
Definition accepted_length (n : nat) : bool :=
  (n =? 3)%nat || (n =? 4)%nat || (n =? 6)%nat || (n =? 8)%nat.

(** Big-endian value of a list of digits. *)
Definition digits_val (vs : list Z) (acc : Z) : Z :=
  fold_left (fun acc v => acc * 16 + v) vs acc.

(** No character before the terminator is a hexadecimal digit. *)
Fixpoint no_hex (s : string) : Prop :=
  match s with
  | EmptyString => True
  | String c rest => c = NUL \/ (hex_digit c = None /\ no_hex rest)
  end.

End Color.

(** * The HarfBuzz backend *)

Module Harfbuzz.

Abbreviation color := Color.color.

(** ** Cairo: the part of a drawing context the backend relies on *)

(** [cairo_text_extents_t]. *)
Record cairo_text_extents_t : Type := mkTextExtents {
  x_bearing : Q;
  y_bearing : Q;
  width : Q;
  height : Q;
  x_advance : Q;
  y_advance : Q
}.

(** [cairo_font_extents_t]; its [height] field is [font_height] here. *)
Record cairo_font_extents_t : Type := mkFontExtents {
  ascent : Q;
  descent : Q;
  font_height : Q;
  max_x_advance : Q;
  max_y_advance : Q
}.

(** [cairo_matrix_t]. *)
Record cairo_matrix_t : Type := mkMatrix {
  xx : Q; yx : Q;
  xy : Q; yy : Q;
  x0 : Q; y0 : Q
}.

(** [cairo_glyph_t]. *)
Record cairo_glyph_t : Type := mkGlyph {
  index : Z;
  glyph_x : Q;
  glyph_y : Q
}.

(** One [cairo_arc] of a path; the angles are counted in quarter turns
    ([M_PI_2]). *)
Record arc : Type := mkArc {
  arc_xc : Z;
  arc_yc : Z;
  arc_radius : Z;
  arc_angle1 : Z;
  arc_angle2 : Z
}.

(** What reaches a surface, and what it is painted with. *)
Inductive draw_op : Type :=
| ShowGlyphs (src : source) (m : cairo_matrix_t) (glyphs : list cairo_glyph_t)
| Fill (src : source) (m : cairo_matrix_t) (path : list arc)
| Paint (src : source)
with source : Type :=
| Rgba (c : color)
| Pattern (group : list draw_op).

(** What [cairo_save] keeps. *)
Record gstate : Type := mkGstate {
  g_ctm : cairo_matrix_t;
  g_source : source
}.

(** A drawing context [cairo_t]: the current transformation, source and
    path, the stack of saved states, the operations received by the current
    target and the targets suspended by [cairo_push_group]. *)
Record cairo_t : Type := mkCairo {
  ctm : cairo_matrix_t;
  cr_source : source;
  cr_path : list arc;
  saved : list gstate;
  ops : list draw_op;
  groups : list (list draw_op)
}.

(** Computations on a drawing context. *)
Definition cairo (A : Type) : Type := cairo_t -> A * cairo_t.

Definition ret {A} (x : A) : cairo A := fun cr => (x, cr).

Definition bind {A B} (m : cairo A) (k : A -> cairo B) : cairo B :=
  fun cr => let '(x, cr') := m cr in k x cr'.

Declare Scope cairo_scope.
Delimit Scope cairo_scope with cairo.
Notation "x <- m ;; k" := (bind m (fun x => k))
  (at level 100, m at next level, right associativity) : cairo_scope.
Notation "m ;;; k" := (bind m (fun _ => k))
  (at level 100, k at level 200, right associativity) : cairo_scope.

Definition cairo_save : cairo unit := fun cr =>
  (tt, mkCairo (ctm cr) (cr_source cr) (cr_path cr)
               (mkGstate (ctm cr) (cr_source cr) :: saved cr) (ops cr) (groups cr)).

(** Restoring without a saved state is an error of the caller and leaves
    the context as it is. *)
Definition cairo_restore : cairo unit := fun cr =>
  match saved cr with
  | gs :: rest =>
      (tt, mkCairo (g_ctm gs) (g_source gs) (cr_path cr) rest (ops cr) (groups cr))
  | [] => (tt, cr)
  end.

(** [cairo_translate]: the translation is applied before the current
    transformation; the new origin is computed as [cairo_matrix_multiply]
    does, one rounded product or sum after the other. *)
Definition translate_matrix (m : cairo_matrix_t) (tx ty : Q) : cairo_matrix_t :=
  mkMatrix (xx m) (yx m) (xy m) (yy m)
           (double_add (double_add (double_mul tx (xx m)) (double_mul ty (xy m))) (x0 m))
           (double_add (double_add (double_mul tx (yx m)) (double_mul ty (yy m))) (y0 m)).

Definition cairo_translate (tx ty : Q) : cairo unit := fun cr =>
  (tt, mkCairo (translate_matrix (ctm cr) tx ty) (cr_source cr) (cr_path cr)
               (saved cr) (ops cr) (groups cr)).

Definition cairo_get_matrix : cairo cairo_matrix_t := fun cr => (ctm cr, cr).

Definition cairo_set_source (src : source) : cairo unit := fun cr =>
  (tt, mkCairo (ctm cr) src (cr_path cr) (saved cr) (ops cr) (groups cr)).

Definition cairo_set_source_rgba (c : color) : cairo unit :=
  cairo_set_source (Rgba c).

Definition emit (op : draw_op) : cairo unit := fun cr =>
  (tt, mkCairo (ctm cr) (cr_source cr) (cr_path cr) (saved cr)
               (ops cr ++ [op]) (groups cr)).

Definition cairo_show_glyphs (glyphs : list cairo_glyph_t) : cairo unit := fun cr =>
  emit (ShowGlyphs (cr_source cr) (ctm cr) glyphs) cr.

Definition set_path (p : list arc) : cairo unit := fun cr =>
  (tt, mkCairo (ctm cr) (cr_source cr) p (saved cr) (ops cr) (groups cr)).

Definition cairo_new_path : cairo unit := set_path [].

Definition cairo_arc (xc yc radius angle1 angle2 : Z) : cairo unit := fun cr =>
  set_path (cr_path cr ++ [mkArc xc yc radius angle1 angle2]) cr.

(** Closing adds the segment back to the start, which is not recorded. *)
Definition cairo_close_path : cairo unit := ret tt.

Definition cairo_fill : cairo unit := fun cr =>
  (emit (Fill (cr_source cr) (ctm cr) (cr_path cr)) ;;; set_path [])%cairo cr.

Definition cairo_paint : cairo unit := fun cr =>
  emit (Paint (cr_source cr)) cr.

(** [cairo_push_group] saves the state and redirects drawing to a new
    intermediate target. *)
Definition cairo_push_group : cairo unit := fun cr =>
  let '(_, cr1) := cairo_save cr in
  (tt, mkCairo (ctm cr1) (cr_source cr1) (cr_path cr1) (saved cr1)
               [] (ops cr1 :: groups cr1)).

(** [cairo_pop_group] ends the redirection, restores the state and returns
    what was drawn as a pattern. *)
Definition cairo_pop_group : cairo source := fun cr =>
  let group := Pattern (ops cr) in
  let cr1 :=
    match groups cr with
    | outer :: rest =>
        mkCairo (ctm cr) (cr_source cr) (cr_path cr) (saved cr) outer rest
    | [] => cr
    end in
  let '(_, cr2) := cairo_restore cr1 in
  (group, cr2).

(** ** Themes *)

(** [struct directional]. *)
Record directional : Type := mkDirectional {
  top : Z;
  right : Z;
  bottom : Z;
  left : Z
}.

(** [struct text_theme]. *)
Record text_theme : Type := mkTheme {
  foreground_color : color;
  background_color : color;
  padding : directional;
  background_corner_radius : Z
}.

(** ** HarfBuzz values *)

(** A glyph of a shaped buffer: [hb_glyph_info_t] and
    [hb_glyph_position_t] at one index; positions are in 26.6 fixed point. *)
Record hb_glyph : Type := mkHbGlyph {
  codepoint : Z;
  hb_x_advance : Z;
  hb_y_advance : Z;
  hb_x_offset : Z;
  hb_y_offset : Z
}.

Record hb_variation_t : Type := mkVariation {
  var_tag : Z;
  var_value : Q
}.

Record hb_feature_t : Type := mkFeature {
  feat_tag : Z;
  feat_value : Z;
  feat_start : Z;
  feat_end : Z
}.

Inductive hb_direction_t : Type := HB_DIRECTION_INVALID | HB_DIRECTION_LTR.
Inductive hb_script_t : Type := HB_SCRIPT_INVALID | HB_SCRIPT_LATIN.

(** The content of a [hb_buffer_t]. *)
Record hb_buffer_t : Type := mkBuffer {
  buf_direction : hb_direction_t;
  buf_script : hb_script_t;
  buf_language : option string;
  buf_text : string
}.

(** [struct entry_backend_harfbuzz]; a handle is [true] once created. *)
Record entry_backend_harfbuzz : Type := mkHb {
  ft_library : bool;
  ft_face : bool;
  cairo_face : bool;
  hb_font : bool;
  hb_buffer : option hb_buffer_t;
  hb_variations : list hb_variation_t;
  hb_features : list hb_feature_t;
  num_variations : Z;
  num_features : Z;
  disable_hinting : bool
}.

(** ** The external libraries and missing headers

    What FreeType, HarfBuzz and Cairo answer, the error table generated from
    [<freetype/fterrors.h>] and [utf8_strcasestr] of [unicode.h]. *)
Record libs : Type := mkLibs {
  ft_errors : list (Z * option string);
  FT_Init_FreeType : Z;
  FT_New_Face : string -> Z;
  FT_Set_Char_Size : string -> Z -> Z;
  hb_variation_from_string : string -> option hb_variation_t;
  hb_feature_from_string : string -> option hb_feature_t;
  hb_shape : hb_buffer_t -> list hb_feature_t -> list hb_glyph;
  cairo_font_extents : cairo_font_extents_t;
  cairo_glyph_extents : list cairo_glyph_t -> cairo_text_extents_t;
  utf8_strcasestr : string -> string -> option nat
}.

(** ** The entry

    [struct entry] is declared in [entry.h]; these are the fields the backend
    reads and writes. Integer fields hold their C value. [cairo_cr] is the
    context [entry->cairo[entry->index].cr], [results] the strings
    [results.buf[k].string] for [k < results.count], [foreground_color_]
    the field [foreground_color] of the entry. *)
Record entry : Type := mkEntry {
  cairo_cr : cairo_t;
  harfbuzz : entry_backend_harfbuzz;
  horizontal : bool;
  clip_x : Z;
  clip_y : Z;
  clip_width : Z;
  clip_height : Z;
  prompt_text : string;
  placeholder_text : string;
  input_utf8 : string;
  input_utf8_length : Z;
  input_utf32_length : Z;
  hide_input : bool;
  hidden_character_utf8 : list ascii;
  hidden_character_utf8_length : Z;
  prompt_theme : text_theme;
  placeholder_theme : text_theme;
  input_theme : text_theme;
  default_result_theme : text_theme;
  alternate_result_theme : text_theme;
  selection_theme : text_theme;
  selection_highlight_color : color;
  prompt_padding : Z;
  input_width : Z;
  result_spacing : Z;
  num_results : Z;
  num_results_drawn : Z;
  first_result : Z;
  selection : Z;
  results : list string;
  font_name : string;
  font_size : Z;
  font_variations : string;
  font_features : string;
  foreground_color_ : color
}.

(** [results.count]. *)
Definition results_count (e : entry) : Z := Z.of_nat (length (results e)).

(** The string a [char *] points to: the characters before the first NUL
    ([xstrdup] copies exactly these). *)
Definition cstr (s : string) : string := String.substring 0 (strlen s) s.

(** [a > b] on doubles. *)
Definition Qgt_bool (a b : Q) : bool := negb (Qle_bool a b).

(** [MAX(a, b)]. *)
Definition MAX (a b : Q) : Q := if Qgt_bool a b then a else b.

(** [MIN(a, b)] on integers. *)
Definition MIN (a b : Z) : Z := if a <? b then a else b.

(** [PT_TO_DPI]. *)
Definition PT_TO_DPI : Q := 96 / 72.

Section Backend.

Variable L : libs.

Local Open Scope cairo_scope.

(** *** [rounded_rectangle]; its parameters are [uint32_t]. *)
Definition rounded_rectangle (width height r : Z) : cairo unit :=
  cairo_new_path ;;;
  (* Top-left *)
  cairo_arc r r r (-2) (-1) ;;;
  (* Top-right *)
  cairo_arc (u32 (width - r)) r r (-1) 0 ;;;
  (* Bottom-right *)
  cairo_arc (u32 (width - r)) (u32 (height - r)) r 0 1 ;;;
  (* Bottom-left *)
  cairo_arc r (u32 (height - r)) r 1 2 ;;;
  cairo_close_path.

(** *** [get_ft_error_string] *)
Fixpoint find_ft_error (table : list (Z * option string)) (err_code : Z)
  : option string :=
  match table with
  | [] => Some "Unknown FT error"%string
  | (code, msg) :: rest =>
      if code =? err_code then msg else find_ft_error rest err_code
  end.

Definition get_ft_error_string (err_code : Z) : option string :=
  find_ft_error (ft_errors L) err_code.

(** *** [setup_hb_buffer] *)
Definition setup_hb_buffer (buffer : hb_buffer_t) : hb_buffer_t :=
  mkBuffer HB_DIRECTION_LTR HB_SCRIPT_LATIN (Some "en"%string) (buf_text buffer).

Definition hb_buffer_clear_contents (buffer : option hb_buffer_t) : hb_buffer_t :=
  mkBuffer HB_DIRECTION_INVALID HB_SCRIPT_INVALID None EmptyString.

Definition hb_buffer_add_utf8 (buffer : hb_buffer_t) (text : string) : hb_buffer_t :=
  mkBuffer (buf_direction buffer) (buf_script buffer) (buf_language buffer)
           (buf_text buffer ++ cstr text)%string.

(** *** [render_hb_buffer] *)

(** The loop over the glyphs, with the pen position [(x, y)]. *)
Fixpoint position_glyphs (glyphs : list hb_glyph) (x y : Q) : list cairo_glyph_t :=
  match glyphs with
  | [] => []
  | gl :: rest =>
      mkGlyph (codepoint gl)
              (x + inject_Z (hb_x_offset gl) / 64)
              (y - inject_Z (hb_y_offset gl) / 64)
      :: position_glyphs rest
           (x + inject_Z (hb_x_advance gl) / 64)
           (y - inject_Z (hb_y_advance gl) / 64)
  end.

Definition render_hb_buffer (glyphs : list hb_glyph) : cairo cairo_text_extents_t :=
  cairo_save ;;;
  let font_extents := cairo_font_extents L in
  cairo_translate 0 (ascent font_extents) ;;;
  let cairo_glyphs := position_glyphs glyphs 0 0 in
  cairo_show_glyphs cairo_glyphs ;;;
  let extents := cairo_glyph_extents L cairo_glyphs in
  (* Account for the shifted baseline in our returned text extents. *)
  let extents :=
    mkTextExtents (x_bearing extents) (y_bearing extents + ascent font_extents)
                  (width extents) (height extents)
                  (x_advance extents) (y_advance extents) in
  cairo_restore ;;;
  ret extents.

(** *** [render_text]

    The buffer is rebuilt from nothing by every call, so its content after
    the call is not kept in the model. *)
Definition shape_text (hb : entry_backend_harfbuzz) (text : string) : list hb_glyph :=
  let buffer := hb_buffer_clear_contents (hb_buffer hb) in
  let buffer := setup_hb_buffer buffer in
  let buffer := hb_buffer_add_utf8 buffer text in
  hb_shape L buffer (take (Z.to_nat (num_features hb)) (hb_features hb)).

Definition render_text (hb : entry_backend_harfbuzz) (text : string)
  : cairo cairo_text_extents_t :=
  render_hb_buffer (shape_text hb text).

(** The extents [render_text] returns for a text. *)
Definition text_extents (hb : entry_backend_harfbuzz) (text : string)
  : cairo_text_extents_t :=
  let extents := cairo_glyph_extents L (position_glyphs (shape_text hb text) 0 0) in
  mkTextExtents (x_bearing extents)
                (y_bearing extents + ascent (cairo_font_extents L))
                (width extents) (height extents)
                (x_advance extents) (y_advance extents).

(** The background box of a run with the given extents. *)
Definition paint_box (theme : text_theme) (extents : cairo_text_extents_t)
  : cairo unit :=
  let font_extents := cairo_font_extents L in
  let padding := padding theme in
  cairo_save ;;;
  cairo_set_source_rgba (background_color theme) ;;;
  cairo_translate
    (inject_Z (Qfloor (- inject_Z (left padding) + x_bearing extents)))
    (- inject_Z (top padding)) ;;;
  rounded_rectangle
    (double_to_u32 (inject_Z (Qceiling
       (width extents + inject_Z (left padding) + inject_Z (right padding)))))
    (double_to_u32 (inject_Z (Qceiling
       (font_height font_extents + inject_Z (top padding) + inject_Z (bottom padding)))))
    (u32 (background_corner_radius theme)) ;;;
  cairo_fill ;;;
  cairo_restore.

(** *** [render_text_themed] *)
Definition render_text_themed (hb : entry_backend_harfbuzz) (text : string)
  (theme : text_theme) : cairo cairo_text_extents_t :=
  cairo_set_source_rgba (foreground_color theme) ;;;
  extents <- render_text hb text ;;
  if Qeq_bool (Color.a (background_color theme)) 0 then
    (* No background to draw, we're done. *)
    ret extents
  else
    paint_box theme extents ;;;
    cairo_set_source_rgba (foreground_color theme) ;;;
    _ <- render_text hb text ;;
    ret extents.

(** *** [size_overflows]; [width] and [height] are [uint32_t]: the sums
    on the left are computed in [double], those on the right in
    [uint32_t]. *)
Definition size_overflows (e : entry) (width height : Z) : cairo bool :=
  mat <- cairo_get_matrix ;;
  if horizontal e then
    if Qgt_bool (double_add (x0 mat) (inject_Z width))
                (inject_Z (u32 (clip_x e + clip_width e)))
    then ret true else ret false
  else
    if Qgt_bool (double_add (y0 mat) (inject_Z height))
                (inject_Z (u32 (clip_y e + clip_height e)))
    then ret true else ret false.

(** *** The masked input *)

(** Memory from [xmalloc]: a cell is [None] until it is written. *)
Definition xmalloc (n : nat) : list (option ascii) := replicate n None.

(** [hidden_character_utf8[j]]. *)
Definition hidden_byte (e : entry) (j : nat) : ascii :=
  nth j (hidden_character_utf8 e) NUL.

(** The two nested loops and the terminator. *)
Definition masked_buffer (e : entry) : list (option ascii) :=
  let nchars := Z.to_nat (input_utf32_length e) in
  let char_size := Z.to_nat (hidden_character_utf8_length e) in
  let buf := xmalloc (1 + nchars * char_size) in
  let buf :=
    fold_left (fun buf i =>
      fold_left (fun buf j => <[(i * char_size + j)%nat := Some (hidden_byte e j)]> buf)
                (seq 0 char_size) buf)
      (seq 0 nchars) buf in
  <[(char_size * nchars)%nat := Some NUL]> buf.

(** Reading a buffer as a C string; the read stops at the terminator (and,
    where the C read would be undefined, at an unwritten cell or at the end
    of the buffer). *)
Fixpoint string_of_buffer (buf : list (option ascii)) : string :=
  match buf with
  | Some c :: rest =>
      if Ascii.eqb c NUL then EmptyString else String c (string_of_buffer rest)
  | _ => EmptyString
  end.

(** The text and theme drawn in the input field. *)
Definition input_display (e : entry) : string * text_theme :=
  if input_utf8_length e =? 0 then
    (placeholder_text e, placeholder_theme e)
  else if hide_input e then
    (string_of_buffer (masked_buffer e), input_theme e)
  else
    (input_utf8 e, input_theme e).

(** *** The result rows *)

Inductive theme_choice : Type := SelectionTheme | AlternateTheme | DefaultTheme.

Definition theme_of (e : entry) (t : theme_choice) : text_theme :=
  match t with
  | SelectionTheme => selection_theme e
  | AlternateTheme => alternate_result_theme e
  | DefaultTheme => default_result_theme e
  end.

(** The theme of the row at position [i] showing result [index]. *)
Definition result_theme (e : entry) (i index : Z) : theme_choice :=
  if i =? selection e then SelectionTheme
  else if negb (index mod 2 =? 0) then AlternateTheme
  else DefaultTheme.

(** How a row was rendered. *)
Inductive row_kind : Type :=
| Themed (t : theme_choice)
| Highlighted.

(** A row that reached the canvas: position, result index, text, rendering
    and measured extents. *)
Record drawn_row : Type := mkRow {
  row_i : Z;
  row_index : Z;
  row_text : string;
  row_kind_of : row_kind;
  row_extents : cairo_text_extents_t
}.

(** The three chunks of a highlighted result. *)
Record chunks : Type := mkChunks {
  prematch : string;
  match_ : option string;
  postmatch : option string;
  prematch_len : Z
}.

(** The search for the input in the result and the split around it.
    [prematch_len] is only read when there is a match. The chunks are cut
    with [substring], which clamps where the C code would write or read
    past the terminator. *)
Definition split_match (e : entry) (result : string) : chunks :=
  let whole := cstr result in
  if (0 <? input_utf8_length e)
     && negb (Qeq_bool (Color.a (selection_highlight_color e)) 0) then
    match utf8_strcasestr L whole (input_utf8 e) with
    | Some match_pos =>
        let input_len := Z.to_nat (input_utf8_length e) in
        let postmatch_len :=
          usize (Z.of_nat (strlen result) - Z.of_nat match_pos - input_utf8_length e) in
        mkChunks (String.substring 0 match_pos whole)
                 (Some (String.substring match_pos input_len whole))
                 (if 0 <? postmatch_len
                  then Some (String.substring (input_len + match_pos)
                               (String.length whole - (input_len + match_pos)) whole)
                  else None)
                 (Z.of_nat match_pos)
    | None => mkChunks whole None None 0
    end
  else mkChunks whole None None 0.

(** Joining the extents of the text so far with those of the next chunk. *)
Definition join_extents (extents subextents : cairo_text_extents_t)
  : cairo_text_extents_t :=
  mkTextExtents (x_bearing extents) (y_bearing extents)
                (x_advance extents - x_bearing extents
                 + x_bearing subextents + width subextents)
                (height extents)
                (x_advance extents + x_advance subextents)
                (y_advance extents).

(** One pass over the chunks. *)
Definition highlight_pass (e : entry) (c : chunks) : cairo cairo_text_extents_t :=
  let hb := harfbuzz e in
  cairo_save ;;;
  cairo_set_source_rgba (foreground_color (selection_theme e)) ;;;
  subextents <- render_text hb (prematch c) ;;
  let extents := subextents in
  es <- match match_ c with
        | Some m =>
            cairo_translate (x_advance subextents) 0 ;;;
            cairo_set_source_rgba (selection_highlight_color e) ;;;
            subextents <- render_text hb m ;;
            if prematch_len c =? 0 then ret (subextents, subextents)
            else ret (join_extents extents subextents, subextents)
        | None => ret (extents, subextents)
        end ;;
  let '(extents, subextents) := es in
  extents <- match postmatch c with
             | Some p =>
                 cairo_translate (x_advance subextents) 0 ;;;
                 cairo_set_source_rgba (foreground_color (selection_theme e)) ;;;
                 subextents <- render_text hb p ;;
                 ret (join_extents extents subextents)
             | None => ret extents
             end ;;
  cairo_restore ;;;
  ret extents.

(** The two passes: text, then the box and the text again when the
    selection theme has a background. *)
Definition render_highlighted (e : entry) (c : chunks) : cairo cairo_text_extents_t :=
  extents <- highlight_pass e c ;;
  if Qeq_bool (Color.a (background_color (selection_theme e))) 0 then
    (* No background box, we're done. *)
    ret extents
  else
    paint_box (selection_theme e) extents ;;;
    highlight_pass e c.

(** What one iteration of the loop over the results does. *)
Inductive step : Type :=
| Break (drawn : option Z)
| Continue (extents : cairo_text_extents_t) (row : drawn_row).

Definition result_row (e : entry) (i : Z) (extents : cairo_text_extents_t)
  : cairo step :=
  let font_extents := cairo_font_extents L in
  (if horizontal e
   then cairo_translate (double_add (x_advance extents) (inject_Z (result_spacing e))) 0
   else cairo_translate 0 (double_add (font_height font_extents)
                                      (inject_Z (result_spacing e)))) ;;;
  stop <- (if num_results e =? 0 then size_overflows e 0 0
           else ret (num_results e <=? i)) ;;
  if stop : bool then ret (Break None) else
  let index := usize (i + first_result e) in
  (* We may be on the last page, which could have fewer results than
     expected, so check and break if necessary. *)
  if results_count e <=? index then ret (Break None) else
  let result := nth (Z.to_nat index) (results e) EmptyString in
  if negb (i =? selection e)
     || Qeq_bool (Color.a (selection_highlight_color e)) 0 then
    let choice := result_theme e i index in
    let theme := theme_of e choice in
    if 0 <? num_results e then
      extents <- render_text_themed (harfbuzz e) result theme ;;
      ret (Continue extents (mkRow i index result (Themed choice) extents))
    else if negb (horizontal e) then
      over <- size_overflows e 0 (double_to_u32 (font_height font_extents)) ;;
      if over : bool then ret (Break (Some i))
      else
        extents <- render_text_themed (harfbuzz e) result theme ;;
        ret (Continue extents (mkRow i index result (Themed choice) extents))
    else
      cairo_push_group ;;;
      extents <- render_text_themed (harfbuzz e) result theme ;;
      group <- cairo_pop_group ;;
      over <- size_overflows e (double_to_u32 (x_advance extents)) 0 ;;
      if over : bool then ret (Break (Some i))
      else
        cairo_save ;;;
        cairo_set_source group ;;;
        cairo_paint ;;;
        cairo_restore ;;;
        ret (Continue extents (mkRow i index result (Themed choice) extents))
  else
    extents <- render_highlighted e (split_match e result) ;;
    ret (Continue extents (mkRow i index result Highlighted extents)).

(** The loop [for (i = 0; i < num_results; i++)], with [n] iterations left;
    it yields the final [i] and the rows drawn. *)
Fixpoint results_loop (e : entry) (n : nat) (i : Z)
  (extents : cairo_text_extents_t) (rows : list drawn_row)
  : cairo (Z * list drawn_row) :=
  match n with
  | O => ret (i, rows)
  | S n' =>
      s <- result_row e i extents ;;
      match s with
      | Break _ => ret (i, rows)
      | Continue extents' row =>
          results_loop e n' (i + 1) extents' (rows ++ [row])
      end
  end.

(** The local [uint32_t num_results]. *)
Definition considered_results (e : entry) : Z :=
  u32 (if num_results e =? 0 then results_count e
       else MIN (num_results e) (results_count e)).

(** The drawing of one frame. *)
Definition draw_frame (e : entry) : cairo (Z * list drawn_row) :=
  cairo_save ;;;
  (* Render the prompt *)
  extents <- render_text_themed (harfbuzz e) (prompt_text e) (prompt_theme e) ;;
  cairo_translate (x_advance extents) 0 ;;;
  cairo_translate (inject_Z (prompt_padding e)) 0 ;;;
  (* Render the entry text *)
  let '(text, theme) := input_display e in
  extents <- render_text_themed (harfbuzz e) text theme ;;
  let extents :=
    mkTextExtents (x_bearing extents) (y_bearing extents) (width extents)
                  (height extents)
                  (MAX (x_advance extents) (inject_Z (input_width e)))
                  (y_advance extents) in
  (* Render our results *)
  r <- results_loop e (Z.to_nat (considered_results e)) 0 extents [] ;;
  cairo_restore ;;;
  ret r.

Definition set_frame (e : entry) (cr : cairo_t) (drawn : Z) : entry :=
  mkEntry cr (harfbuzz e) (horizontal e) (clip_x e) (clip_y e) (clip_width e)
    (clip_height e) (prompt_text e) (placeholder_text e) (input_utf8 e)
    (input_utf8_length e) (input_utf32_length e) (hide_input e)
    (hidden_character_utf8 e) (hidden_character_utf8_length e) (prompt_theme e)
    (placeholder_theme e) (input_theme e) (default_result_theme e)
    (alternate_result_theme e) (selection_theme e) (selection_highlight_color e)
    (prompt_padding e) (input_width e) (result_spacing e) (num_results e)
    drawn (first_result e) (selection e) (results e) (font_name e)
    (font_size e) (font_variations e) (font_features e) (foreground_color_ e).

(** The entry with another clip rectangle. *)
Definition set_clip (e : entry) (x y w h : Z) : entry :=
  mkEntry (cairo_cr e) (harfbuzz e) (horizontal e) x y w h
    (prompt_text e) (placeholder_text e) (input_utf8 e)
    (input_utf8_length e) (input_utf32_length e) (hide_input e)
    (hidden_character_utf8 e) (hidden_character_utf8_length e) (prompt_theme e)
    (placeholder_theme e) (input_theme e) (default_result_theme e)
    (alternate_result_theme e) (selection_theme e) (selection_highlight_color e)
    (prompt_padding e) (input_width e) (result_spacing e) (num_results e)
    (num_results_drawn e) (first_result e) (selection e) (results e) (font_name e)
    (font_size e) (font_variations e) (font_features e) (foreground_color_ e).

(** *** [entry_backend_harfbuzz_update]: the entry after the call, and the
    rows that were drawn. *)
Definition entry_backend_harfbuzz_update (e : entry) : entry * list drawn_row :=
  let '((i, rows), cr) := draw_frame e (cairo_cr e) in
  (set_frame e cr i, rows).

End Backend.

(** What is known of a row that was drawn at position [i]. *)
Definition row_ok (e : entry) (i : Z) (row : drawn_row) : Prop :=
  row_i row = i
  /\ row_index row = usize (i + first_result e)
  /\ row_index row < results_count e
  /\ row_text row = nth (Z.to_nat (row_index row)) (results e) EmptyString
  /\ match row_kind_of row with
     | Themed t =>
         t = result_theme e i (row_index row)
         /\ (i <> selection e
             \/ Qeq_bool (Color.a (selection_highlight_color e)) 0 = true)
     | Highlighted =>
         i = selection e
         /\ Qeq_bool (Color.a (selection_highlight_color e)) 0 = false
     end.


(** ** What reaches the canvas

    The drawing operations that the rendering functions add to the target,
    written out, and what can be seen of them: which runs of glyphs were
    shown and which boxes were filled, in which colour and in which order. *)

Section Canvas.

Variable L : libs.

(** The glyphs of [text] shown with source [src] under the transformation
    [m]: the run is moved down by the ascent of the font. *)
Definition glyph_op (hb : entry_backend_harfbuzz) (text : string)
  (src : source) (m : cairo_matrix_t) : draw_op :=
  ShowGlyphs src
    (translate_matrix m 0 (ascent (cairo_font_extents L)))
    (position_glyphs (shape_text L hb text) 0 0).

(** The four arcs of [rounded_rectangle]. *)
Definition rectangle_path (width height r : Z) : list arc :=
  [mkArc r r r (-2) (-1);
   mkArc (u32 (width - r)) r r (-1) 0;
   mkArc (u32 (width - r)) (u32 (height - r)) r 0 1;
   mkArc r (u32 (height - r)) r 1 2].

(** The box behind a run of the given extents, filled under [m]. *)
Definition box_op (theme : text_theme) (extents : cairo_text_extents_t)
  (m : cairo_matrix_t) : draw_op :=
  let padding := padding theme in
  Fill (Rgba (background_color theme))
    (translate_matrix m
       (inject_Z (Qfloor (- inject_Z (left padding) + x_bearing extents)))
       (- inject_Z (top padding)))
    (rectangle_path
       (double_to_u32 (inject_Z (Qceiling
          (width extents + inject_Z (left padding) + inject_Z (right padding)))))
       (double_to_u32 (inject_Z (Qceiling
          (font_height (cairo_font_extents L)
           + inject_Z (top padding) + inject_Z (bottom padding)))))
       (u32 (background_corner_radius theme))).

(** Whether a theme asks for a background box. *)
Definition has_background (theme : text_theme) : bool :=
  negb (Qeq_bool (Color.a (background_color theme)) 0).

(** What [render_text_themed] adds under [m]. *)
Definition themed_ops (hb : entry_backend_harfbuzz) (text : string)
  (theme : text_theme) (m : cairo_matrix_t) : list draw_op :=
  let glyphs := glyph_op hb text (Rgba (foreground_color theme)) m in
  if has_background theme
  then [glyphs; box_op theme (text_extents L hb text) m; glyphs]
  else [glyphs].

(** What one pass over the chunks of a highlighted row adds under [m]:
    every chunk starts where the one before it ended. *)
Definition pass_ops (e : entry) (c : chunks) (m : cairo_matrix_t) : list draw_op :=
  let hb := harfbuzz e in
  let normal := Rgba (foreground_color (selection_theme e)) in
  let m1 := translate_matrix m (x_advance (text_extents L hb (prematch c))) 0 in
  glyph_op hb (prematch c) normal m
  :: match match_ c with
     | Some mt =>
         glyph_op hb mt (Rgba (selection_highlight_color e)) m1
         :: match postmatch c with
            | Some p =>
                [glyph_op hb p normal
                   (translate_matrix m1 (x_advance (text_extents L hb mt)) 0)]
            | None => []
            end
     | None =>
         match postmatch c with
         | Some p => [glyph_op hb p normal m1]
         | None => []
         end
     end.

(** The extents one pass over the chunks measures. *)
Definition pass_extents (e : entry) (c : chunks) : cairo_text_extents_t :=
  let measure := text_extents L (harfbuzz e) in
  let run :=
    match match_ c with
    | Some mt =>
        if prematch_len c =? 0 then measure mt
        else join_extents (measure (prematch c)) (measure mt)
    | None => measure (prematch c)
    end in
  match postmatch c with
  | Some p => join_extents run (measure p)
  | None => run
  end.

(** What [render_highlighted] adds under [m]. *)
Definition highlighted_ops (e : entry) (c : chunks) (m : cairo_matrix_t)
  : list draw_op :=
  if has_background (selection_theme e)
  then pass_ops e c m
       ++ box_op (selection_theme e) (pass_extents e c) m
       :: pass_ops e c m
  else pass_ops e c m.

(** The context with a transformation, a source and a path of its own and
    more operations received. *)
Definition drawn_on (cr : cairo_t) (m : cairo_matrix_t) (src : source)
  (path : list arc) (new : list draw_op) : cairo_t :=
  mkCairo m src path (saved cr) (ops cr ++ new) (groups cr).

(** The transformation of a row, from that of the row or the input field
    before it and the extents measured there. *)
Definition step_matrix (e : entry) (m : cairo_matrix_t)
  (extents : cairo_text_extents_t) : cairo_matrix_t :=
  if horizontal e
  then translate_matrix m
         (double_add (x_advance extents) (inject_Z (result_spacing e))) 0
  else translate_matrix m 0
         (double_add (font_height (cairo_font_extents L))
                     (inject_Z (result_spacing e))).

(** Whether rows are drawn to a group first and painted when they fit. *)
Definition speculative (e : entry) : bool :=
  (num_results e <=? 0) && horizontal e.

(** What a drawn row adds to the canvas under [m]. *)
Definition row_ops (e : entry) (row : drawn_row) (m : cairo_matrix_t)
  : list draw_op :=
  match row_kind_of row with
  | Themed t =>
      let drawn := themed_ops (harfbuzz e) (row_text row) (theme_of e t) m in
      if speculative e then [Paint (Pattern drawn)] else drawn
  | Highlighted => highlighted_ops e (split_match L e (row_text row)) m
  end.

(** The extents a drawn row must have measured. *)
Definition row_measure (e : entry) (row : drawn_row) : cairo_text_extents_t :=
  match row_kind_of row with
  | Themed _ => text_extents L (harfbuzz e) (row_text row)
  | Highlighted => pass_extents e (split_match L e (row_text row))
  end.

(** The source left by a row. *)
Definition row_source (e : entry) (row : drawn_row) (before : source) : source :=
  match row_kind_of row with
  | Themed t =>
      if speculative e then before else Rgba (foreground_color (theme_of e t))
  | Highlighted => before
  end.

(** What the rows add to the canvas, each row stepping from the one
    before. *)
Fixpoint rows_ops (e : entry) (m : cairo_matrix_t)
  (extents : cairo_text_extents_t) (rows : list drawn_row) : list draw_op :=
  match rows with
  | [] => []
  | row :: rest =>
      let m' := step_matrix e m extents in
      row_ops e row m' ++ rows_ops e m' (row_extents row) rest
  end.

(** The transformation of the input field, and the extents the first row
    steps from. *)
Definition input_matrix (e : entry) (m : cairo_matrix_t) : cairo_matrix_t :=
  translate_matrix
    (translate_matrix m (x_advance (text_extents L (harfbuzz e) (prompt_text e))) 0)
    (inject_Z (prompt_padding e)) 0.

Definition input_extents (e : entry) : cairo_text_extents_t :=
  let extents := text_extents L (harfbuzz e) (fst (input_display e)) in
  mkTextExtents (x_bearing extents) (y_bearing extents) (width extents)
                (height extents)
                (MAX (x_advance extents) (inject_Z (input_width e)))
                (y_advance extents).

(** What one frame adds to the canvas, given the rows it drew. *)
Definition frame_ops (e : entry) (m : cairo_matrix_t) (rows : list drawn_row)
  : list draw_op :=
  themed_ops (harfbuzz e) (prompt_text e) (prompt_theme e) m
  ++ themed_ops (harfbuzz e) (fst (input_display e)) (snd (input_display e))
       (input_matrix e m)
  ++ rows_ops e (input_matrix e m) (input_extents e) rows.

End Canvas.

(** *** What can be seen of the operations

    A run of glyphs shown, by its source and the glyph indices in order; a
    path filled, by its source and the radii of its arcs; a plain colour
    painted over the target. A group that was painted shows what was drawn
    into it. Positions are left out. *)
Inductive mark : Type :=
| Text (src : source) (run : list Z)
| Box (src : source) (radii : list Z)
| Wash (c : color).

Fixpoint marks_of (op : draw_op) : list mark :=
  match op with
  | ShowGlyphs src _ glyphs => [Text src (map index glyphs)]
  | Fill src _ path => [Box src (map arc_radius path)]
  | Paint (Pattern group) => flat_map marks_of group
  | Paint (Rgba c) => [Wash c]
  end.

Definition marks (l : list draw_op) : list mark := flat_map marks_of l.

(** The vertical origin of the transformation an operation was drawn
    under, in lowest terms. *)
Definition origin_y (op : draw_op) : option Q :=
  match op with
  | ShowGlyphs _ m _ | Fill _ m _ => Some (Qred (y0 m))
  | Paint _ => None
  end.

(** The operations a context received after [before]. *)
Definition drawn_since (before after : cairo_t) : list draw_op :=
  drop (length (ops before)) (ops after).

Section Seen.

Variable L : libs.

(** The glyph indices of a text, as HarfBuzz shapes it. *)
Definition run_of (hb : entry_backend_harfbuzz) (text : string) : list Z :=
  map codepoint (shape_text L hb text).

(** A text in the colours of a theme: the text alone, or the text, the box
    with the corner radius of the theme over it, and the text again. *)
Definition themed_marks (hb : entry_backend_harfbuzz) (text : string)
  (theme : text_theme) : list mark :=
  let written := Text (Rgba (foreground_color theme)) (run_of hb text) in
  if Qeq_bool (Color.a (background_color theme)) 0 then [written]
  else [written;
        Box (Rgba (background_color theme))
            (replicate 4 (u32 (background_corner_radius theme)));
        written].

(** The chunks of a highlighted row: the match in the highlight colour,
    what is around it in the foreground colour of the selection theme. *)
Definition pass_marks (e : entry) (c : chunks) : list mark :=
  let hb := harfbuzz e in
  let normal := Rgba (foreground_color (selection_theme e)) in
  Text normal (run_of hb (prematch c))
  :: match match_ c with
     | Some mt => [Text (Rgba (selection_highlight_color e)) (run_of hb mt)]
     | None => []
     end
  ++ match postmatch c with
     | Some p => [Text normal (run_of hb p)]
     | None => []
     end.

Definition highlighted_marks (e : entry) (c : chunks) : list mark :=
  if Qeq_bool (Color.a (background_color (selection_theme e))) 0 then pass_marks e c
  else pass_marks e c
       ++ Box (Rgba (background_color (selection_theme e)))
              (replicate 4 (u32 (background_corner_radius (selection_theme e))))
       :: pass_marks e c.

(** The theme of the row at position [i]: the selection theme at the
    selection, otherwise the alternate theme when the absolute index of the
    result is odd and the default theme when it is even. *)
Definition expected_theme (e : entry) (i : Z) : text_theme :=
  if i =? selection e then selection_theme e
  else if Z.odd (i + first_result e) then alternate_result_theme e
  else default_result_theme e.

(** Whether the row at position [i] is drawn with its match highlighted. *)
Definition highlights (e : entry) (i : Z) : bool :=
  (i =? selection e)
  && negb (Qeq_bool (Color.a (selection_highlight_color e)) 0).

(** The result shown at position [i]. *)
Definition result_at (e : entry) (i : Z) : string :=
  nth (Z.to_nat (usize (i + first_result e))) (results e) EmptyString.

(** What the row at position [i] must show. *)
Definition expected_row_marks (e : entry) (i : Z) : list mark :=
  if highlights e i
  then highlighted_marks e (split_match L e (result_at e i))
  else themed_marks (harfbuzz e) (result_at e i) (expected_theme e i).

(** What a frame with [n] rows must show: the prompt, the input field, the
    rows at positions [0] to [n - 1]. *)
Definition expected_frame_marks (e : entry) (input : string)
  (input_theme : text_theme) (n : nat) : list mark :=
  themed_marks (harfbuzz e) (prompt_text e) (prompt_theme e)
  ++ themed_marks (harfbuzz e) input input_theme
  ++ flat_map (fun k => expected_row_marks e (Z.of_nat k)) (seq 0 n).

End Seen.

(** ** Initialisation *)

(** A message handed to [log_error] or [log_debug]: the format, and the
    string argument when there is one (a NULL argument is [None]). *)
Inductive log_msg : Type :=
| log_error (fmt : string) (arg : option string)
| log_debug (fmt : string).

(** The calls into the libraries, in the order they are made. A parser is
    handed the address of slot [slot] of the array it fills; the font size
    is in points for Cairo and in 26.6 fixed point for FreeType. *)
Inductive api_call : Type :=
| Call_FT_Init_FreeType
| Call_FT_New_Face (name : string)
| Call_FT_Set_Char_Size (char_width char_height : Z)
| Call_hb_ft_font_create_referenced
| Call_hb_variation_from_string (token : string) (slot : Z)
| Call_hb_font_set_variations (variations : list hb_variation_t) (n : Z)
| Call_hb_ft_hb_font_changed
| Call_hb_feature_from_string (token : string) (slot : Z)
| Call_hb_buffer_create
| Call_cairo_ft_font_face_create_for_ft_face
| Call_cairo_set_source_rgba (context : Z) (c : color)
| Call_cairo_set_font_face (context : Z)
| Call_cairo_set_font_size (context : Z) (size : Z)
| Call_cairo_font_options_create
| Call_cairo_font_options_set_hint_style_none
| Call_cairo_font_options_set_hint_metrics_on
| Call_cairo_set_font_options (context : Z)
| Call_cairo_font_options_destroy.

(** What initialisation works on: the backend structure, the log and the
    calls made so far. *)
Record world : Type := mkWorld {
  w_hb : entry_backend_harfbuzz;
  w_log : list log_msg;
  w_calls : list api_call
}.

(** A step either returns or ends the process with [exit(status)]. *)
Inductive outcome (A : Type) : Type :=
| Returns (x : A)
| Exits (status : Z).
Arguments Returns {A} x.
Arguments Exits {A} status.

Definition proc (A : Type) : Type := world -> outcome A * world.

Definition pret {A} (x : A) : proc A := fun w => (Returns x, w).

Definition pbind {A B} (m : proc A) (k : A -> proc B) : proc B :=
  fun w =>
    match m w with
    | (Returns x, w') => k x w'
    | (Exits status, w') => (Exits status, w')
    end.

Declare Scope proc_scope.
Delimit Scope proc_scope with proc.
Notation "x <- m ;; k" := (pbind m (fun x => k))
  (at level 100, m at next level, right associativity) : proc_scope.
Notation "m ;;; k" := (pbind m (fun _ => k))
  (at level 100, k at level 200, right associativity) : proc_scope.

Definition EXIT_FAILURE : Z := 1.

Definition exit {A} (status : Z) : proc A := fun w => (Exits status, w).

Definition log (m : log_msg) : proc unit := fun w =>
  (Returns tt, mkWorld (w_hb w) (w_log w ++ [m]) (w_calls w)).

Definition call (c : api_call) : proc unit := fun w =>
  (Returns tt, mkWorld (w_hb w) (w_log w) (w_calls w ++ [c])).

Definition get_hb : proc entry_backend_harfbuzz := fun w => (Returns (w_hb w), w).

Definition put_hb (hb : entry_backend_harfbuzz) : proc unit := fun w =>
  (Returns tt, mkWorld hb (w_log w) (w_calls w)).

(** *** [strtok_r] with the delimiter [","]

    [strtok_r s] is the next token of [s] and what follows it ([saveptr]),
    or [None] when only delimiters are left. *)
Fixpoint skip_delims (s : string) : string :=
  match s with
  | String c rest => if Ascii.eqb c "," then skip_delims rest else s
  | EmptyString => s
  end.

Fixpoint take_token (s : string) : string * string :=
  match s with
  | EmptyString => (EmptyString, EmptyString)
  | String c rest =>
      if Ascii.eqb c NUL then (EmptyString, EmptyString)
      else if Ascii.eqb c "," then (EmptyString, rest)
      else let '(tok, after) := take_token rest in (String c tok, after)
  end.

Definition strtok_r (s : string) : option (string * string) :=
  match skip_delims s with
  | EmptyString => None
  | String c rest =>
      if Ascii.eqb c NUL then None else Some (take_token (String c rest))
  end.

(** The tokens that successive calls return; every call consumes at least
    one character, so the length of the string bounds their number. *)
Fixpoint tokens_upto (n : nat) (s : string) : list string :=
  match n with
  | O => []
  | S n' =>
      match strtok_r s with
      | Some (tok, after) => tok :: tokens_upto n' after
      | None => []
      end
  end.

Definition tokens (s : string) : list string := tokens_upto (String.length s) s.

(** [N_ELEM(array)]. *)
Definition N_ELEM {A} (array : list A) : Z := Z.of_nat (length array).

Definition set_variations (hb : entry_backend_harfbuzz)
  (variations : list hb_variation_t) (n : Z) : entry_backend_harfbuzz :=
  mkHb (ft_library hb) (ft_face hb) (cairo_face hb) (hb_font hb) (hb_buffer hb)
       variations (hb_features hb) n (num_features hb) (disable_hinting hb).

Definition set_features (hb : entry_backend_harfbuzz)
  (features : list hb_feature_t) (n : Z) : entry_backend_harfbuzz :=
  mkHb (ft_library hb) (ft_face hb) (cairo_face hb) (hb_font hb) (hb_buffer hb)
       (hb_variations hb) features (num_variations hb) n (disable_hinting hb).

Definition set_ft_library (hb : entry_backend_harfbuzz) (handle : bool)
  : entry_backend_harfbuzz :=
  mkHb handle (ft_face hb) (cairo_face hb) (hb_font hb) (hb_buffer hb)
       (hb_variations hb) (hb_features hb) (num_variations hb) (num_features hb)
       (disable_hinting hb).

Definition set_ft_face (hb : entry_backend_harfbuzz) (handle : bool)
  : entry_backend_harfbuzz :=
  mkHb (ft_library hb) handle (cairo_face hb) (hb_font hb) (hb_buffer hb)
       (hb_variations hb) (hb_features hb) (num_variations hb) (num_features hb)
       (disable_hinting hb).

Definition set_cairo_face (hb : entry_backend_harfbuzz) (handle : bool)
  : entry_backend_harfbuzz :=
  mkHb (ft_library hb) (ft_face hb) handle (hb_font hb) (hb_buffer hb)
       (hb_variations hb) (hb_features hb) (num_variations hb) (num_features hb)
       (disable_hinting hb).

Definition set_hb_font (hb : entry_backend_harfbuzz) (handle : bool)
  : entry_backend_harfbuzz :=
  mkHb (ft_library hb) (ft_face hb) (cairo_face hb) handle (hb_buffer hb)
       (hb_variations hb) (hb_features hb) (num_variations hb) (num_features hb)
       (disable_hinting hb).

Definition set_hb_buffer (hb : entry_backend_harfbuzz) (buffer : option hb_buffer_t)
  : entry_backend_harfbuzz :=
  mkHb (ft_library hb) (ft_face hb) (cairo_face hb) (hb_font hb) buffer
       (hb_variations hb) (hb_features hb) (num_variations hb) (num_features hb)
       (disable_hinting hb).

(** The double quote of the two formats that show a token, and the newline
    that ends every format. *)
Definition dquote : string := String (ascii_of_nat 34) EmptyString.

Definition line (s : string) : string := s ++ String (ascii_of_nat 10) EmptyString.

Section Init.

Variable L : libs.

Local Open Scope proc_scope.

(** The body of the loop over the variations. *)
Definition parse_variation (variation : string) : proc unit :=
  hb <- get_hb ;;
  call (Call_hb_variation_from_string variation (num_variations hb)) ;;;
  match hb_variation_from_string L variation with
  | Some v =>
      put_hb (set_variations hb
                (<[Z.to_nat (num_variations hb) := v]> (hb_variations hb))
                (num_variations hb + 1))
  | None =>
      log (log_error (line ("Failed to parse font variation " ++ dquote ++ "%s"
                            ++ dquote ++ ".")) (Some variation))
  end.

(** [while (variation != NULL && hb->num_variations < N_ELEM(hb->hb_variations))]
    over the tokens still to come. *)
Fixpoint variations_loop (toks : list string) : proc unit :=
  match toks with
  | [] => pret tt
  | variation :: rest =>
      hb <- get_hb ;;
      if num_variations hb <? N_ELEM (hb_variations hb) then
        parse_variation variation ;;;
        variations_loop rest
      else pret tt
  end.

(** The body of the loop over the features. *)
Definition parse_feature (feature : string) : proc unit :=
  hb <- get_hb ;;
  call (Call_hb_feature_from_string feature (num_features hb)) ;;;
  match hb_feature_from_string L feature with
  | Some f =>
      put_hb (set_features hb
                (<[Z.to_nat (num_features hb) := f]> (hb_features hb))
                (num_features hb + 1))
  | None =>
      log (log_error (line ("Failed to parse font feature " ++ dquote ++ "%s"
                            ++ dquote ++ ".")) (Some feature))
  end.

Fixpoint features_loop (toks : list string) : proc unit :=
  match toks with
  | [] => pret tt
  | feature :: rest =>
      hb <- get_hb ;;
      if num_features hb <? N_ELEM (hb_features hb) then
        parse_feature feature ;;;
        features_loop rest
      else pret tt
  end.

(** The calls and the errors of the loops on the tokens they go through,
    [n] being the number of slots filled before. *)
Fixpoint variation_calls (toks : list string) (n : Z) : list api_call :=
  match toks with
  | [] => []
  | tok :: rest =>
      Call_hb_variation_from_string tok n
      :: variation_calls rest
           (match hb_variation_from_string L tok with
            | Some _ => n + 1
            | None => n
            end)
  end.

Definition variation_errors (toks : list string) : list log_msg :=
  flat_map (fun tok =>
    match hb_variation_from_string L tok with
    | Some _ => []
    | None => [log_error (line ("Failed to parse font variation " ++ dquote ++ "%s"
                                ++ dquote ++ ".")) (Some tok)]
    end) toks.

Fixpoint feature_calls (toks : list string) (n : Z) : list api_call :=
  match toks with
  | [] => []
  | tok :: rest =>
      Call_hb_feature_from_string tok n
      :: feature_calls rest
           (match hb_feature_from_string L tok with
            | Some _ => n + 1
            | None => n
            end)
  end.

Definition feature_errors (toks : list string) : list log_msg :=
  flat_map (fun tok =>
    match hb_feature_from_string L tok with
    | Some _ => []
    | None => [log_error (line ("Failed to parse font feature " ++ dquote ++ "%s"
                                ++ dquote ++ ".")) (Some tok)]
    end) toks.

(** A call that hands a slot of an array to a parser stays inside the
    array of [capacity_v] variations or [capacity_f] features. *)
Definition slot_in_bounds (capacity_v capacity_f : Z) (c : api_call) : Prop :=
  match c with
  | Call_hb_variation_from_string _ slot => 0 <= slot < capacity_v
  | Call_hb_feature_from_string _ slot => 0 <= slot < capacity_f
  | _ => True
  end.

(** *** [entry_backend_harfbuzz_init]

    The build option [NO_HARFBUZZ_FONT_CHANGED] is [no_font_changed]. *)
Definition entry_backend_harfbuzz_init (no_font_changed : bool) (e : entry)
  : proc unit :=
  let font_size :=
    double_to_u32 (inject_Z (Qfloor (inject_Z (font_size e) * PT_TO_DPI))) in
  (* Setup FreeType. *)
  log (log_debug (line "Creating FreeType library.")) ;;;
  call Call_FT_Init_FreeType ;;;
  let err := FT_Init_FreeType L in
  (if negb (err =? 0) then
     log (log_error (line "Error initialising FreeType: %s") (get_ft_error_string L err)) ;;;
     exit EXIT_FAILURE
   else pret tt) ;;;
  hb <- get_hb ;;
  put_hb (set_ft_library hb true) ;;;
  log (log_debug (line "Loading FreeType font.")) ;;;
  call (Call_FT_New_Face (font_name e)) ;;;
  let err := FT_New_Face L (font_name e) in
  (if negb (err =? 0) then
     log (log_error (line "Error loading font: %s") (get_ft_error_string L err)) ;;;
     exit EXIT_FAILURE
   else pret tt) ;;;
  hb <- get_hb ;;
  put_hb (set_ft_face hb true) ;;;
  call (Call_FT_Set_Char_Size (u32 (font_size * 64)) (u32 (font_size * 64))) ;;;
  let err := FT_Set_Char_Size L (font_name e) (u32 (font_size * 64)) in
  (if negb (err =? 0) then
     log (log_error (line "Error setting font size: %s") (get_ft_error_string L err))
   else pret tt) ;;;
  log (log_debug (line "Creating Harfbuzz font.")) ;;;
  call Call_hb_ft_font_create_referenced ;;;
  hb <- get_hb ;;
  put_hb (set_hb_font hb true) ;;;
  (if negb (Ascii.eqb (char_at (font_variations e) 0) NUL) then
     log (log_debug (line "Parsing font variations."))
   else pret tt) ;;;
  variations_loop (tokens (font_variations e)) ;;;
  (* We need to set variations now and update the underlying FreeType font,
     as Cairo will then use the FreeType font for drawing. *)
  hb <- get_hb ;;
  call (Call_hb_font_set_variations (hb_variations hb) (num_variations hb)) ;;;
  (if no_font_changed then pret tt else call Call_hb_ft_hb_font_changed) ;;;
  (if negb (Ascii.eqb (char_at (font_features e) 0) NUL) then
     log (log_debug (line "Parsing font features."))
   else pret tt) ;;;
  features_loop (tokens (font_features e)) ;;;
  log (log_debug (line "Creating Harfbuzz buffer.")) ;;;
  call Call_hb_buffer_create ;;;
  hb <- get_hb ;;
  put_hb (set_hb_buffer hb
            (Some (mkBuffer HB_DIRECTION_INVALID HB_SCRIPT_INVALID None EmptyString))) ;;;
  log (log_debug (line "Creating Cairo font.")) ;;;
  call Call_cairo_ft_font_face_create_for_ft_face ;;;
  hb <- get_hb ;;
  put_hb (set_cairo_face hb true) ;;;
  call (Call_cairo_set_source_rgba 0 (foreground_color_ e)) ;;;
  call (Call_cairo_set_font_face 0) ;;;
  call (Call_cairo_set_font_size 0 font_size) ;;;
  call Call_cairo_font_options_create ;;;
  (if disable_hinting hb then call Call_cairo_font_options_set_hint_style_none
   else call Call_cairo_font_options_set_hint_metrics_on) ;;;
  call (Call_cairo_set_font_options 0) ;;;
  (* We also need to set up the font for our other Cairo context. *)
  call (Call_cairo_set_font_face 1) ;;;
  call (Call_cairo_set_font_size 1 font_size) ;;;
  call (Call_cairo_set_font_options 1) ;;;
  call Call_cairo_font_options_destroy.

(** The local [font_size]. *)
Definition init_font_size (e : entry) : Z :=
  double_to_u32 (inject_Z (Qfloor (inject_Z (font_size e) * PT_TO_DPI))).

(** The calls up to the creation of the HarfBuzz font, and those from the
    creation of the buffer on. *)
Definition calls_before_variations (e : entry) : list api_call :=
  [Call_FT_Init_FreeType;
   Call_FT_New_Face (font_name e);
   Call_FT_Set_Char_Size (u32 (init_font_size e * 64)) (u32 (init_font_size e * 64));
   Call_hb_ft_font_create_referenced].

Definition calls_after_features (e : entry) : list api_call :=
  [Call_hb_buffer_create;
   Call_cairo_ft_font_face_create_for_ft_face;
   Call_cairo_set_source_rgba 0 (foreground_color_ e);
   Call_cairo_set_font_face 0;
   Call_cairo_set_font_size 0 (init_font_size e);
   Call_cairo_font_options_create;
   if disable_hinting (harfbuzz e)
   then Call_cairo_font_options_set_hint_style_none
   else Call_cairo_font_options_set_hint_metrics_on;
   Call_cairo_set_font_options 0;
   Call_cairo_set_font_face 1;
   Call_cairo_set_font_size 1 (init_font_size e);
   Call_cairo_set_font_options 1;
   Call_cairo_font_options_destroy].

(** The error code of the size-setting call. *)
Definition set_size_error (e : entry) : Z :=
  FT_Set_Char_Size L (font_name e) (u32 (init_font_size e * 64)).

(** Running initialisation on an entry: nothing logged or called yet. *)
Definition run_init (no_font_changed : bool) (e : entry) : outcome unit * world :=
  entry_backend_harfbuzz_init no_font_changed e (mkWorld (harfbuzz e) [] []).

End Init.


(** ** A sample font and sample entries

    Concrete libraries and entries on which the definitions can be run: a
    font whose every glyph is 10 units wide and 10 units high, and entries
    with a vertical list under an untransformed context. *)
Module Samples.

Definition sample_glyph_extents (glyphs : list cairo_glyph_t) : cairo_text_extents_t :=
  let n := inject_Z (Z.of_nat (length glyphs)) in
  mkTextExtents 0 (-8) (10 * n) 10 (10 * n) 0.

Definition sample_shape (buffer : hb_buffer_t) (features : list hb_feature_t)
  : list hb_glyph :=
  map (fun c => mkHbGlyph (Z.of_nat (nat_of_ascii c)) 640 0 0 0)
      (list_ascii_of_string (buf_text buffer)).

(** Tokens of the form [x=...] parse, others do not. *)
Definition sample_parse (token : string) : option Z :=
  if Ascii.eqb (char_at token 1) "=" then Some (Z.of_nat (String.length token))
  else None.

Definition sample_libs : libs :=
  mkLibs [(0, Some "no error"); (1, Some "cannot open resource");
          (23, Some "invalid pixel size"); (0, None)]%string
         0
         (fun name => if String.eqb name EmptyString then 1 else 0)
         (fun name size => if String.eqb name "bitmap.pcf" then 23 else 0)
         (fun token => option_map (fun n => mkVariation n 1) (sample_parse token))
         (fun token => option_map (fun n => mkFeature n 1 0 0) (sample_parse token))
         sample_shape
         (mkFontExtents 8 2 10 10 0)
         sample_glyph_extents
         (fun haystack needle => String.index 0 needle haystack).

Definition identity_matrix : cairo_matrix_t := mkMatrix 1 0 0 1 0 0.

Definition black : color := Color.mkColor 0 0 0 1.
Definition white : color := Color.mkColor 1 1 1 1.
Definition no_color : color := Color.mkColor 0 0 0 0.

Definition plain_theme : text_theme :=
  mkTheme white no_color (mkDirectional 0 0 0 0) 0.

Definition boxed_theme : text_theme :=
  mkTheme black white (mkDirectional 1 2 1 2) 3.

Definition sample_hb : entry_backend_harfbuzz :=
  mkHb false false false false None
       (replicate 2 (mkVariation 0 0)) (replicate 2 (mkFeature 0 0 0 0)) 0 0 false.

Definition five_results : list string :=
  ["alpha"; "beta"; "gamma"; "delta"; "epsilon"]%string.

Definition six_results : list string := (five_results ++ ["zeta"%string])%list.

(** A vertical entry with the given results, no spacing, clip rectangle
    [(0, 0, 100, clip_h)] and the given result count, selection, highlight
    colour and input. *)
Definition sample_entry (count sel : Z) (highlight : color) (clip_h : Z)
  (input : string) (sample_results : list string) : entry :=
  mkEntry (mkCairo identity_matrix (Rgba black) [] [] [] [])
          sample_hb false 0 0 100 clip_h
          "run: " "type here" input
          (Z.of_nat (String.length input)) (Z.of_nat (String.length input))
          false ["*"%char] 1
          plain_theme plain_theme plain_theme plain_theme plain_theme boxed_theme
          highlight 0 0 0 count 0 0 sel sample_results
          "font.ttf" 12 "a=1,bad,c=3,d=4" "k=1" white.

(** An entry that hides its input of [nchars] characters behind the first
    [char_size] bytes of [glyph]. *)
Definition masked_entry (nchars : Z) (glyph : list ascii) (char_size : Z)
  (input : string) : entry :=
  mkEntry (mkCairo identity_matrix (Rgba black) [] [] [] [])
          sample_hb false 0 0 100 100
          "run: " "type here" input
          (Z.of_nat (String.length input)) nchars
          true glyph char_size
          plain_theme plain_theme plain_theme plain_theme plain_theme boxed_theme
          no_color 0 0 0 0 0 0 0 five_results
          "font.ttf" 12 EmptyString EmptyString white.

(** The entry with another font file. *)
Definition set_font (e : entry) (name : string) : entry :=
  mkEntry (cairo_cr e) (harfbuzz e) (horizontal e) (clip_x e) (clip_y e)
    (clip_width e) (clip_height e)
    (prompt_text e) (placeholder_text e) (input_utf8 e)
    (input_utf8_length e) (input_utf32_length e) (hide_input e)
    (hidden_character_utf8 e) (hidden_character_utf8_length e) (prompt_theme e)
    (placeholder_theme e) (input_theme e) (default_result_theme e)
    (alternate_result_theme e) (selection_theme e) (selection_highlight_color e)
    (prompt_padding e) (input_width e) (result_spacing e) (num_results e)
    (num_results_drawn e) (first_result e) (selection e) (results e) name
    (font_size e) (font_variations e) (font_features e) (foreground_color_ e).

(** Fixed-count mode: three rows asked for, five results, a clip rectangle
    of height 0. *)
Definition three_of_five : entry :=
  sample_entry 3 0 no_color 0 EmptyString five_results.

(** Auto-fit mode with a clip rectangle that ends at the far edge of the
    fourth row, the fifth result selected and highlighted. *)
Definition highlighted_fifth : entry := sample_entry 0 4 white 50 "e" six_results.

(** The same with the second result selected. *)
Definition highlighted_second : entry := sample_entry 0 1 white 50 "e" six_results.

(** A font file that loads but whose size cannot be set. *)
Definition bitmap_entry : entry :=
  set_font (sample_entry 0 0 no_color 100 EmptyString five_results) "bitmap.pcf".

(** An entry with room for two variations that lists four tokens. *)
Definition four_tokens : entry :=
  sample_entry 0 0 no_color 100 EmptyString five_results.

(** The same with highlighting switched off: the fifth result is selected
    and drawn in the selection theme. *)
Definition themed_fifth : entry := sample_entry 0 4 no_color 50 "e" six_results.

(** Fixed-count mode scrolled to the last page: three rows asked for,
    five results, the first one shown being the fifth. *)
Definition last_page : entry :=
  mkEntry (mkCairo identity_matrix (Rgba black) [] [] [] [])
          sample_hb false 0 0 100 100
          "run: " "type here" EmptyString 0 0
          false ["*"%char] 1
          plain_theme plain_theme plain_theme plain_theme plain_theme boxed_theme
          no_color 0 0 0 3 0 4 0 five_results
          "font.ttf" 12 EmptyString EmptyString white.

(** A context moved down by [y]. *)
Definition context_at (y : Q) : cairo_t :=
  mkCairo (mkMatrix 1 0 0 1 0 y) (Rgba black) [] [] [] [].

(** A clip rectangle whose bottom is at 100, and an origin just below
    60. *)
Definition clip_100 : entry := sample_entry 0 0 no_color 100 EmptyString five_results.

Definition just_past_60 : Q := 60 + pow2 (-47).

(** A clip rectangle whose origin plus size does not fit 32 bits. *)
Definition wrapped_clip : entry := set_clip clip_100 0 4294967295 100 2.

End Samples.
End Harfbuzz.

(** * What the font settings must yield *)

Module Settings.
Import Harfbuzz.

(** The fields of a list separated by commas, read up to the terminator;
    between two commas next to each other lies an empty field. *)
Fixpoint fields (s : string) : list string :=
  match s with
  | EmptyString => [EmptyString]
  | String c rest =>
      if Ascii.eqb c NUL then [EmptyString]
      else if Ascii.eqb c "," then EmptyString :: fields rest
      else match fields rest with
           | field :: more => String c field :: more
           | [] => [String c EmptyString]
           end
  end.

Definition is_empty (s : string) : bool :=
  match s with EmptyString => true | _ => false end.

(** A character occurs in a string. *)
Fixpoint occurs (c : ascii) (s : string) : Prop :=
  match s with
  | EmptyString => False
  | String x rest => x = c \/ occurs c rest
  end.

(** The values of the tokens that parse, in order. *)
Fixpoint parsed {A} (parse : string -> option A) (toks : list string) : list A :=
  match toks with
  | [] => []
  | tok :: rest =>
      match parse tok with
      | Some value => value :: parsed parse rest
      | None => parsed parse rest
      end
  end.

(** The values that fit into the [capacity] slots of an array of which
    [used] are taken. *)
Definition stored {A} (capacity : nat) (used : Z) (values : list A) : list A :=
  take (capacity - Z.to_nat used) values.

End Settings.

(** * Letter case and shorthand of colour strings *)

Module Notation16.
Import Color.

(** [toupper] on one character and on a string. *)
Definition to_upper (c : ascii) : ascii :=
  let n := nat_of_ascii c in
  if (97 <=? n)%nat && (n <=? 122)%nat then ascii_of_nat (n - 32) else c.

Fixpoint upper (s : string) : string :=
  match s with
  | EmptyString => EmptyString
  | String c rest => String (to_upper c) (upper rest)
  end.

(** Every character written twice. *)
Fixpoint doubled (cs : list ascii) : list ascii :=
  match cs with
  | [] => []
  | c :: rest => c :: c :: doubled rest
  end.

(** The first [n] characters of a string. *)
Definition first_chars (n : nat) (s : string) : list ascii :=
  map (char_at s) (seq 0 n).

End Notation16.

(** * Facts on machine integers *)

Module IntFacts.

Lemma u32_small z : 0 <= z < UINT32_MOD -> u32 z = z.
Proof. intros H. unfold u32. now apply Z.mod_small. Qed.

End IntFacts.

(** * Facts on doubles *)

Module DoubleFacts.

Lemma pow2_pos k : (0 < pow2 k)%Q.
Proof.
  unfold pow2. destruct (Z.leb_spec 0 k).
  - change 0%Q with (inject_Z 0). rewrite <- Zlt_Qlt. lia.
  - apply Qinv_lt_0_compat. change 0%Q with (inject_Z 0). rewrite <- Zlt_Qlt. lia.
Qed.

Lemma pow2_nonneg_exponent k : 0 <= k -> pow2 k = inject_Z (2 ^ k).
Proof. intros H. unfold pow2. destruct (Z.leb_spec 0 k); [reflexivity | lia]. Qed.

(** Dividing an integer by a power of two with a negative exponent gives
    an integer. *)
Lemma div_pow2_integer z k :
  k <= 0 -> (inject_Z z / pow2 k == inject_Z (z * 2 ^ (- k)))%Q.
Proof.
  intros Hk. unfold pow2. destruct (Z.leb_spec 0 k).
  - replace k with 0 by lia. change (- 0) with 0. change (2 ^ 0) with 1.
    rewrite Z.mul_1_r. change (inject_Z 1) with 1%Q. field.
  - rewrite inject_Z_mult. field.
    change 0%Q with (inject_Z 0). rewrite inject_Z_injective. lia.
Qed.

Lemma ilog2_lower q : (0 < q)%Q -> (pow2 (ilog2 q) <= q)%Q.
Proof.
  intros Hq. unfold ilog2.
  set (a := Z.log2 (Qnum q)). set (b := Z.log2 (Zpos (Qden q))).
  destruct (Qle_bool (pow2 (a - b)) q) eqn:E; [now apply Qle_bool_iff|].
  assert (Hn : 0 < Qnum q).
  { destruct q as [n d]. unfold Qlt in Hq. cbn in *. lia. }
  pose proof (Z.log2_spec (Qnum q) Hn) as [Ha _]. fold a in Ha.
  pose proof (Z.log2_spec (Zpos (Qden q)) eq_refl) as [_ Hb]. fold b in Hb.
  assert (Ha0 : 0 <= a) by apply Z.log2_nonneg.
  assert (Hb0 : 0 <= b) by apply Z.log2_nonneg.
  clearbody a b. clear E.
  destruct q as [n d]. cbn [Qnum Qden] in *.
  unfold pow2. destruct (Z.leb_spec 0 (a - b - 1)).
  - unfold Qle. cbn. rewrite Z.mul_1_r.
    assert (2 ^ (a - b - 1) * 2 ^ Z.succ b = 2 ^ a)
      by (rewrite <- Z.pow_add_r by lia; f_equal; lia).
    assert (0 < 2 ^ (a - b - 1)) by (apply Z.pow_pos_nonneg; lia).
    nia.
  - assert (Hp : 0 < 2 ^ (- (a - b - 1))) by (apply Z.pow_pos_nonneg; lia).
    assert (2 ^ a * 2 ^ (- (a - b - 1)) = 2 ^ Z.succ b)
      by (rewrite <- Z.pow_add_r by lia; f_equal; lia).
    destruct (2 ^ (- (a - b - 1))) as [|p|p] eqn:Ep; try lia.
    unfold Qle, Qinv, inject_Z. cbn. nia.
Qed.

Lemma round_half_even_floor q :
  Qfloor q <= round_half_even q <= Qfloor q + 1.
Proof.
  unfold round_half_even. destruct (Qcompare _ _); [destruct (Z.even _)| |]; lia.
Qed.

Lemma round_half_even_ge q z : (inject_Z z <= q)%Q -> z <= round_half_even q.
Proof.
  intros H. pose proof (round_half_even_floor q).
  apply Qfloor_resp_le in H. rewrite Qfloor_Z in H. lia.
Qed.

Lemma round_half_even_le q z : (q <= inject_Z z)%Q -> round_half_even q <= z.
Proof.
  intros H. pose proof (round_half_even_floor q) as Hf.
  pose proof (Qfloor_resp_le _ _ H) as Hfl. rewrite Qfloor_Z in Hfl.
  destruct (Z.eq_dec (Qfloor q) z) as [Heq|Hne]; [|lia].
  unfold round_half_even.
  assert (Hq : (q - inject_Z (Qfloor q) < 1 # 2)%Q).
  { pose proof (Qfloor_le q). rewrite Heq in *. lra. }
  destruct (Qcompare_spec (q - inject_Z (Qfloor q)) (1 # 2)) as [H1|H1|H1];
    [lra | lia | lra].
Qed.

Lemma round_positive_ge q z :
  (0 < q)%Q -> 0 <= z <= 2 ^ 53 -> (inject_Z z <= q)%Q ->
  (inject_Z z <= round_positive q)%Q.
Proof.
  intros Hq Hz Hle. unfold round_positive.
  set (k := ulp_exponent q). pose proof (pow2_pos k) as Hk.
  destruct (Z.le_gt_cases k 0) as [Hneg|Hpos].
  - assert (H : z * 2 ^ (- k) <= round_half_even (q / pow2 k)).
    { apply round_half_even_ge. rewrite <- div_pow2_integer by exact Hneg.
      apply Qmult_le_compat_r; [exact Hle|]. apply Qlt_le_weak, Qinv_lt_0_compat, Hk. }
    rewrite Zle_Qle, <- div_pow2_integer in H by exact Hneg.
    pose proof (Qmult_le_compat_r _ _ (pow2 k) H (Qlt_le_weak _ _ Hk)) as H'.
    assert (E : (inject_Z z / pow2 k * pow2 k == inject_Z z)%Q) by (field; lra).
    rewrite E in H'. exact H'.
  - assert (Hk' : k = ilog2 q - 52) by (unfold k, ulp_exponent in *; lia).
    pose proof (ilog2_lower q Hq) as Hlow.
    replace (ilog2 q) with (52 + k) in Hlow by lia.
    rewrite !pow2_nonneg_exponent in * by lia.
    rewrite Z.pow_add_r, inject_Z_mult in Hlow by lia.
    assert (H : 2 ^ 52 <= round_half_even (q / inject_Z (2 ^ k))).
    { apply round_half_even_ge. apply Qle_shift_div_l; [exact Hk | exact Hlow]. }
    rewrite Zle_Qle in H.
    assert (H2 : (inject_Z (2 ^ 53) <= inject_Z (2 ^ 52) * inject_Z (2 ^ k))%Q).
    { rewrite <- inject_Z_mult, <- Zle_Qle.
      assert (2 <= 2 ^ k) by (change 2 with (2 ^ 1) at 1; apply Z.pow_le_mono_r; lia).
      change (2 ^ 53) with (2 ^ 52 * 2). nia. }
    assert (H3 : (inject_Z z <= inject_Z (2 ^ 53))%Q) by (rewrite <- Zle_Qle; lia).
    apply Qle_trans with (inject_Z (2 ^ 52) * inject_Z (2 ^ k))%Q; [lra|].
    apply Qmult_le_compat_r; [exact H | lra].
Qed.

Lemma round_positive_le q z :
  (0 < q)%Q -> 0 <= z < 2 ^ 53 -> (q <= inject_Z z)%Q ->
  (round_positive q <= inject_Z z)%Q.
Proof.
  intros Hq Hz Hle. unfold round_positive.
  set (k := ulp_exponent q). pose proof (pow2_pos k) as Hk.
  destruct (Z.le_gt_cases k 0) as [Hneg|Hpos].
  - assert (H : round_half_even (q / pow2 k) <= z * 2 ^ (- k)).
    { apply round_half_even_le. rewrite <- div_pow2_integer by exact Hneg.
      apply Qmult_le_compat_r; [exact Hle|]. apply Qlt_le_weak, Qinv_lt_0_compat, Hk. }
    rewrite Zle_Qle, <- div_pow2_integer in H by exact Hneg.
    pose proof (Qmult_le_compat_r _ _ (pow2 k) H (Qlt_le_weak _ _ Hk)) as H'.
    assert (E : (inject_Z z / pow2 k * pow2 k == inject_Z z)%Q) by (field; lra).
    rewrite E in H'. exact H'.
  - exfalso.
    assert (Hk' : k = ilog2 q - 52) by (unfold k, ulp_exponent in *; lia).
    pose proof (ilog2_lower q Hq) as Hlow.
    replace (ilog2 q) with (52 + k) in Hlow by lia.
    rewrite pow2_nonneg_exponent in Hlow by lia.
    assert (H : (inject_Z (2 ^ (52 + k)) <= inject_Z z)%Q) by lra.
    rewrite <- Zle_Qle in H.
    assert (2 ^ 53 <= 2 ^ (52 + k)) by (apply Z.pow_le_mono_r; lia).
    lia.
Qed.

Lemma round_positive_nonneg q : (0 < q)%Q -> (0 <= round_positive q)%Q.
Proof.
  intros Hq. apply (round_positive_ge q 0 Hq).
  - change (2 ^ 53) with 9007199254740992. lia.
  - change (inject_Z 0) with 0%Q. lra.
Qed.

(** Rounding does not cross an integer of up to 53 bits. *)
Lemma round_double_ge q z :
  0 <= z <= 2 ^ 53 -> (inject_Z z <= q)%Q -> (inject_Z z <= round_double q)%Q.
Proof.
  intros Hz Hle.
  assert (Hq : (0 <= q)%Q).
  { apply Qle_trans with (inject_Z z); [|exact Hle].
    change 0%Q with (inject_Z 0). rewrite <- Zle_Qle. lia. }
  unfold round_double. destruct q as [[|n|n] d]; cbn [Qnum].
  - unfold Qle in Hle. cbn in Hle. change 0%Q with (inject_Z 0).
    rewrite <- Zle_Qle. lia.
  - apply round_positive_ge; [reflexivity | exact Hz | exact Hle].
  - unfold Qle in Hq. cbn in Hq. lia.
Qed.

Lemma round_double_le q z :
  0 <= z < 2 ^ 53 -> (q <= inject_Z z)%Q -> (round_double q <= inject_Z z)%Q.
Proof.
  intros Hz Hle.
  assert (H0 : (0 <= inject_Z z)%Q)
    by (change 0%Q with (inject_Z 0); rewrite <- Zle_Qle; lia).
  unfold round_double. destruct q as [[|n|n] d]; cbn [Qnum].
  - exact H0.
  - apply round_positive_le; [reflexivity | exact Hz | exact Hle].
  - assert (Hpos : (0 < - (Z.neg n # d))%Q) by reflexivity.
    pose proof (round_positive_nonneg _ Hpos). lra.
Qed.

End DoubleFacts.

(** * Facts on the colour parser *)

Module ColorFacts.
Import Color.

(** ** Lemmas on characters and [strtol] *)

Lemma hex_digit_facts c v :
  hex_digit c = Some v ->
  0 <= v < 16 /\ isspace c = false /\ c <> "-"%char /\ c <> "+"%char
  /\ Ascii.eqb c "x" = false /\ Ascii.eqb c "X" = false
  /\ Ascii.eqb c NUL = false /\ c <> "#"%char.
Proof.
  destruct c as [[] [] [] [] [] [] [] []]; vm_compute; intros H;
    try discriminate H; injection H as <-;
    repeat split; try discriminate; intros K; discriminate K.
Qed.

Lemma strlen_hex ds vs :
  Forall2 is_hex ds vs -> strlen (str_of_chars ds) = length ds.
Proof.
  induction 1 as [|c v ds vs Hc _ IH]; simpl; [reflexivity|].
  apply hex_digit_facts in Hc as (_ & _ & _ & _ & _ & _ & -> & _).
  now rewrite IH.
Qed.

Lemma hex_run_digits ds vs acc :
  Forall2 is_hex ds vs -> hex_run (str_of_chars ds) acc = digits_val vs acc.
Proof.
  intros H; revert acc.
  induction H as [|c v ds vs Hc _ IH]; intros acc; simpl; [reflexivity|].
  rewrite Hc. apply IH.
Qed.

Lemma skip_0x_hex ds vs :
  Forall2 is_hex ds vs -> skip_0x (str_of_chars ds) = str_of_chars ds.
Proof.
  intros H.
  destruct H as [|c0 v0 ds0 vs0 _ H]; [reflexivity|].
  destruct H as [|c1 v1 ds1 vs1 H1 H]; [simpl; now destruct c0 as [[] [] [] [] [] [] [] []]|].
  destruct H as [|c2 v2 ds2 vs2 _ _]; [simpl; now destruct c0 as [[] [] [] [] [] [] [] []]|].
  apply hex_digit_facts in H1 as (_ & _ & _ & _ & Hx & HX & _).
  cbn [str_of_chars string_of_list_ascii skip_0x].
  rewrite Hx, HX. simpl. now destruct c0 as [[] [] [] [] [] [] [] []].
Qed.

Lemma strtol16_hex ds vs :
  Forall2 is_hex ds vs ->
  digits_val vs 0 <= LONG_MAX ->
  strtol16 (str_of_chars ds) = digits_val vs 0.
Proof.
  intros H Hle. unfold strtol16.
  assert (Hpre : take_sign (skip_spaces (str_of_chars ds)) = (false, str_of_chars ds)).
  { destruct H as [|c v ds vs Hc H]; [reflexivity|].
    apply hex_digit_facts in Hc as (_ & Hsp & Hm & Hp & _).
    cbn [str_of_chars string_of_list_ascii skip_spaces]. rewrite Hsp.
    unfold take_sign.
    destruct c as [[] [] [] [] [] [] [] []]; try reflexivity; congruence. }
  rewrite Hpre, (skip_0x_hex ds vs H), (hex_run_digits ds vs 0 H).
  destruct (digits_val vs 0 >? LONG_MAX) eqn:E; [lia | reflexivity].
Qed.


(** ** The channels of a packed value *)

Lemma byte_of_val val k :
  0 <= k ->
  Z.shiftr (Z.land val (Z.shiftl 255 k)) k = (val / 2 ^ k) mod 256.
Proof.
  intros Hk.
  rewrite Z.shiftr_land, Z.shiftr_shiftl_l, Z.sub_diag, Z.shiftl_0_r by lia.
  change 255 with (Z.ones 8). rewrite Z.land_ones by lia.
  now rewrite Z.shiftr_div_pow2 by lia.
Qed.

Lemma color_of_val_bytes b3 b2 b1 b0 :
  0 <= b3 < 256 -> 0 <= b2 < 256 -> 0 <= b1 < 256 -> 0 <= b0 < 256 ->
  color_of_val (((b3 * 256 + b2) * 256 + b1) * 256 + b0) = rgba8 b3 b2 b1 b0.
Proof.
  intros H3 H2 H1 H0. unfold color_of_val, rgba8, channel.
  change 0xFF000000 with (Z.shiftl 255 24).
  change 0x00FF0000 with (Z.shiftl 255 16).
  change 0x0000FF00 with (Z.shiftl 255 8).
  change 0x000000FF with (Z.shiftl 255 0).
  rewrite !byte_of_val by lia.
  change (2 ^ 24) with 16777216. change (2 ^ 16) with 65536.
  change (2 ^ 8) with 256. change (2 ^ 0) with 1.
  repeat f_equal; Z.div_mod_to_equations; lia.
Qed.

(** [val <<= 8; val |= 0xFFu] on a 24-bit value. *)
Lemma shift_or_alpha v :
  0 <= v < 2 ^ 24 ->
  Z.lor (u32 (Z.shiftl (u32 v) 8)) 0xFF = v * 256 + 255.
Proof.
  intros Hv. change (2 ^ 24) with 16777216 in Hv.
  rewrite (IntFacts.u32_small v) by (unfold UINT32_MOD; lia).
  rewrite Z.shiftl_mul_pow2 by lia. change (2 ^ 8) with 256.
  rewrite IntFacts.u32_small by (unfold UINT32_MOD; lia).
  pose proof (Z.add_lor_land (v * 256) 255) as E.
  assert (Z.land (v * 256) 255 = 0).
  { change 255 with (Z.ones 8). rewrite Z.land_ones by lia.
    change (2 ^ 8) with 256. apply Z.mod_mul. lia. }
  lia.
Qed.

Lemma skip_hash_with_hash hash ds vs :
  Forall2 is_hex ds vs ->
  skip_hash (with_hash hash (str_of_chars ds)) = str_of_chars ds.
Proof.
  intros H. destruct hash; [reflexivity|].
  destruct H as [|c v ds vs Hc _]; [reflexivity|].
  apply hex_digit_facts in Hc as (_ & _ & _ & _ & _ & _ & _ & Hh).
  simpl. destruct c as [[] [] [] [] [] [] [] []]; try reflexivity; congruence.
Qed.

Ltac hex_bounds :=
  repeat match goal with
         | H : is_hex _ _ |- _ => apply hex_digit_facts in H as (? & _)
         end.

Ltac read_chars :=
  repeat match goal with
         | |- context [char_at (str_of_chars ?l) ?i] =>
             let c := eval cbv in (char_at (str_of_chars l) i) in
             change (char_at (str_of_chars l) i) with c
         end.

Ltac invert_digits :=
  repeat match goal with
         | H : Forall2 is_hex _ (_ :: _) |- _ => inversion H; subst; clear H
         | H : Forall2 is_hex _ [] |- _ => inversion H; subst; clear H
         end.

(** C6: for every string made of an optional hash sign and hexadecimal
    digits (either case), [hex_to_color] returns the colour the digits
    denote when there are 3, 4, 6 or 8 of them (digits doubled for 3 and 4,
    alpha 255/255 for 3 and 6, every channel divided by 255) and the all -1
    colour for any other number of digits; every string whose length after
    the hash sign is not 3, 4, 6 or 8 yields the all -1 colour; upper and
    lower case letters have the same digit value; "#F00" is (1,0,0,1) and
    "00ff0080" is (0,1,0,128/255). *)
Theorem hex_to_color_spec :
  (forall (hash : bool) (ds : list ascii) (vs : list Z),
     Forall2 is_hex ds vs ->
     let c := hex_to_color (with_hash hash (str_of_chars ds)) in
     match vs with
     | [x; y; z] =>
         c = rgba8 (x * 16 + x) (y * 16 + y) (z * 16 + z) 255
     | [x; y; z; w] =>
         c = rgba8 (x * 16 + x) (y * 16 + y) (z * 16 + z) (w * 16 + w)
     | [x1; x2; y1; y2; z1; z2] =>
         c = rgba8 (x1 * 16 + x2) (y1 * 16 + y2) (z1 * 16 + z2) 255
     | [x1; x2; y1; y2; z1; z2; w1; w2] =>
         c = rgba8 (x1 * 16 + x2) (y1 * 16 + y2) (z1 * 16 + z2) (w1 * 16 + w2)
     | _ => c = invalid_color
     end)
  /\ (forall s : string,
        accepted_length (strlen (skip_hash s)) = false ->
        hex_to_color s = invalid_color)
  /\ Forall (fun p => hex_digit (fst p) = Some (snd p))
       [("0", 0); ("9", 9);
        ("a", 10); ("b", 11); ("c", 12); ("d", 13); ("e", 14); ("f", 15);
        ("A", 10); ("B", 11); ("C", 12); ("D", 13); ("E", 14); ("F", 15)]%char
  /\ color_eq (rgba8 255 255 255 255) (mkColor 1 1 1 1)
  /\ color_eq (hex_to_color "#F00") (mkColor 1 0 0 1)
  /\ color_eq (hex_to_color "00ff0080") (mkColor 0 1 0 (128 # 255)).
Proof.
  split; [|split; [|split; [|split; [|split]]]].
  - intros hash ds vs H c.
    assert (Hlen : strlen (str_of_chars ds) = length vs).
    { rewrite (strlen_hex ds vs H). eapply Forall2_length; eauto. }
    subst c. unfold hex_to_color.
    rewrite (skip_hash_with_hash hash ds vs H), Hlen.
    destruct vs as [|x [|y [|z [|w [|z1 [|z2 [|w1 [|w2 [|more vs]]]]]]]]];
      cbn [length Nat.eqb]; cbv zeta; try reflexivity; invert_digits.
    + (* three digits *)
      read_chars.
      rewrite (strtol16_hex [_; _; _; _; _; _] [x; x; y; y; z; z]);
        [|repeat constructor; assumption|hex_bounds; unfold digits_val, LONG_MAX; simpl; lia].
      hex_bounds. unfold digits_val; cbn [fold_left].
      rewrite shift_or_alpha by (change (2 ^ 24) with 16777216; lia).
      rewrite <- color_of_val_bytes by lia. f_equal. lia.
    + (* four digits *)
      read_chars.
      rewrite (strtol16_hex [_; _; _; _; _; _; _; _] [x; x; y; y; z; z; w; w]);
        [|repeat constructor; assumption|hex_bounds; unfold digits_val, LONG_MAX; simpl; lia].
      hex_bounds. unfold digits_val; cbn [fold_left].
      rewrite IntFacts.u32_small by (unfold UINT32_MOD; simpl; lia).
      rewrite <- color_of_val_bytes by lia. f_equal. lia.
    + (* six digits *)
      rewrite (strtol16_hex _ [x; y; z; w; z1; z2]);
        [|repeat constructor; assumption|hex_bounds; unfold digits_val, LONG_MAX; simpl; lia].
      hex_bounds. unfold digits_val; cbn [fold_left].
      rewrite shift_or_alpha by (change (2 ^ 24) with 16777216; lia).
      rewrite <- color_of_val_bytes by lia. f_equal. lia.
    + (* eight digits *)
      rewrite (strtol16_hex _ [x; y; z; w; z1; z2; w1; w2]);
        [|repeat constructor; assumption|hex_bounds; unfold digits_val, LONG_MAX; simpl; lia].
      hex_bounds. unfold digits_val; cbn [fold_left].
      rewrite IntFacts.u32_small by (unfold UINT32_MOD; simpl; lia).
      rewrite <- color_of_val_bytes by lia. f_equal. lia.
  - intros s Hs. unfold hex_to_color. unfold accepted_length in Hs.
    destruct (strlen (skip_hash s) =? 3)%nat; [discriminate|].
    destruct (strlen (skip_hash s) =? 4)%nat; [discriminate|].
    destruct (strlen (skip_hash s) =? 6)%nat; [discriminate|].
    destruct (strlen (skip_hash s) =? 8)%nat; [discriminate|].
    reflexivity.
  - repeat constructor.
  - vm_compute. repeat split.
  - vm_compute. repeat split.
  - vm_compute. repeat split.
Qed.


Lemma hex_to_color_spec_witness :
  hex_to_color "#fa0" = rgba8 (15 * 16 + 15) (10 * 16 + 10) (0 * 16 + 0) 255.
Proof.
  apply (proj1 hex_to_color_spec true ["f"; "a"; "0"]%char [15; 10; 0]).
  repeat constructor.
Defined.

(** ** Strings without hexadecimal digits *)

Lemma no_hex_run s acc : no_hex s -> hex_run s acc = acc.
Proof.
  destruct s as [|c rest]; simpl; [reflexivity|].
  intros [-> | [-> _]]; reflexivity.
Qed.

Lemma no_hex_skip_0x s : no_hex s -> skip_0x s = s.
Proof.
  destruct s as [|c rest]; simpl; [reflexivity|].
  intros [-> | [Hc _]]; [reflexivity|].
  destruct c as [[] [] [] [] [] [] [] []]; try reflexivity; discriminate Hc.
Qed.

Lemma no_hex_skip_spaces s : no_hex s -> no_hex (skip_spaces s).
Proof.
  induction s as [|c rest IH]; simpl; [trivial|].
  intros H. destruct (isspace c) eqn:E; [|exact H].
  destruct H as [-> | [_ H]]; [discriminate E | now apply IH].
Qed.

Lemma no_hex_tail c rest : no_hex (String c rest) -> c <> NUL -> no_hex rest.
Proof. intros [-> | [_ H]] Hc; [congruence | exact H]. Qed.

Lemma strtol16_no_hex s : no_hex s -> strtol16 s = 0.
Proof.
  intros H. apply no_hex_skip_spaces in H. unfold strtol16.
  assert (Hs : forall neg s1, take_sign (skip_spaces s) = (neg, s1) -> no_hex s1).
  { intros neg s1. unfold take_sign.
    destruct (skip_spaces s) as [|c rest]; [intros [= <- <-]; exact I|].
    destruct c as [[] [] [] [] [] [] [] []]; intros [= <- <-]; try exact H;
      (eapply no_hex_tail; [exact H | discriminate]). }
  destruct (take_sign (skip_spaces s)) as [neg s1].
  specialize (Hs neg s1 eq_refl).
  rewrite (no_hex_skip_0x s1 Hs), (no_hex_run s1 0 Hs).
  destruct neg; reflexivity.
Qed.

Lemma no_hex_chars cs :
  Forall (fun c => hex_digit c = None) cs -> no_hex (str_of_chars cs).
Proof. induction 1; simpl; auto. Qed.

Lemma strlen_chars cs :
  Forall (fun c => c <> NUL) cs -> strlen (str_of_chars cs) = length cs.
Proof.
  induction 1 as [|c cs Hc _ IH]; simpl; [reflexivity|].
  destruct (Ascii.eqb_spec c NUL); [contradiction | now rewrite IH].
Qed.

(** Every value unpacks into four bytes. *)
Lemma color_of_val_rgba8 val :
  color_of_val val =
  rgba8 ((val / 2 ^ 24) mod 256) ((val / 2 ^ 16) mod 256)
        ((val / 2 ^ 8) mod 256) ((val / 2 ^ 0) mod 256).
Proof.
  unfold color_of_val, rgba8, channel.
  change 0xFF000000 with (Z.shiftl 255 24).
  change 0x00FF0000 with (Z.shiftl 255 16).
  change 0x0000FF00 with (Z.shiftl 255 8).
  change 0x000000FF with (Z.shiftl 255 0).
  now rewrite !byte_of_val by lia.
Qed.

Lemma rgba8_not_invalid R G B A :
  0 <= R -> ~ color_eq (rgba8 R G B A) invalid_color.
Proof.
  intros HR (Hr & _). unfold rgba8 in Hr. cbn [r invalid_color] in Hr.
  unfold Qeq, Qdiv, Qmult, Qinv, inject_Z in Hr. simpl in Hr. lia.
Qed.

(** The colour of a string of accepted length is that of some 32-bit
    value. *)
Lemma hex_to_color_accepted s :
  accepted_length (strlen (skip_hash s)) = true ->
  exists val, hex_to_color s = color_of_val val.
Proof.
  intros H. unfold hex_to_color. unfold accepted_length in H.
  destruct (strlen (skip_hash s) =? 3)%nat; [eexists; reflexivity|].
  destruct (strlen (skip_hash s) =? 4)%nat; [eexists; reflexivity|].
  destruct (strlen (skip_hash s) =? 6)%nat; [eexists; reflexivity|].
  destruct (strlen (skip_hash s) =? 8)%nat; [eexists; reflexivity|].
  discriminate H.
Qed.

(** C9: whether [hex_to_color] returns the all -1 colour depends only on
    the length after the optional hash sign: every string whose length there
    is 3, 4, 6 or 8 yields a colour with four channels [k/255],
    [0 <= k < 256], which is never the all -1 colour, whatever its
    characters are; six characters none of which is a hexadecimal digit
    yield (0,0,0,1). *)
Theorem hex_to_color_never_validates :
  (forall s : string,
     accepted_length (strlen (skip_hash s)) = true ->
     (exists R G B A,
        (0 <= R < 256 /\ 0 <= G < 256 /\ 0 <= B < 256 /\ 0 <= A < 256)
        /\ hex_to_color s = rgba8 R G B A)
     /\ ~ color_eq (hex_to_color s) invalid_color)
  /\ (forall cs : list ascii,
        length cs = 6%nat ->
        Forall (fun c => hex_digit c = None) cs ->
        Forall (fun c => c <> NUL) cs ->
        hex_to_color (String "#" (str_of_chars cs)) = rgba8 0 0 0 255
        /\ (nth 0 cs NUL <> "#"%char ->
            hex_to_color (str_of_chars cs) = rgba8 0 0 0 255))
  /\ color_eq (rgba8 0 0 0 255) (mkColor 0 0 0 1)
  /\ color_eq (hex_to_color "zzzzzz") (mkColor 0 0 0 1)
  /\ color_eq (hex_to_color "#12xy") (mkColor 0 0 (17 # 255) (34 # 255)).
Proof.
  split; [|split; [|split; [|split]]].
  - intros s H. destruct (hex_to_color_accepted s H) as [val E].
    rewrite E, color_of_val_rgba8. split.
    + do 4 eexists. split; [|reflexivity].
      repeat split; apply Z.mod_pos_bound; lia.
    + apply rgba8_not_invalid. apply Z.mod_pos_bound. lia.
  - intros cs Hlen Hnohex Hnonul.
    assert (Hbody : forall s, skip_hash s = str_of_chars cs ->
                              hex_to_color s = rgba8 0 0 0 255).
    { intros s Hs. unfold hex_to_color.
      rewrite Hs, (strlen_chars cs Hnonul), Hlen. cbn [Nat.eqb]. cbv zeta.
      rewrite (strtol16_no_hex _ (no_hex_chars cs Hnohex)).
      vm_compute. reflexivity. }
    split; [apply Hbody; reflexivity|].
    intros Hfirst. apply Hbody.
    destruct cs as [|c cs]; [reflexivity|]. simpl in Hfirst. simpl.
    destruct c as [[] [] [] [] [] [] [] []]; try reflexivity; congruence.
  - vm_compute. repeat split.
  - vm_compute. repeat split.
  - vm_compute. repeat split.
Qed.

End ColorFacts.

(** * Facts on rendering and on the layout of a frame *)

Module HarfbuzzFacts.
Import Harfbuzz.

(** Unfolding of the context operations. *)
Ltac run_cairo :=
  cbv [bind ret cairo_save cairo_restore cairo_translate cairo_get_matrix
       cairo_set_source cairo_set_source_rgba emit cairo_show_glyphs set_path
       cairo_new_path cairo_arc cairo_close_path cairo_fill cairo_paint
       cairo_push_group cairo_pop_group rounded_rectangle
       render_hb_buffer render_text paint_box];
  cbn [fst snd ctm cr_source cr_path saved ops groups g_ctm g_source].

Ltac run_cairo_in H :=
  cbv [bind ret cairo_save cairo_restore cairo_translate cairo_get_matrix
       cairo_set_source cairo_set_source_rgba emit cairo_show_glyphs set_path
       cairo_new_path cairo_arc cairo_close_path cairo_fill cairo_paint
       cairo_push_group cairo_pop_group rounded_rectangle
       render_hb_buffer render_text paint_box] in H;
  cbn [fst snd ctm cr_source cr_path saved ops groups g_ctm g_source] in H.

Section Rendering.

Variable L : libs.

(** ** What rendering returns *)

Lemma render_text_themed_extents hb text theme cr :
  fst (render_text_themed L hb text theme cr) = text_extents L hb text.
Proof.
  unfold render_text_themed.
  destruct (Qeq_bool (Color.a (background_color theme)) 0); reflexivity.
Qed.

(** ** The overflow test *)

Lemma Qgt_bool_true a b : Qgt_bool a b = true <-> (b < a)%Q.
Proof.
  unfold Qgt_bool. rewrite negb_true_iff. split.
  - intros H. apply Qnot_le_lt. intros Hle.
    apply Qle_bool_iff in Hle. congruence.
  - intros H. destruct (Qle_bool a b) eqn:E; [|reflexivity].
    apply Qle_bool_iff in E. exfalso. eapply Qlt_not_le; eauto.
Qed.

Lemma Qgt_bool_false a b : Qgt_bool a b = false <-> (a <= b)%Q.
Proof.
  unfold Qgt_bool. rewrite negb_false_iff. apply Qle_bool_iff.
Qed.

Lemma size_overflows_eq e width height cr :
  size_overflows e width height cr =
  (if horizontal e
   then Qgt_bool (double_add (x0 (ctm cr)) (inject_Z width))
                 (inject_Z (u32 (clip_x e + clip_width e)))
   else Qgt_bool (double_add (y0 (ctm cr)) (inject_Z height))
                 (inject_Z (u32 (clip_y e + clip_height e))),
   cr).
Proof.
  unfold size_overflows. run_cairo.
  destruct (horizontal e); destruct (Qgt_bool _ _); reflexivity.
Qed.

Lemma u32_range z : 0 <= u32 z < 2 ^ 32.
Proof. unfold u32, UINT32_MOD. apply Z.mod_pos_bound. lia. Qed.

(** C2 (as amended): on the axis of the orientation, the overflow test
    answers true exactly when the sum of the origin of the current
    transformation and the extent, computed in [double], is larger than the
    clip origin plus the clip size, computed in [uint32_t]. It answers
    false whenever the exact sum is at most that bound, in particular when
    it is equal to it; it answers true whenever the exact sum is one unit
    or more past the bound, and whenever the exact sum is past the bound
    and is a double itself. The test leaves the context as it is, and the
    bound is the plain sum of the clip fields whenever that fits 32 bits. *)
Theorem size_overflows_boundary (e : entry) (width height : Z) (cr : cairo_t) :
  let origin := if horizontal e then x0 (ctm cr) else y0 (ctm cr) in
  let extent := inject_Z (if horizontal e then width else height) in
  let bound := if horizontal e then u32 (clip_x e + clip_width e)
               else u32 (clip_y e + clip_height e) in
  let answer := fst (size_overflows e width height cr) in
  (answer = true <-> (inject_Z bound < double_add origin extent)%Q)
  /\ ((origin + extent <= inject_Z bound)%Q -> answer = false)
  /\ ((inject_Z bound + 1 <= origin + extent)%Q -> answer = true)
  /\ ((round_double (origin + extent) == origin + extent)%Q ->
      (inject_Z bound < origin + extent)%Q -> answer = true)
  /\ snd (size_overflows e width height cr) = cr
  /\ (0 <= clip_x e + clip_width e < UINT32_MOD ->
      0 <= clip_y e + clip_height e < UINT32_MOD ->
      bound = if horizontal e then clip_x e + clip_width e
              else clip_y e + clip_height e).
Proof.
  intros origin extent bound answer.
  assert (Hanswer : answer = Qgt_bool (double_add origin extent) (inject_Z bound)).
  { subst answer origin extent bound. rewrite size_overflows_eq. cbn [fst].
    destruct (horizontal e); reflexivity. }
  assert (Hbound : 0 <= bound < 2 ^ 32)
    by (subst bound; destruct (horizontal e); apply u32_range).
  change (2 ^ 32) with 4294967296 in Hbound.
  split; [|split; [|split; [|split; [|split]]]].
  - rewrite Hanswer. apply Qgt_bool_true.
  - intros H. rewrite Hanswer. apply Qgt_bool_false.
    apply DoubleFacts.round_double_le; [|exact H].
    change (2 ^ 53) with 9007199254740992. lia.
  - intros H. rewrite Hanswer. apply Qgt_bool_true.
    apply Qlt_le_trans with (inject_Z (bound + 1)).
    + rewrite <- Zlt_Qlt. lia.
    + apply DoubleFacts.round_double_ge.
      * change (2 ^ 53) with 9007199254740992. lia.
      * rewrite inject_Z_plus. exact H.
  - intros Hexact H. rewrite Hanswer. apply Qgt_bool_true.
    unfold double_add. rewrite Hexact. exact H.
  - subst origin extent bound answer. rewrite size_overflows_eq. reflexivity.
  - intros Hx Hy. subst bound. destruct (horizontal e); now apply IntFacts.u32_small.
Qed.

(** ** The extents of a highlighted row *)

Lemma cstr_cons c rest :
  cstr (String c rest) = if Ascii.eqb c NUL then EmptyString else String c (cstr rest).
Proof. unfold cstr. simpl. destruct (Ascii.eqb c NUL); reflexivity. Qed.

Lemma cstr_idem s : cstr (cstr s) = cstr s.
Proof.
  induction s as [|c rest IH]; [reflexivity|].
  rewrite cstr_cons. destruct (Ascii.eqb c NUL) eqn:E; [reflexivity|].
  rewrite cstr_cons, E. now rewrite IH.
Qed.

Lemma text_extents_cstr hb s :
  text_extents L hb (cstr s) = text_extents L hb s.
Proof.
  unfold text_extents, shape_text, hb_buffer_add_utf8. now rewrite cstr_idem.
Qed.

Lemma highlight_pass_extents e c cr :
  fst (highlight_pass L e c cr) =
  let pre := text_extents L (harfbuzz e) (prematch c) in
  let run :=
    match match_ c with
    | Some m =>
        if prematch_len c =? 0 then text_extents L (harfbuzz e) m
        else join_extents pre (text_extents L (harfbuzz e) m)
    | None => pre
    end in
  match postmatch c with
  | Some p => join_extents run (text_extents L (harfbuzz e) p)
  | None => run
  end.
Proof.
  unfold highlight_pass.
  destruct (match_ c), (postmatch c), (prematch_len c =? 0); reflexivity.
Qed.

Lemma render_highlighted_extents e c cr :
  fst (render_highlighted L e c cr) = fst (highlight_pass L e c cr).
Proof.
  unfold render_highlighted, bind.
  rewrite (highlight_pass_extents e c cr).
  pose proof (highlight_pass_extents e c cr) as H1.
  destruct (highlight_pass L e c cr) as [ext cr1].
  destruct (Qeq_bool _ 0); [exact H1|].
  destruct (paint_box L (selection_theme e) ext cr1) as [u cr2].
  apply highlight_pass_extents.
Qed.

(** C5: the extents of a highlighted row. Without a match they are those of
    the whole string drawn alone; with a match and an empty prematch they
    are the extents of the match; with a match after a non-empty prematch
    the width is prematch.x_advance - prematch.x_bearing + match.x_bearing +
    match.width and the advance is the sum of the two advances; a postmatch
    is joined to the extents so far by the same rule. *)
Theorem highlight_extents_composition (e : entry) (c : chunks) (cr : cairo_t) :
  let measure := text_extents L (harfbuzz e) in
  let extents := fst (render_highlighted L e c cr) in
  let pre := measure (prematch c) in
  (match match_ c, postmatch c with
   | None, None => extents = pre
   | Some m, None =>
       if prematch_len c =? 0 then extents = measure m
       else extents = join_extents pre (measure m)
   | Some m, Some p =>
       extents = join_extents (if prematch_len c =? 0 then measure m
                               else join_extents pre (measure m)) (measure p)
   | None, Some p => extents = join_extents pre (measure p)
   end)
  /\ (forall a b : cairo_text_extents_t,
        width (join_extents a b) = (x_advance a - x_bearing a + x_bearing b + width b)%Q
        /\ x_advance (join_extents a b) = (x_advance a + x_advance b)%Q
        /\ x_bearing (join_extents a b) = x_bearing a)
  /\ (forall result : string,
        match_ (split_match L e result) = None ->
        fst (render_highlighted L e (split_match L e result) cr)
        = fst (render_text_themed L (harfbuzz e) result (selection_theme e) cr))
  /\ (forall result : string,
        utf8_strcasestr L (cstr result) (input_utf8 e) = None ->
        match_ (split_match L e result) = None).
Proof.
  intros measure extents pre. subst extents.
  rewrite render_highlighted_extents, highlight_pass_extents. cbv zeta.
  fold measure. fold pre.
  split; [|split; [|split]].
  - destruct (match_ c), (postmatch c), (prematch_len c =? 0); reflexivity.
  - intros a b. repeat split.
  - intros result Hnone.
    rewrite render_highlighted_extents, highlight_pass_extents, render_text_themed_extents.
    cbv zeta. rewrite Hnone.
    unfold split_match in *.
    destruct ((0 <? input_utf8_length e) && _).
    + destruct (utf8_strcasestr L (cstr result) (input_utf8 e)); [discriminate Hnone|].
      apply text_extents_cstr.
    + apply text_extents_cstr.
  - intros result Hnone. unfold split_match. rewrite Hnone.
    destruct ((0 <? input_utf8_length e) && _); reflexivity.
Qed.


(** ** What rendering adds to the canvas *)

Lemma render_text_canvas hb text cr :
  render_text L hb text cr
  = (text_extents L hb text,
     drawn_on cr (ctm cr) (cr_source cr) (cr_path cr)
       [glyph_op L hb text (cr_source cr) (ctm cr)]).
Proof. reflexivity. Qed.

Lemma paint_box_canvas theme extents cr :
  paint_box L theme extents cr
  = (tt, drawn_on cr (ctm cr) (cr_source cr) [] [box_op L theme extents (ctm cr)]).
Proof. reflexivity. Qed.

Lemma render_text_themed_canvas hb text theme cr :
  render_text_themed L hb text theme cr
  = (text_extents L hb text,
     drawn_on cr (ctm cr) (Rgba (foreground_color theme))
       (if has_background theme then [] else cr_path cr)
       (themed_ops L hb text theme (ctm cr))).
Proof.
  unfold render_text_themed, themed_ops, has_background.
  destruct (Qeq_bool (Color.a (background_color theme)) 0); cbn [negb].
  - reflexivity.
  - unfold drawn_on. cbv [bind cairo_set_source_rgba cairo_set_source].
    rewrite render_text_canvas, paint_box_canvas.
    cbv [drawn_on]. cbn [ctm cr_source cr_path saved ops groups].
    rewrite render_text_canvas. cbv [drawn_on ret].
    cbn [ctm cr_source cr_path saved ops groups].
    rewrite <- !app_assoc. reflexivity.
Qed.

Lemma highlight_pass_canvas e c cr :
  highlight_pass L e c cr
  = (pass_extents L e c,
     drawn_on cr (ctm cr) (cr_source cr) (cr_path cr) (pass_ops L e c (ctm cr))).
Proof.
  unfold highlight_pass, pass_extents, pass_ops.
  cbv [bind cairo_save cairo_set_source_rgba cairo_set_source cairo_translate ret].
  cbn [ctm cr_source cr_path saved ops groups].
  rewrite render_text_canvas. cbv [drawn_on].
  cbn [ctm cr_source cr_path saved ops groups].
  destruct (match_ c) as [mt|], (postmatch c) as [p|];
    rewrite ?render_text_canvas; cbv [drawn_on];
    cbn [ctm cr_source cr_path saved ops groups];
    rewrite ?render_text_canvas; cbv [drawn_on];
    cbn [ctm cr_source cr_path saved ops groups];
    try destruct (prematch_len c =? 0);
    rewrite ?render_text_canvas; cbv [drawn_on cairo_restore];
    cbn [ctm cr_source cr_path saved ops groups g_ctm g_source];
    rewrite <- ?app_assoc; reflexivity.
Qed.

Lemma render_highlighted_canvas e c cr :
  render_highlighted L e c cr
  = (pass_extents L e c,
     drawn_on cr (ctm cr) (cr_source cr)
       (if has_background (selection_theme e) then [] else cr_path cr)
       (highlighted_ops L e c (ctm cr))).
Proof.
  unfold render_highlighted, highlighted_ops, has_background. cbv [bind].
  rewrite highlight_pass_canvas.
  destruct (Qeq_bool (Color.a (background_color (selection_theme e))) 0); cbn [negb].
  - reflexivity.
  - rewrite paint_box_canvas. cbv [drawn_on].
    cbn [ctm cr_source cr_path saved ops groups].
    rewrite highlight_pass_canvas. cbv [drawn_on].
    cbn [ctm cr_source cr_path saved ops groups].
    rewrite <- !app_assoc. reflexivity.
Qed.

(** ** What can be seen of it *)

Lemma marks_app l1 l2 : marks (l1 ++ l2) = marks l1 ++ marks l2.
Proof. unfold marks. apply flat_map_app. Qed.

Lemma index_position_glyphs glyphs : forall x y,
  map index (position_glyphs glyphs x y) = map codepoint glyphs.
Proof.
  induction glyphs as [|gl rest IH]; intros x y; [reflexivity|].
  cbn [position_glyphs map index]. now rewrite IH.
Qed.

Lemma marks_glyph_op hb text src m :
  marks_of (glyph_op L hb text src m) = [Text src (run_of L hb text)].
Proof. unfold glyph_op, run_of. cbn [marks_of]. now rewrite index_position_glyphs. Qed.

Lemma marks_box_op theme extents m :
  marks_of (box_op L theme extents m)
  = [Box (Rgba (background_color theme))
         (replicate 4 (u32 (background_corner_radius theme)))].
Proof. reflexivity. Qed.

Lemma marks_themed_ops hb text theme m :
  marks (themed_ops L hb text theme m) = themed_marks L hb text theme.
Proof.
  unfold themed_ops, themed_marks, has_background, marks.
  destruct (Qeq_bool (Color.a (background_color theme)) 0); cbn [negb flat_map];
    rewrite ?marks_glyph_op, ?marks_box_op; reflexivity.
Qed.

Lemma marks_pass_ops e c m : marks (pass_ops L e c m) = pass_marks L e c.
Proof.
  unfold pass_ops, pass_marks, marks.
  destruct (match_ c), (postmatch c); cbn [flat_map app];
    rewrite ?marks_glyph_op; reflexivity.
Qed.

Lemma marks_highlighted_ops e c m :
  marks (highlighted_ops L e c m) = highlighted_marks L e c.
Proof.
  unfold highlighted_ops, highlighted_marks, has_background.
  destruct (Qeq_bool (Color.a (background_color (selection_theme e))) 0); cbn [negb].
  - apply marks_pass_ops.
  - rewrite marks_app. unfold marks at 2. cbn [flat_map].
    fold (marks (pass_ops L e c m)). now rewrite marks_box_op, !marks_pass_ops.
Qed.

(** ** One iteration of the loop over the results *)

Ltac split_step H :=
  match type of H with
  | context [if ?b then _ else _] => destruct b eqn:?
  | context [let '(_, _) := ?m in _] => destruct m eqn:?
  end.

Lemma result_row_continue e i ext cr ext' row cr' :
  result_row L e i ext cr = (Continue ext' row, cr') ->
  row_ok e i row /\ row_extents row = ext'.
Proof.
  unfold result_row. intros H.
  cbv [bind ret] in H.
  repeat (rewrite ?size_overflows_eq in H; split_step H);
    try discriminate H; injection H as <- <- <-; unfold row_ok; cbn;
    repeat match goal with
           | K : _ || _ = false |- _ =>
               apply orb_false_iff in K as [?%negb_false_iff%Z.eqb_eq ?]
           | K : _ || _ = true |- _ =>
               apply orb_true_iff in K as [?%negb_true_iff%Z.eqb_neq | ?]
           end;
    repeat split; try lia; try assumption; auto.
Qed.


(** ** The loop over the results *)

Lemma results_loop_S e n i ext rows cr :
  results_loop L e (S n) i ext rows cr =
  match result_row L e i ext cr with
  | (Break _, cr1) => ((i, rows), cr1)
  | (Continue ext' row, cr1) => results_loop L e n (i + 1) ext' (rows ++ [row]) cr1
  end.
Proof.
  cbn [results_loop]. unfold bind.
  destruct (result_row L e i ext cr) as [[drawn|ext' row] cr1]; reflexivity.
Qed.

Lemma results_loop_rows e n : forall i ext rows cr,
  exists new,
    snd (fst (results_loop L e n i ext rows cr)) = rows ++ new
    /\ fst (fst (results_loop L e n i ext rows cr)) = i + Z.of_nat (length new)
    /\ (length new <= n)%nat
    /\ forall (k : nat) row, new !! k = Some row -> row_ok e (i + Z.of_nat k) row.
Proof.
  induction n as [|n IH]; intros i ext rows cr.
  - exists []. cbn. rewrite app_nil_r.
    split; [|split; [|split]]; try reflexivity; try lia.
    intros k row H; discriminate H.
  - rewrite results_loop_S.
    destruct (result_row L e i ext cr) as [[drawn|ext' row] cr1] eqn:E.
    + exists []. cbn. rewrite app_nil_r.
      split; [|split; [|split]]; try reflexivity; try lia.
      intros k row H; discriminate H.
    + apply result_row_continue in E as [Hrow _].
      destruct (IH (i + 1) ext' (rows ++ [row]) cr1) as (new & H1 & H2 & H3 & H4).
      exists (row :: new). rewrite H1, H2. cbn [length].
      split; [|split; [|split]]; try lia.
      * now rewrite <- app_assoc.
      * intros [|k] r Hk; cbn in Hk.
        -- injection Hk as <-. now rewrite Z.add_0_r.
        -- replace (i + Z.of_nat (S k)) with (i + 1 + Z.of_nat k) by lia. now apply H4.
Qed.

Lemma update_result e :
  entry_backend_harfbuzz_update L e
  = (set_frame e (snd (draw_frame L e (cairo_cr e)))
       (fst (fst (draw_frame L e (cairo_cr e)))),
     snd (fst (draw_frame L e (cairo_cr e)))).
Proof.
  unfold entry_backend_harfbuzz_update.
  destruct (draw_frame L e (cairo_cr e)) as [[i rows] cr]. reflexivity.
Qed.

Lemma usize_parity z : Z.odd (usize z) = Z.odd z.
Proof.
  unfold usize, SIZE_MOD.
  rewrite (Z.div_mod z (2 ^ 64)) at 2 by lia.
  rewrite Z.odd_add, Z.odd_mul. change (Z.odd (2 ^ 64)) with false.
  reflexivity.
Qed.

Lemma result_theme_eq e i index :
  result_theme e i index =
  if i =? selection e then SelectionTheme
  else if Z.odd index then AlternateTheme else DefaultTheme.
Proof.
  unfold result_theme. destruct (i =? selection e); [reflexivity|].
  rewrite Zmod_odd. destruct (Z.odd index); reflexivity.
Qed.

(** ** What the loop adds to the canvas *)

Ltac run_row :=
  repeat first
    [ rewrite size_overflows_eq
    | rewrite render_text_themed_canvas
    | rewrite render_highlighted_canvas
    | progress cbv [bind ret cairo_translate cairo_push_group cairo_pop_group
                    cairo_save cairo_restore cairo_set_source cairo_paint emit
                    drawn_on]
    | progress cbn [fst snd ctm cr_source cr_path saved ops groups g_ctm g_source
                    row_kind_of row_text row_extents] ].

Lemma result_row_canvas e i ext cr :
  let m := step_matrix L e (ctm cr) ext in
  match result_row L e i ext cr with
  | (Break _, cr') =>
      ctm cr' = m /\ cr_source cr' = cr_source cr /\ saved cr' = saved cr
      /\ groups cr' = groups cr /\ ops cr' = ops cr
  | (Continue ext' row, cr') =>
      ext' = row_measure L e row /\ row_extents row = ext'
      /\ ctm cr' = m /\ cr_source cr' = row_source e row (cr_source cr)
      /\ saved cr' = saved cr /\ groups cr' = groups cr
      /\ ops cr' = ops cr ++ row_ops L e row m
  end.
Proof.
  cbv zeta. unfold result_row, step_matrix, row_measure, row_source, row_ops, speculative.
  destruct (horizontal e) eqn:Hh; run_row.
  all: destruct (num_results e =? 0) eqn:Hz; run_row; rewrite ?Hh.
  all: repeat match goal with
       | |- context [if ?b then _ else _] =>
           lazymatch b with
           | has_background _ => fail
           | _ => destruct b eqn:?
           end; run_row
       end.
  all: try (repeat split; reflexivity).
  all: try lia.
Qed.

Lemma results_loop_canvas e n : forall i ext rows cr,
  let r := results_loop L e n i ext rows cr in
  exists new,
    snd (fst r) = rows ++ new
    /\ fst (fst r) = i + Z.of_nat (length new)
    /\ saved (snd r) = saved cr /\ groups (snd r) = groups cr
    /\ ops (snd r) = ops cr ++ rows_ops L e (ctm cr) ext new
    /\ Forall (fun row => row_extents row = row_measure L e row) new.
Proof.
  induction n as [|n IH]; intros i ext rows cr; cbv zeta.
  - exists []. cbn. rewrite !app_nil_r. repeat split; try lia. constructor.
  - rewrite results_loop_S.
    pose proof (result_row_canvas e i ext cr) as Hrow. cbv zeta in Hrow.
    destruct (result_row L e i ext cr) as [[drawn|ext' row] cr1].
    + destruct Hrow as (_ & _ & Hs & Hg & Ho).
      exists []. cbn. rewrite !app_nil_r. repeat split; try lia; try assumption.
      constructor.
    + destruct Hrow as (Hm & He & Hc & _ & Hs & Hg & Ho).
      destruct (IH (i + 1) ext' (rows ++ [row]) cr1)
        as (new & H1 & H2 & H3 & H4 & H5 & H6).
      exists (row :: new). rewrite H1, H2, H3, H4, H5, Hs, Hg, Ho, Hc.
      cbn [length rows_ops]. rewrite He, <- !app_assoc.
      repeat split; try lia.
      constructor; [congruence|exact H6].
Qed.

Lemma draw_frame_canvas e cr :
  let r := draw_frame L e cr in
  ctm (snd r) = ctm cr /\ cr_source (snd r) = cr_source cr
  /\ saved (snd r) = saved cr /\ groups (snd r) = groups cr
  /\ ops (snd r) = ops cr ++ frame_ops L e (ctm cr) (snd (fst r))
  /\ fst (fst r) = Z.of_nat (length (snd (fst r)))
  /\ Forall (fun row => row_extents row = row_measure L e row) (snd (fst r)).
Proof.
  cbv zeta. unfold draw_frame, frame_ops, input_matrix, input_extents.
  destruct (input_display e) as [text theme]. cbn [fst snd].
  cbv [bind cairo_save]. rewrite render_text_themed_canvas.
  cbv [cairo_translate drawn_on]. cbn [ctm cr_source cr_path saved ops groups].
  rewrite render_text_themed_canvas.
  cbv [drawn_on]. cbn [ctm cr_source cr_path saved ops groups].
  match goal with
  | |- context [results_loop L e ?n 0 ?x [] ?c] =>
      destruct (results_loop_canvas e n 0 x [] c) as (new & H1 & H2 & H3 & H4 & H5 & H6);
      cbv zeta in H1, H2, H3, H4, H5, H6;
      destruct (results_loop L e n 0 x [] c) as [[i rows] c5]
  end.
  cbn [fst snd ctm cr_source cr_path saved ops groups] in *.
  cbv [cairo_restore ret]. rewrite H3. cbn [fst snd ctm cr_source saved ops groups g_ctm g_source].
  subst rows. rewrite H5, <- !app_assoc. cbn [app].
  repeat split; [exact H4 | lia | exact H6].
Qed.

Lemma draw_frame_start e cr :
  exists cr0,
    ctm cr0 = input_matrix L e (ctm cr)
    /\ fst (draw_frame L e cr)
       = fst (results_loop L e (Z.to_nat (considered_results e)) 0
                (input_extents L e) [] cr0).
Proof.
  unfold draw_frame, input_matrix, input_extents.
  destruct (input_display e) as [text theme]. cbn [fst snd].
  cbv [bind cairo_save]. rewrite render_text_themed_canvas.
  cbv [cairo_translate drawn_on]. cbn [ctm cr_source cr_path saved ops groups].
  rewrite render_text_themed_canvas.
  cbv [drawn_on]. cbn [ctm cr_source cr_path saved ops groups].
  match goal with
  | |- context [results_loop L e ?n 0 ?x [] ?c] =>
      exists c; split; [reflexivity|];
      destruct (results_loop L e n 0 x [] c) as [r c5]
  end.
  destruct (cairo_restore c5). reflexivity.
Qed.

(** ** What can be seen of a frame *)

Lemma theme_of_result_theme e i :
  theme_of e (result_theme e i (usize (i + first_result e))) = expected_theme e i.
Proof.
  rewrite result_theme_eq, usize_parity. unfold expected_theme.
  destruct (i =? selection e); [reflexivity|].
  destruct (Z.odd (i + first_result e)); reflexivity.
Qed.

Lemma marks_row_ops e i row m :
  row_ok e i row -> marks (row_ops L e row m) = expected_row_marks L e i.
Proof.
  intros (_ & Hidx & _ & Htext & Hkind).
  unfold row_ops, expected_row_marks, highlights, result_at.
  rewrite <- Hidx, <- Htext.
  destruct (row_kind_of row) as [t|].
  - destruct Hkind as [-> Hplain].
    assert (Hoff : (i =? selection e)
                   && negb (Qeq_bool (Color.a (selection_highlight_color e)) 0) = false).
    { destruct Hplain as [Hi| ->]; [|apply andb_false_r].
      apply Z.eqb_neq in Hi. now rewrite Hi. }
    rewrite Hoff, Hidx, theme_of_result_theme.
    destruct (speculative e).
    + unfold marks at 1. cbn [flat_map marks_of]. rewrite app_nil_r.
      apply marks_themed_ops.
    + apply marks_themed_ops.
  - destruct Hkind as [-> Halpha].
    rewrite Z.eqb_refl, Halpha. cbn [negb andb]. apply marks_highlighted_ops.
Qed.

Lemma marks_rows_ops e rows : forall (start : nat) m ext,
  (forall (k : nat) row,
     rows !! k = Some row -> row_ok e (Z.of_nat (start + k)) row) ->
  marks (rows_ops L e m ext rows)
  = flat_map (fun k => expected_row_marks L e (Z.of_nat k)) (seq start (length rows)).
Proof.
  induction rows as [|row rows IH]; intros start m ext Hrows; [reflexivity|].
  cbn [rows_ops length seq flat_map]. rewrite marks_app.
  rewrite (marks_row_ops e (Z.of_nat start) row).
  - f_equal. apply IH. intros k r Hk.
    replace (S start + k)%nat with (start + S k)%nat by lia.
    apply Hrows. exact Hk.
  - replace start with (start + 0)%nat by lia. apply Hrows. reflexivity.
Qed.

Lemma update_rows_ok e (k : nat) row :
  snd (entry_backend_harfbuzz_update L e) !! k = Some row ->
  row_ok e (Z.of_nat k) row.
Proof.
  rewrite update_result. cbn [snd].
  destruct (draw_frame_start e (cairo_cr e)) as (cr0 & _ & ->).
  destruct (results_loop_rows e (Z.to_nat (considered_results e)) 0
              (input_extents L e) [] cr0) as (new & H1 & _ & _ & H4).
  rewrite H1. cbn [app]. intros Hk. apply (H4 k row Hk).
Qed.

(** What a call adds to the canvas shows the prompt, the input field and
    the rows it reports, each as its position says, and nothing else. *)
Lemma update_marks e :
  let cr := cairo_cr e in
  let cr' := cairo_cr (fst (entry_backend_harfbuzz_update L e)) in
  let rows := snd (entry_backend_harfbuzz_update L e) in
  ops cr' = ops cr ++ drawn_since cr cr'
  /\ marks (drawn_since cr cr')
     = expected_frame_marks L e (fst (input_display e)) (snd (input_display e))
         (length rows)
  /\ num_results_drawn (fst (entry_backend_harfbuzz_update L e))
     = Z.of_nat (length rows).
Proof.
  cbv zeta. pose proof (update_rows_ok e) as Hrows. revert Hrows.
  rewrite update_result. cbn [fst snd cairo_cr set_frame num_results_drawn].
  intros Hrows.
  destruct (draw_frame_canvas e (cairo_cr e)) as (_ & _ & _ & _ & H5 & H6 & _).
  cbv zeta in H5, H6. unfold drawn_since. rewrite H5, drop_app_length.
  split; [reflexivity|]. split; [|exact H6].
  unfold frame_ops, expected_frame_marks.
  rewrite !marks_app, !marks_themed_ops. do 2 f_equal.
  apply marks_rows_ops. exact Hrows.
Qed.

(** C7: what [entry_backend_harfbuzz_update] adds to the canvas shows,
    after the prompt and the input field, one row per position in order:
    the row at the position of the selection in the colours and with the
    box of the selection theme (with its match in the highlight colour
    when highlighting is on), every other row in those of the alternate
    theme when its absolute index (position plus first result) is odd and
    of the default theme when it is even. The theme handed to the renderer
    is chosen by that rule, and a result that is not selected keeps its
    theme when the list is scrolled. *)
Theorem row_theme_by_absolute_index (e : entry) :
  let rows := snd (entry_backend_harfbuzz_update L e) in
  let cr := cairo_cr e in
  let cr' := cairo_cr (fst (entry_backend_harfbuzz_update L e)) in
  (ops cr' = ops cr ++ drawn_since cr cr'
   /\ marks (drawn_since cr cr')
      = themed_marks L (harfbuzz e) (prompt_text e) (prompt_theme e)
        ++ themed_marks L (harfbuzz e) (fst (input_display e)) (snd (input_display e))
        ++ flat_map
             (fun k : nat =>
                let i := Z.of_nat k in
                let text := nth (Z.to_nat (usize (i + first_result e))) (results e)
                                EmptyString in
                if (i =? selection e)
                   && negb (Qeq_bool (Color.a (selection_highlight_color e)) 0)
                then highlighted_marks L e (split_match L e text)
                else themed_marks L (harfbuzz e) text
                       (if i =? selection e then selection_theme e
                        else if Z.odd (i + first_result e)
                             then alternate_result_theme e
                             else default_result_theme e))
             (seq 0 (length rows)))
  /\ (forall i : Z,
        theme_of e (result_theme e i (usize (i + first_result e)))
        = if i =? selection e then selection_theme e
          else if Z.odd (i + first_result e) then alternate_result_theme e
          else default_result_theme e)
  /\ (forall (k : nat) (row : drawn_row),
        rows !! k = Some row ->
        row_i row = Z.of_nat k
        /\ row_index row = usize (row_i row + first_result e)
        /\ match row_kind_of row with
           | Themed t =>
               t = (if row_i row =? selection e then SelectionTheme
                    else if Z.odd (row_i row + first_result e) then AlternateTheme
                    else DefaultTheme)
           | Highlighted => row_i row = selection e
           end)
  /\ (forall i index,
        result_theme e i index =
        if i =? selection e then SelectionTheme
        else if Z.odd index then AlternateTheme else DefaultTheme)
  /\ (forall (e' : entry) (i i' : Z),
        i + first_result e = i' + first_result e' ->
        i <> selection e -> i' <> selection e' ->
        result_theme e i (usize (i + first_result e))
        = result_theme e' i' (usize (i' + first_result e'))).
Proof.
  intros rows cr cr'. split; [|split; [|split; [|split]]].
  - destruct (update_marks e) as (H1 & H2 & _). split; [exact H1 | exact H2].
  - apply theme_of_result_theme.
  - intros k row Hk. apply update_rows_ok in Hk.
    destruct Hk as (Hi & Hidx & _ & _ & Hkind).
    repeat split; [exact Hi | now rewrite Hi |].
    destruct (row_kind_of row) as [t|].
    + destruct Hkind as [-> _]. rewrite result_theme_eq, Hidx, usize_parity, Hi.
      reflexivity.
    + rewrite Hi. apply Hkind.
  - apply result_theme_eq.
  - intros e' i i' Heq Hi Hi'. rewrite !result_theme_eq, !usize_parity, Heq.
    apply Z.eqb_neq in Hi, Hi'. now rewrite Hi, Hi'.
Qed.

(** ** Fixed-count mode *)

Lemma result_row_fixed e i ext cr :
  0 < num_results e ->
  0 <= i < num_results e ->
  usize (i + first_result e) < results_count e ->
  exists ext' row cr', result_row L e i ext cr = (Continue ext' row, cr').
Proof.
  intros Hn Hi Hidx.
  destruct (result_row L e i ext cr) as [[d|ext' row] cr'] eqn:E; [exfalso|eauto].
  unfold result_row in E. cbv [bind ret] in E.
  repeat (rewrite ?size_overflows_eq in E; split_step E);
    try discriminate E; lia.
Qed.

Lemma results_loop_fixed e n : forall i ext rows cr,
  0 < num_results e ->
  0 <= i ->
  i + Z.of_nat n <= num_results e ->
  (forall j, i <= j < i + Z.of_nat n -> usize (j + first_result e) < results_count e) ->
  fst (fst (results_loop L e n i ext rows cr)) = i + Z.of_nat n
  /\ length (snd (fst (results_loop L e n i ext rows cr))) = (length rows + n)%nat.
Proof.
  induction n as [|n IH]; intros i ext rows cr Hn Hi Hle Hidx.
  - cbn. split; lia.
  - rewrite results_loop_S.
    destruct (result_row_fixed e i ext cr Hn) as (ext' & row & cr' & E);
      [lia | apply Hidx; lia |].
    rewrite E.
    destruct (IH (i + 1) ext' (rows ++ [row]) cr' Hn) as [H1 H2];
      [lia | lia | intros j Hj; apply Hidx; lia |].
    rewrite H1, H2, length_app. cbn [length]. split; lia.
Qed.

Lemma MIN_spec a b : MIN a b = Z.min a b.
Proof. unfold MIN. destruct (Z.ltb_spec a b); lia. Qed.

Lemma result_row_set_clip e x y w h i ext cr :
  0 < num_results e ->
  result_row L (set_clip e x y w h) i ext cr = result_row L e i ext cr.
Proof.
  intros Hn. unfold result_row.
  cbn [set_clip horizontal result_spacing num_results first_result results
       selection selection_highlight_color harfbuzz].
  unfold results_count. cbn [set_clip results].
  replace (num_results e =? 0) with false by lia.
  replace (0 <? num_results e) with true by lia.
  reflexivity.
Qed.

Lemma results_loop_set_clip e x y w h n : forall i ext rows cr,
  0 < num_results e ->
  results_loop L (set_clip e x y w h) n i ext rows cr
  = results_loop L e n i ext rows cr.
Proof.
  induction n as [|n IH]; intros i ext rows cr Hn; [reflexivity|].
  rewrite !results_loop_S, result_row_set_clip by exact Hn.
  destruct (result_row L e i ext cr) as [[d|ext' row] cr1]; [reflexivity|].
  now apply IH.
Qed.

Lemma update_set_clip e x y w h :
  0 < num_results e ->
  entry_backend_harfbuzz_update L (set_clip e x y w h)
  = (set_clip (fst (entry_backend_harfbuzz_update L e)) x y w h,
     snd (entry_backend_harfbuzz_update L e)).
Proof.
  intros Hn. unfold entry_backend_harfbuzz_update, draw_frame.
  cbn [set_clip cairo_cr harfbuzz prompt_text prompt_theme prompt_padding input_width].
  change (input_display (set_clip e x y w h)) with (input_display e).
  change (considered_results (set_clip e x y w h)) with (considered_results e).
  cbv [bind]. destruct (cairo_save (cairo_cr e)) as [u0 c0].
  destruct (render_text_themed L (harfbuzz e) (prompt_text e) (prompt_theme e) c0)
    as [ext1 c1].
  destruct (cairo_translate (x_advance ext1) 0 c1) as [u2 c2].
  destruct (cairo_translate (inject_Z (prompt_padding e)) 0 c2) as [u3 c3].
  destruct (input_display e) as [text theme].
  destruct (render_text_themed L (harfbuzz e) text theme c3) as [ext4 c4].
  rewrite results_loop_set_clip by exact Hn.
  destruct (results_loop L e _ 0 _ [] c4) as [[i rows] c5].
  destruct (cairo_restore c5) as [u6 c6]. reflexivity.
Qed.

Lemma expected_row_marks_nonempty e i : expected_row_marks L e i <> [].
Proof.
  unfold expected_row_marks, highlighted_marks, themed_marks, pass_marks.
  destruct (highlights e i); destruct (Qeq_bool _ 0); discriminate.
Qed.

(** C4: in fixed-count mode with the first result at index 0,
    [entry_backend_harfbuzz_update] draws exactly
    [min(num_results, results.count)] rows and records that number: what
    it adds to the canvas shows the prompt, the input field and that many
    rows, the row at position [k] showing result [k] in its theme, each
    with its text drawn at least once, and nothing else. No overflow test
    is made: with any other clip rectangle the same rows are reported and
    the drawing context ends up the same, operation by operation. *)
Theorem fixed_count_rows (e : entry) :
  0 < num_results e ->
  num_results e < UINT32_MOD ->
  first_result e = 0 ->
  let shown := Z.min (num_results e) (results_count e) in
  let rows := snd (entry_backend_harfbuzz_update L e) in
  let cr := cairo_cr e in
  let cr' := cairo_cr (fst (entry_backend_harfbuzz_update L e)) in
  Z.of_nat (length rows) = shown
  /\ num_results_drawn (fst (entry_backend_harfbuzz_update L e)) = shown
  /\ ops cr' = ops cr ++ drawn_since cr cr'
  /\ marks (drawn_since cr cr')
     = themed_marks L (harfbuzz e) (prompt_text e) (prompt_theme e)
       ++ themed_marks L (harfbuzz e) (fst (input_display e)) (snd (input_display e))
       ++ flat_map (fun k => expected_row_marks L e (Z.of_nat k))
                   (seq 0 (Z.to_nat shown))
  /\ (forall k : nat,
        Z.of_nat k < shown ->
        result_at e (Z.of_nat k) = nth k (results e) EmptyString
        /\ expected_row_marks L e (Z.of_nat k) <> [])
  /\ (forall x y w h : Z,
        entry_backend_harfbuzz_update L (set_clip e x y w h)
        = (set_clip (fst (entry_backend_harfbuzz_update L e)) x y w h, rows)).
Proof.
  intros Hn Hmax Hfirst shown rows cr cr'.
  assert (Hcount : Z.of_nat (length rows) = shown
                   /\ num_results_drawn (fst (entry_backend_harfbuzz_update L e)) = shown).
  { subst rows shown.
    rewrite update_result. cbn [fst snd num_results_drawn set_frame].
    destruct (draw_frame_start e (cairo_cr e)) as (cr0 & _ & ->).
    assert (Hc : considered_results e = Z.min (num_results e) (results_count e)).
    { unfold considered_results. destruct (Z.eqb_spec (num_results e) 0); [lia|].
      rewrite MIN_spec. apply IntFacts.u32_small.
      unfold results_count. lia. }
    assert (Hpos : 0 <= Z.min (num_results e) (results_count e))
      by (unfold results_count; lia).
    destruct (results_loop_fixed e (Z.to_nat (considered_results e)) 0
                (input_extents L e) [] cr0) as [H1 H2]; try lia.
    { intros j Hj. rewrite Hfirst, Z.add_0_r. unfold usize, SIZE_MOD.
      rewrite Z.mod_small; unfold UINT32_MOD in *; lia. }
    rewrite H1, H2. cbn [length]. lia. }
  destruct Hcount as [Hlen Hdrawn].
  destruct (update_marks e) as (H1 & H2 & _). fold cr cr' rows in H1, H2.
  split; [exact Hlen|]. split; [exact Hdrawn|]. split; [exact H1|].
  split; [|split].
  - rewrite H2. unfold expected_frame_marks. rewrite <- Hlen, Nat2Z.id. reflexivity.
  - intros k Hk. split; [|apply expected_row_marks_nonempty].
    unfold result_at. rewrite Hfirst, Z.add_0_r. unfold usize, SIZE_MOD.
    rewrite Z.mod_small, Nat2Z.id; [reflexivity|].
    subst shown. unfold UINT32_MOD in *. lia.
  - intros x y w h. now apply update_set_clip.
Qed.

(** ** More on what is drawn *)

(** X1: [render_text_themed] sets the source to the foreground colour of
    the theme and leaves it there. When the alpha of the background colour
    is zero it shows the text once and leaves the path alone; otherwise it
    shows the text, fills a box in the background colour with the corner
    radius of the theme, shows the same text again, and leaves the path
    empty. Nothing that was on the canvas is lost, the transformation, the
    saved states and the groups are as before, and the extents returned
    are those of the text. *)
Theorem render_text_themed_shows (hb : entry_backend_harfbuzz) (text : string)
  (theme : text_theme) (cr : cairo_t) :
  let cr' := snd (render_text_themed L hb text theme cr) in
  let written := Text (Rgba (foreground_color theme)) (run_of L hb text) in
  ops cr' = ops cr ++ drawn_since cr cr'
  /\ (if Qeq_bool (Color.a (background_color theme)) 0
      then marks (drawn_since cr cr') = [written] /\ cr_path cr' = cr_path cr
      else marks (drawn_since cr cr')
           = [written;
              Box (Rgba (background_color theme))
                  (replicate 4 (u32 (background_corner_radius theme)));
              written]
           /\ cr_path cr' = [])
  /\ cr_source cr' = Rgba (foreground_color theme)
  /\ (ctm cr', saved cr', groups cr') = (ctm cr, saved cr, groups cr)
  /\ fst (render_text_themed L hb text theme cr) = text_extents L hb text.
Proof.
  cbv zeta. rewrite render_text_themed_canvas. cbn [fst snd].
  unfold drawn_since, drawn_on. cbn [ops cr_path cr_source ctm saved groups].
  rewrite drop_app_length, marks_themed_ops.
  unfold themed_marks, has_background.
  split; [reflexivity|].
  split; [destruct (Qeq_bool _ 0); cbn [negb]; split; reflexivity|].
  split; [reflexivity|]. split; reflexivity.
Qed.

(** X2: [render_highlighted] shows the chunks of the row in order, the
    prematch and the postmatch in the foreground colour of the selection
    theme and the match in the highlight colour. When the alpha of the
    background of the selection theme is zero that pass is all; otherwise
    the box of the selection theme is filled after it and the same pass is
    shown again. Unlike [render_text_themed] it gives the source back as
    it was, with the transformation, the saved states and the groups. *)
Theorem render_highlighted_shows (e : entry) (c : chunks) (cr : cairo_t) :
  let hb := harfbuzz e in
  let cr' := snd (render_highlighted L e c cr) in
  let normal := Rgba (foreground_color (selection_theme e)) in
  let pass :=
    Text normal (run_of L hb (prematch c))
    :: match match_ c with
       | Some mt => [Text (Rgba (selection_highlight_color e)) (run_of L hb mt)]
       | None => []
       end
    ++ match postmatch c with
       | Some p => [Text normal (run_of L hb p)]
       | None => []
       end in
  ops cr' = ops cr ++ drawn_since cr cr'
  /\ marks (drawn_since cr cr')
     = (if Qeq_bool (Color.a (background_color (selection_theme e))) 0 then pass
        else pass
             ++ Box (Rgba (background_color (selection_theme e)))
                    (replicate 4 (u32 (background_corner_radius (selection_theme e))))
             :: pass)
  /\ (ctm cr', cr_source cr', saved cr', groups cr')
     = (ctm cr, cr_source cr, saved cr, groups cr).
Proof.
  cbv zeta. rewrite render_highlighted_canvas. cbn [fst snd].
  unfold drawn_since, drawn_on. cbn [ops cr_path cr_source ctm saved groups].
  rewrite drop_app_length, marks_highlighted_ops.
  split; [reflexivity|]. split; reflexivity.
Qed.

(** X3: a candidate row that stops the loop leaves nothing on the canvas,
    in every mode: the operations received, the source, the saved states
    and the groups are as before the iteration. This holds for the
    horizontal auto-fit mode too, where the candidate was rendered before
    it was measured: it went to a group that was never painted. A row that
    is kept adds what its position says, painted from its group in that
    mode, and leaves the saved states and the groups as they were. *)
Theorem rejected_row_leaves_no_trace (e : entry) (i : Z)
  (extents : cairo_text_extents_t) (cr : cairo_t) :
  match result_row L e i extents cr with
  | (Break _, cr') =>
      ops cr' = ops cr
      /\ (cr_source cr', saved cr', groups cr') = (cr_source cr, saved cr, groups cr)
  | (Continue _ row, cr') =>
      ops cr' = ops cr ++ drawn_since cr cr'
      /\ marks (drawn_since cr cr') = expected_row_marks L e i
      /\ (saved cr', groups cr') = (saved cr, groups cr)
      /\ (num_results e = 0 -> horizontal e = true -> highlights e i = false ->
          exists group, drawn_since cr cr' = [Paint (Pattern group)])
  end.
Proof.
  pose proof (result_row_canvas e i extents cr) as H. cbv zeta in H.
  pose proof (result_row_continue e i extents cr) as Hok.
  destruct (result_row L e i extents cr) as [[drawn|ext' row] cr'].
  - destruct H as (_ & -> & -> & -> & ->). split; reflexivity.
  - destruct H as (_ & _ & _ & _ & -> & -> & Hops).
    destruct (Hok ext' row cr' eq_refl) as [Hrow _].
    unfold drawn_since. rewrite Hops, drop_app_length.
    split; [reflexivity|]. split; [now apply marks_row_ops|].
    split; [reflexivity|].
    intros Hn Hh Hplain. unfold row_ops, speculative. rewrite Hn, Hh. cbn [Z.leb andb].
    destruct Hrow as (_ & _ & _ & _ & Hkind).
    destruct (row_kind_of row) as [t|]; [eexists; reflexivity|].
    destruct Hkind as [Hsel Halpha]. unfold highlights in Hplain.
    rewrite Hsel, Z.eqb_refl, Halpha in Hplain. discriminate Hplain.
Qed.

(** X4: [entry_backend_harfbuzz_update] gives the drawing context back as
    it found it: the transformation, the source, the saved states and the
    groups after the call are those before it, whatever was drawn and
    however the loop over the results ended, and the operations received
    before the call are still there, in front of the new ones. Of the
    entry itself only the number of results drawn changes. *)
Theorem update_restores_context (e : entry) :
  let e' := fst (entry_backend_harfbuzz_update L e) in
  (ctm (cairo_cr e'), cr_source (cairo_cr e'), saved (cairo_cr e'), groups (cairo_cr e'))
  = (ctm (cairo_cr e), cr_source (cairo_cr e), saved (cairo_cr e), groups (cairo_cr e))
  /\ (exists new, ops (cairo_cr e') = ops (cairo_cr e) ++ new)
  /\ set_frame e' (cairo_cr e) (num_results_drawn e) = e.
Proof.
  cbv zeta. rewrite update_result. cbn [fst cairo_cr set_frame].
  destruct (draw_frame_canvas e (cairo_cr e)) as (H1 & H2 & H3 & H4 & H5 & _).
  cbv zeta in H1, H2, H3, H4, H5. rewrite H1, H2, H3, H4, H5.
  split; [reflexivity|]. split; [eauto|].
  destruct e; reflexivity.
Qed.

(** X5: in every mode, the number that [entry_backend_harfbuzz_update]
    records tells what it drew: what the call adds to the canvas shows the
    prompt, the input field and the rows at the positions below that
    number, in order, and nothing else. The number is at most the number
    of results considered and, in fixed-count mode, at most the number
    asked for; every position below it shows a result that exists; without
    results it is zero. *)
Theorem update_shows_counted_rows (e : entry) :
  let after := fst (entry_backend_harfbuzz_update L e) in
  let cr := cairo_cr e in
  let cr' := cairo_cr after in
  let drawn := num_results_drawn after in
  ops cr' = ops cr ++ drawn_since cr cr'
  /\ marks (drawn_since cr cr')
     = expected_frame_marks L e (fst (input_display e)) (snd (input_display e))
         (Z.to_nat drawn)
  /\ 0 <= drawn <= considered_results e
  /\ (0 < num_results e -> drawn <= num_results e)
  /\ (forall i : Z,
        0 <= i < drawn ->
        0 <= usize (i + first_result e) < results_count e
        /\ results e !! Z.to_nat (usize (i + first_result e)) = Some (result_at e i))
  /\ (results e = [] -> drawn = 0).
Proof.
  intros after cr cr' drawn.
  destruct (update_marks e) as (H1 & H2 & H3). fold after cr cr' drawn in H1, H2, H3.
  pose proof (update_rows_ok e) as Hrows.
  set (rows := snd (entry_backend_harfbuzz_update L e)) in *.
  assert (Hlen : (length rows <= Z.to_nat (considered_results e))%nat).
  { subst rows. rewrite update_result. cbn [snd].
    destruct (draw_frame_start e (cairo_cr e)) as (cr0 & _ & ->).
    destruct (results_loop_rows e (Z.to_nat (considered_results e)) 0
                (input_extents L e) [] cr0) as (new & E1 & _ & E3 & _).
    rewrite E1. exact E3. }
  assert (Hcons : 0 <= considered_results e)
    by (unfold considered_results, u32, UINT32_MOD; apply Z.mod_pos_bound; lia).
  assert (Hcount : 0 <= results_count e) by (unfold results_count; lia).
  assert (Hshown : forall i : Z,
            0 <= i < drawn ->
            0 <= usize (i + first_result e) < results_count e
            /\ results e !! Z.to_nat (usize (i + first_result e))
               = Some (result_at e i)).
  { intros i Hi.
    destruct (lookup_lt_is_Some_2 rows (Z.to_nat i)) as [row Hrow]; [lia|].
    destruct (Hrows _ _ Hrow) as (_ & Hidx & Hlt & _).
    rewrite Z2Nat.id in Hidx by lia. rewrite <- Hidx.
    assert (Hpos : 0 <= row_index row)
      by (rewrite Hidx; unfold usize, SIZE_MOD; apply Z.mod_pos_bound; lia).
    split; [lia|]. unfold result_at. rewrite <- Hidx.
    destruct (nth_lookup_or_length (results e) (Z.to_nat (row_index row)) EmptyString)
      as [H|H]; [exact H|].
    unfold results_count in Hlt. lia. }
  split; [exact H1|]. split; [now rewrite H2, H3, Nat2Z.id|].
  split; [lia|]. split; [|split; [exact Hshown|]].
  - intros Hn.
    assert (considered_results e <= num_results e); [|lia].
    unfold considered_results. destruct (Z.eqb_spec (num_results e) 0); [lia|].
    rewrite MIN_spec. unfold u32, UINT32_MOD.
    pose proof (Z.mod_le (Z.min (num_results e) (results_count e)) (2 ^ 32)). lia.
  - intros Hnone. destruct (Z.le_gt_cases drawn 0) as [|Hpos]; [lia|].
    destruct (Hshown 0) as [Hlt _]; [lia|].
    unfold results_count in Hlt. rewrite Hnone in Hlt. cbn in Hlt. lia.
Qed.

Lemma result_row_past_end e i ext cr :
  results_count e <= usize (i + first_result e) ->
  exists drawn cr', result_row L e i ext cr = (Break drawn, cr').
Proof.
  intros Hidx.
  pose proof (result_row_continue e i ext cr) as Hrow.
  destruct (result_row L e i ext cr) as [[d|ext' row] cr']; [eauto|].
  destruct (Hrow ext' row cr' eq_refl) as ((_ & H2 & H3 & _) & _). lia.
Qed.

Lemma results_loop_page e n : forall i ext rows cr,
  0 < num_results e ->
  0 <= i ->
  i + Z.of_nat n <= num_results e ->
  0 <= first_result e ->
  first_result e + num_results e < SIZE_MOD ->
  let more := Z.min (Z.of_nat n) (Z.max 0 (results_count e - first_result e - i)) in
  fst (fst (results_loop L e n i ext rows cr)) = i + more
  /\ Z.of_nat (length (snd (fst (results_loop L e n i ext rows cr))))
     = Z.of_nat (length rows) + more.
Proof.
  induction n as [|n IH]; intros i ext rows cr Hn Hi Hle Hf Hmax; cbv zeta.
  - cbn [results_loop ret fst snd]. lia.
  - rewrite results_loop_S.
    assert (Hidx : usize (i + first_result e) = i + first_result e)
      by (unfold usize; apply Z.mod_small; lia).
    destruct (Z.le_gt_cases (results_count e) (i + first_result e)) as [Hend|Hin].
    + destruct (result_row_past_end e i ext cr) as (d & cr' & E); [lia|].
      rewrite E. cbn [fst snd]. lia.
    + destruct (result_row_fixed e i ext cr Hn) as (ext' & row & cr' & E); [lia|lia|].
      rewrite E.
      destruct (IH (i + 1) ext' (rows ++ [row]) cr' Hn) as [H1 H2]; try lia.
      rewrite H1, H2, length_app. cbn [length]. lia.
Qed.

(** X6: in fixed-count mode, with the list scrolled to the first result
    [first_result], [entry_backend_harfbuzz_update] draws
    [min(num_results, results.count - first_result)] rows, and none when
    the first result is past the end: the last page is cut short where the
    results end, and the number recorded is the number drawn. *)
Theorem fixed_count_last_page (e : entry) :
  0 < num_results e ->
  num_results e < UINT32_MOD ->
  0 <= first_result e ->
  first_result e + num_results e < SIZE_MOD ->
  let shown := Z.max 0 (Z.min (num_results e) (results_count e - first_result e)) in
  Z.of_nat (length (snd (entry_backend_harfbuzz_update L e))) = shown
  /\ num_results_drawn (fst (entry_backend_harfbuzz_update L e)) = shown
  /\ marks (drawn_since (cairo_cr e)
                        (cairo_cr (fst (entry_backend_harfbuzz_update L e))))
     = expected_frame_marks L e (fst (input_display e)) (snd (input_display e))
         (Z.to_nat shown).
Proof.
  intros Hn Hmax Hf Hsum. cbv zeta.
  destruct (update_marks e) as (_ & Hmarks & Hdrawn). rewrite Hmarks.
  enough (Hshown : Z.of_nat (length (snd (entry_backend_harfbuzz_update L e)))
                   = Z.max 0 (Z.min (num_results e) (results_count e - first_result e))).
  { rewrite Hdrawn, <- Hshown, Nat2Z.id. repeat split. }
  rewrite update_result. cbn [fst snd num_results_drawn set_frame].
  destruct (draw_frame_start e (cairo_cr e)) as (cr0 & _ & ->).
  assert (Hcount : 0 <= results_count e) by (unfold results_count; lia).
  assert (Hc : considered_results e = Z.min (num_results e) (results_count e)).
  { unfold considered_results. destruct (Z.eqb_spec (num_results e) 0); [lia|].
    rewrite MIN_spec. apply IntFacts.u32_small. lia. }
  destruct (results_loop_page e (Z.to_nat (considered_results e)) 0
              (input_extents L e) [] cr0) as [_ H2]; try lia.
  cbv zeta in H2. rewrite H2. cbn [length]. lia.
Qed.

End Rendering.

(** ** On the sample entries *)

Section OnSamples.

Import Samples.

Lemma fixed_count_rows_witness :
  Z.of_nat (length (snd (entry_backend_harfbuzz_update sample_libs three_of_five))) = 3
  /\ num_results_drawn (fst (entry_backend_harfbuzz_update sample_libs three_of_five)) = 3
  /\ length (marks (drawn_since (cairo_cr three_of_five)
                      (cairo_cr (fst (entry_backend_harfbuzz_update sample_libs
                                        three_of_five))))) = 7%nat.
Proof.
  pose proof (fixed_count_rows sample_libs three_of_five
                eq_refl eq_refl eq_refl) as H.
  cbv zeta in H. destruct H as (H1 & H2 & _ & H4 & _).
  split; [exact H1|]. split; [exact H2|]. rewrite H4. reflexivity.
Defined.

(** An origin that is a double itself, [2^-47] past 60, and an extent of
    40 reach past a clip bottom of 100, yet the sum computed in [double] is
    100 and the test answers false; and a clip origin and size whose sum
    does not fit 32 bits give a bound of 1, so that an origin of 5, far
    inside the rectangle, makes the test answer true. *)
Lemma size_overflows_tiny_excess :
  (horizontal clip_100 = false
   /\ (round_double just_past_60 == just_past_60)%Q
   /\ (inject_Z (clip_y clip_100 + clip_height clip_100)
       < y0 (ctm (context_at just_past_60)) + inject_Z 40)%Q
   /\ fst (size_overflows clip_100 0 40 (context_at just_past_60)) = false)
  /\ (horizontal wrapped_clip = false
      /\ (y0 (ctm (context_at 5)) + inject_Z 0
          < inject_Z (clip_y wrapped_clip + clip_height wrapped_clip))%Q
      /\ fst (size_overflows wrapped_clip 0 0 (context_at 5)) = true).
Proof. vm_compute. repeat split. Qed.

(** C3 (what the code does at the failing input): auto-fit mode, vertical
    orientation, rows of height 10 without spacing, and a clip rectangle
    whose bottom, at 50, is the far edge of the fourth row. With the fifth
    result selected and its match highlighted, five rows are drawn and
    counted: the fifth reaches the canvas, box and text, under an origin
    of 50, at the clip bottom. With the same entry and highlighting off,
    or with another row selected, the fifth candidate is tested with the
    font height like every other row and four rows are drawn. *)
Theorem autofit_vertical_highlight_overflow :
  let e := highlighted_fifth in
  let after := fst (entry_backend_harfbuzz_update sample_libs e) in
  let rows := snd (entry_backend_harfbuzz_update sample_libs e) in
  let canvas := drawn_since (cairo_cr e) (cairo_cr after) in
  let ascent := ascent (cairo_font_extents sample_libs) in
  let text_colour := Rgba (foreground_color (selection_theme e)) in
  let box_colour := Rgba (background_color (selection_theme e)) in
  let highlight := Rgba (selection_highlight_color e) in
  (num_results e = 0 /\ horizontal e = false /\ result_spacing e = 0
   /\ font_height (cairo_font_extents sample_libs) = 10%Q /\ ascent = 8%Q
   /\ u32 (clip_y e + clip_height e) = 50
   /\ selection e = 4
   /\ Qeq_bool (Color.a (selection_highlight_color e)) 0 = false)
  /\ (length rows = 5%nat /\ num_results_drawn after = 5
      /\ map row_kind_of rows
         = [Themed DefaultTheme; Themed AlternateTheme; Themed DefaultTheme;
            Themed AlternateTheme; Highlighted])
  /\ map origin_y canvas
     = map Some [0 + ascent; 0 + ascent;
                 10 + ascent; 20 + ascent; 30 + ascent; 40 + ascent;
                 50 + ascent; 50 + ascent; 50 + ascent; 49;
                 50 + ascent; 50 + ascent; 50 + ascent]%Q
  /\ drop 6 (marks canvas)
     = [Text text_colour []; Text highlight [101];
        Text text_colour [112; 115; 105; 108; 111; 110];
        Box box_colour [3; 3; 3; 3];
        Text text_colour []; Text highlight [101];
        Text text_colour [112; 115; 105; 108; 111; 110]]
  /\ (let e := themed_fifth in
      let after := fst (entry_backend_harfbuzz_update sample_libs e) in
      num_results_drawn after = 4
      /\ length (snd (entry_backend_harfbuzz_update sample_libs e)) = 4%nat
      /\ map origin_y (drawn_since (cairo_cr e) (cairo_cr after))
         = map Some [0 + ascent; 0 + ascent;
                     10 + ascent; 20 + ascent; 30 + ascent; 40 + ascent]%Q)
  /\ (let e := highlighted_second in
      let after := fst (entry_backend_harfbuzz_update sample_libs e) in
      num_results_drawn after = 4
      /\ length (snd (entry_backend_harfbuzz_update sample_libs e)) = 4%nat).
Proof. vm_compute. repeat split. Qed.

Lemma fixed_count_last_page_witness :
  Z.of_nat (length (snd (entry_backend_harfbuzz_update sample_libs last_page))) = 1
  /\ num_results_drawn (fst (entry_backend_harfbuzz_update sample_libs last_page)) = 1.
Proof.
  pose proof (fixed_count_last_page sample_libs last_page
                eq_refl eq_refl ltac:(vm_compute; discriminate) eq_refl) as H.
  cbv zeta in H. destruct H as (H1 & H2 & _).
  split; [exact H1 | exact H2].
Defined.

End OnSamples.

End HarfbuzzFacts.

(** * Facts on the chunks of a highlighted result *)

Module ChunkFacts.
Import Harfbuzz.

Lemma strlen_le s : (strlen s <= String.length s)%nat.
Proof.
  induction s as [|c s IH]; cbn; [lia|].
  destruct (Ascii.eqb c NUL); lia.
Qed.

Lemma substring_length s : forall a b,
  (a + b <= String.length s)%nat -> String.length (String.substring a b s) = b.
Proof.
  induction s as [|c s IH]; intros a b H; cbn in H.
  - destruct a, b; cbn; lia.
  - destruct a as [|a]; cbn.
    + destruct b as [|b]; cbn; [reflexivity|]. rewrite IH; [reflexivity|lia].
    + apply IH. lia.
Qed.

Lemma substring_all s : String.substring 0 (String.length s) s = s.
Proof. induction s as [|c s IH]; cbn; [reflexivity | now rewrite IH]. Qed.

Lemma substring_append s : forall a b c,
  (String.substring a b s ++ String.substring (a + b) c s)%string
  = String.substring a (b + c) s.
Proof.
  induction s as [|x s IH]; intros a b c.
  - destruct a, b, c; reflexivity.
  - destruct a as [|a].
    + destruct b as [|b]; cbn [Nat.add String.substring append].
      * reflexivity.
      * f_equal. apply (IH 0%nat b c).
    + cbn [Nat.add String.substring]. apply IH.
Qed.

Lemma append_empty s : (s ++ EmptyString)%string = s.
Proof. induction s as [|x s IH]; cbn; [reflexivity | now rewrite IH]. Qed.

Lemma cstr_length s : String.length (cstr s) = strlen s.
Proof.
  unfold cstr. apply substring_length. pose proof (strlen_le s). lia.
Qed.

Section Chunks.

Variable L : libs.

(** X7: when the input is found in a result at a position where it fits
    before the terminator, the three chunks of [split_match] are the
    result cut in three with nothing lost and nothing twice: the prematch,
    the match and the postmatch (when there is one) joined again are the
    result read up to its terminator; the prematch has the length of the
    match position, the match has the byte length of the input, and there
    is no postmatch exactly when the match ends the result. *)
Theorem split_match_round_trip (e : entry) (result : string) (pos : nat) :
  0 < input_utf8_length e ->
  Z.of_nat (strlen result) < SIZE_MOD ->
  Qeq_bool (Color.a (selection_highlight_color e)) 0 = false ->
  utf8_strcasestr L (cstr result) (input_utf8 e) = Some pos ->
  (pos + Z.to_nat (input_utf8_length e) <= strlen result)%nat ->
  let c := split_match L e result in
  let text_of (chunk : option string) :=
    match chunk with Some s => s | None => EmptyString end in
  (prematch c ++ text_of (match_ c) ++ text_of (postmatch c))%string = cstr result
  /\ String.length (prematch c) = pos
  /\ prematch_len c = Z.of_nat pos
  /\ (exists m, match_ c = Some m
                /\ String.length m = Z.to_nat (input_utf8_length e))
  /\ (postmatch c = None
      <-> (pos + Z.to_nat (input_utf8_length e))%nat = strlen result).
Proof.
  intros Hlen Hsize Hcol Hfind Hfit. cbv zeta.
  unfold split_match. rewrite Hfind, Hcol.
  replace (0 <? input_utf8_length e) with true by lia. cbn [negb andb].
  cbn [prematch match_ postmatch prematch_len].
  remember (Z.to_nat (input_utf8_length e)) as n eqn:Hn.
  pose proof (cstr_length result) as Hwhole.
  assert (Hpost : usize (Z.of_nat (strlen result) - Z.of_nat pos - input_utf8_length e)
                  = Z.of_nat (strlen result - (pos + n))).
  { unfold usize. unfold SIZE_MOD in *. rewrite Z.mod_small; lia. }
  rewrite Hpost.
  split; [|split; [|split; [|split]]].
  - destruct (0 <? Z.of_nat (strlen result - (pos + n))) eqn:E.
    + rewrite (Nat.add_comm n pos), Hwhole.
      rewrite (substring_append (cstr result) pos n).
      rewrite (substring_append (cstr result) 0 pos).
      replace (pos + (n + (strlen result - (pos + n))))%nat with (String.length (cstr result))
        by lia.
      apply substring_all.
    + assert (Hend : strlen result = (pos + n)%nat) by lia.
      rewrite append_empty.
      rewrite (substring_append (cstr result) 0 pos).
      replace (pos + n)%nat with (String.length (cstr result)) by lia.
      apply substring_all.
  - apply substring_length. lia.
  - reflexivity.
  - eexists. split; [reflexivity|]. apply substring_length. lia.
  - destruct (0 <? Z.of_nat (strlen result - (pos + n))) eqn:E; split;
        intros H; try discriminate H; try reflexivity; lia.
Qed.

End Chunks.

Lemma split_match_round_trip_witness :
  let c := split_match Samples.sample_libs Samples.highlighted_second "delta" in
  let text_of (chunk : option string) :=
    match chunk with Some s => s | None => EmptyString end in
  (prematch c ++ text_of (match_ c) ++ text_of (postmatch c))%string = cstr "delta"
  /\ String.length (prematch c) = 1%nat.
Proof.
  pose proof (split_match_round_trip Samples.sample_libs Samples.highlighted_second
                "delta" 1 eq_refl eq_refl eq_refl eq_refl
                ltac:(vm_compute; lia)) as H.
  cbv zeta in H. destruct H as (H1 & H2 & _).
  cbv zeta. split; [exact H1 | exact H2].
Defined.

End ChunkFacts.


(** * Facts on the masked input *)

Module MaskFacts.
Import Harfbuzz.

Section Masking.

Variable L : libs.
Variable e : entry.

Let nchars := Z.to_nat (input_utf32_length e).
Let char_size := Z.to_nat (hidden_character_utf8_length e).
Let glyph := take char_size (hidden_character_utf8 e).

Hypothesis glyph_in_array : (char_size <= length (hidden_character_utf8 e))%nat.

Lemma glyph_length : length glyph = char_size.
Proof. unfold glyph. rewrite length_take. lia. Qed.

Lemma glyph_byte (j : nat) :
  (j < char_size)%nat -> glyph !! j = Some (hidden_byte e j).
Proof.
  intros Hj. unfold glyph, hidden_byte.
  rewrite lookup_take_lt by exact Hj.
  destruct (nth_lookup_or_length (hidden_character_utf8 e) j NUL) as [H|H];
    [exact H | lia].
Qed.

Lemma repeated_length (i : nat) :
  length (concat (replicate i glyph)) = (i * char_size)%nat.
Proof.
  induction i as [|i IH]; [reflexivity|].
  cbn [replicate concat]. rewrite length_app, IH, glyph_length. lia.
Qed.

(** The inner loop writes one glyph after [pre]. *)
Lemma fill_glyph (pre : list (option ascii)) (base m : nat) : forall j : nat,
  length pre = base ->
  (j <= char_size)%nat ->
  (j <= m)%nat ->
  fold_left (fun buf j => <[(base + j)%nat := Some (hidden_byte e j)]> buf)
            (seq 0 j) (pre ++ replicate m None)
  = pre ++ map Some (take j glyph) ++ replicate (m - j) None.
Proof.
  intros j Hpre. induction j as [|j IH]; intros Hj Hm.
  - cbn. rewrite ?Nat.sub_0_r. reflexivity.
  - rewrite seq_S, fold_left_app, IH by lia. cbn [fold_left Nat.add].
    replace (m - j)%nat with (S (m - S j)) by lia.
    rewrite (take_S_r glyph j (hidden_byte e j)) by (apply glyph_byte; lia).
    rewrite map_app. cbn [map replicate].
    rewrite (app_assoc pre).
    replace (base + j)%nat with (length (pre ++ map Some (take j glyph)) + 0)%nat.
    + rewrite insert_app_r. cbn. now rewrite <- !app_assoc.
    + rewrite length_app, length_map, length_take, glyph_length. lia.
Qed.

(** The outer loop writes [i] glyphs. *)
Lemma fill_rows : forall i : nat,
  (i <= nchars)%nat ->
  fold_left (fun buf i =>
     fold_left (fun buf j => <[(i * char_size + j)%nat := Some (hidden_byte e j)]> buf)
               (seq 0 char_size) buf)
     (seq 0 i) (xmalloc (1 + nchars * char_size))
  = map Some (concat (replicate i glyph))
    ++ replicate (1 + nchars * char_size - i * char_size) None.
Proof.
  induction i as [|i IH]; intros Hi.
  - cbn. rewrite ?Nat.sub_0_r. reflexivity.
  - rewrite seq_S, fold_left_app, IH by lia. cbn [fold_left Nat.add].
    assert (Hle : (S i * char_size <= nchars * char_size)%nat)
      by (apply Nat.mul_le_mono_r; lia).
    rewrite (fill_glyph _ (i * char_size)); try lia.
    + rewrite firstn_all2 by (rewrite glyph_length; lia).
      rewrite replicate_S_end, concat_app, map_app. cbn [concat].
      rewrite app_nil_r, <- app_assoc. do 3 f_equal. lia.
    + now rewrite length_map, repeated_length.
Qed.

Lemma masked_buffer_eq :
  masked_buffer e = map Some (concat (replicate nchars glyph)) ++ [Some NUL].
Proof.
  unfold masked_buffer. fold nchars char_size.
  rewrite fill_rows by lia.
  replace (1 + nchars * char_size - nchars * char_size)%nat with 1%nat by lia.
  replace (char_size * nchars)%nat
    with (length (map Some (concat (replicate nchars glyph))) + 0)%nat.
  - now rewrite insert_app_r.
  - rewrite length_map, repeated_length. lia.
Qed.

Lemma string_of_buffer_terminated (l : list ascii) :
  Forall (fun c => c <> NUL) l ->
  string_of_buffer (map Some l ++ [Some NUL]) = string_of_list_ascii l.
Proof.
  induction 1 as [|c l Hc _ IH]; [reflexivity|].
  cbn. destruct (Ascii.eqb_spec c NUL); [contradiction | now rewrite IH].
Qed.

Lemma string_length_of_list (l : list ascii) :
  String.length (string_of_list_ascii l) = length l.
Proof. induction l as [|c l IH]; cbn; [reflexivity | now rewrite IH]. Qed.

(** A buffer read as a string holds no terminator. *)
Lemma cstr_string_of_buffer (buf : list (option ascii)) :
  cstr (string_of_buffer buf) = string_of_buffer buf.
Proof.
  induction buf as [|[c|] rest IH]; [reflexivity| |reflexivity].
  cbn [string_of_buffer]. destruct (Ascii.eqb c NUL) eqn:E; [reflexivity|].
  rewrite HarfbuzzFacts.cstr_cons, E. now rewrite IH.
Qed.

(** C8: the buffer built for a masked input is the bytes of the masking
    glyph repeated once per input character, with nothing in between,
    followed by the terminator; read as a string (for a glyph without a NUL
    byte) it is that repetition and its length is the number of characters
    times the byte length of the glyph. When the input is not empty and
    masking is requested, that string is what
    [entry_backend_harfbuzz_update] renders in the input field: what the
    call adds to the canvas shows the prompt, then that string in the
    input theme, then the rows, and the text handed to HarfBuzz for the
    input field is that string, whole. *)
Theorem masked_input_repeats_glyph :
  masked_buffer e = map Some (concat (replicate nchars glyph)) ++ [Some NUL]
  /\ length (masked_buffer e) = (nchars * char_size + 1)%nat
  /\ (Forall (fun c => c <> NUL) glyph ->
      list_ascii_of_string (string_of_buffer (masked_buffer e))
      = concat (replicate nchars glyph)
      /\ String.length (string_of_buffer (masked_buffer e))
         = (nchars * char_size)%nat)
  /\ (input_utf8_length e <> 0 -> hide_input e = true ->
      input_display e = (string_of_buffer (masked_buffer e), input_theme e))
  /\ (input_utf8_length e <> 0 -> hide_input e = true ->
      let masked := string_of_buffer (masked_buffer e) in
      let after := fst (entry_backend_harfbuzz_update L e) in
      let canvas := drawn_since (cairo_cr e) (cairo_cr after) in
      ops (cairo_cr after) = ops (cairo_cr e) ++ canvas
      /\ marks canvas
         = themed_marks L (harfbuzz e) (prompt_text e) (prompt_theme e)
           ++ themed_marks L (harfbuzz e) masked (input_theme e)
           ++ flat_map (fun k => expected_row_marks L e (Z.of_nat k))
                       (seq 0 (Z.to_nat (num_results_drawn after)))
      /\ run_of L (harfbuzz e) masked
         = map codepoint
             (hb_shape L
                (mkBuffer HB_DIRECTION_LTR HB_SCRIPT_LATIN (Some "en"%string) masked)
                (take (Z.to_nat (num_features (harfbuzz e)))
                      (hb_features (harfbuzz e))))).
Proof.
  assert (Hshown : input_utf8_length e <> 0 -> hide_input e = true ->
                   input_display e = (string_of_buffer (masked_buffer e), input_theme e)).
  { intros Hlen Hhide. unfold input_display.
    destruct (Z.eqb_spec (input_utf8_length e) 0); [contradiction|].
    now rewrite Hhide. }
  split; [exact masked_buffer_eq|split; [|split; [|split; [exact Hshown|]]]].
  - rewrite masked_buffer_eq, length_app, length_map, repeated_length.
    cbn [length]. lia.
  - intros Hglyph. rewrite masked_buffer_eq.
    assert (Hall : Forall (fun c => c <> NUL) (concat (replicate nchars glyph))).
    { apply Forall_concat. apply Forall_replicate. exact Hglyph. }
    rewrite (string_of_buffer_terminated _ Hall).
    rewrite list_ascii_of_string_of_list_ascii.
    split; [reflexivity|].
    now rewrite string_length_of_list, repeated_length.
  - intros Hlen Hhide. cbv zeta.
    destruct (HarfbuzzFacts.update_marks L e) as (H1 & H2 & H3).
    cbv zeta in H1, H2, H3.
    rewrite H2, H3, Nat2Z.id, (Hshown Hlen Hhide).
    split; [exact H1|]. split; [reflexivity|].
    unfold run_of, shape_text, hb_buffer_add_utf8, setup_hb_buffer,
      hb_buffer_clear_contents.
    cbn [buf_text buf_direction buf_script buf_language append].
    now rewrite cstr_string_of_buffer.
Qed.

End Masking.

Lemma masked_input_repeats_glyph_witness :
  string_of_buffer
    (masked_buffer (Samples.masked_entry 3 ["#"; "!"]%char 2 "abc"))
  = "#!#!#!"%string.
Proof.
  pose proof (masked_input_repeats_glyph Samples.sample_libs
                (Samples.masked_entry 3 ["#"; "!"]%char 2 "abc")
                ltac:(vm_compute; lia)) as (H & _).
  rewrite H. reflexivity.
Defined.

End MaskFacts.

(** * Facts on initialisation *)

Module InitFacts.
Import Harfbuzz.

Section Init.

Variable L : libs.

(** ** [strtok_r] and the tokens *)

Lemma skip_delims_length s : (String.length (skip_delims s) <= String.length s)%nat.
Proof.
  induction s as [|c rest IH]; cbn; [lia|].
  destruct (Ascii.eqb c ","); cbn; lia.
Qed.

Lemma take_token_length s :
  (String.length (snd (take_token s)) <= String.length s)%nat.
Proof.
  induction s as [|c rest IH]; cbn; [lia|].
  destruct (Ascii.eqb c NUL); [cbn; lia|].
  destruct (Ascii.eqb c ","); [cbn; lia|].
  destruct (take_token rest) as [tok after]. cbn in *. lia.
Qed.

(** Every call of [strtok_r] that returns a token consumes a character. *)
Lemma strtok_r_consumes s tok after :
  strtok_r s = Some (tok, after) ->
  (String.length after < String.length s)%nat /\ tok <> EmptyString.
Proof.
  unfold strtok_r. pose proof (skip_delims_length s) as Hs.
  destruct (skip_delims s) as [|c rest] eqn:E; [discriminate|].
  destruct (Ascii.eqb c NUL) eqn:En; [discriminate|].
  assert (Hc : Ascii.eqb c "," = false).
  { destruct s as [|c0 s0]; [discriminate E|].
    clear Hs. revert c0 E. induction s0 as [|c1 s1 IH]; intros c0 E; cbn in E.
    - destruct (Ascii.eqb c0 ",") eqn:E0; [discriminate E|]. now injection E as <- _.
    - destruct (Ascii.eqb c0 ",") eqn:E0; [|now injection E as <- _].
      now apply (IH c1). }
  cbn [take_token]. rewrite En, Hc.
  pose proof (take_token_length rest) as Ht.
  destruct (take_token rest) as [t a]. cbn. intros [= <- <-]. cbn in *.
  split; [lia | discriminate].
Qed.

(** More fuel than the length of the string changes nothing. *)
Lemma tokens_upto_enough n : forall s m,
  (String.length s <= n)%nat -> (n <= m)%nat ->
  tokens_upto m s = tokens_upto n s.
Proof.
  induction n as [|n IH]; intros s m Hs Hm.
  - destruct s; [|cbn in Hs; lia]. destruct m; reflexivity.
  - destruct m as [|m]; [lia|]. cbn [tokens_upto].
    destruct (strtok_r s) as [[tok after]|] eqn:E; [|reflexivity].
    apply strtok_r_consumes in E as [Hlt _].
    f_equal. apply IH; lia.
Qed.

(** The tokens are what successive calls of [strtok_r] return. *)
Lemma tokens_unfold s :
  tokens s = match strtok_r s with
             | Some (tok, after) => tok :: tokens after
             | None => []
             end.
Proof.
  unfold tokens. destruct s as [|c rest] eqn:Es; [reflexivity|].
  rewrite <- Es. replace (String.length s) with (S (String.length rest)) by now rewrite Es.
  cbn [tokens_upto].
  destruct (strtok_r s) as [[tok after]|] eqn:E; [|reflexivity].
  apply strtok_r_consumes in E as [Hlt _]. f_equal.
  apply tokens_upto_enough; [lia|]. rewrite Es in Hlt. cbn in Hlt. lia.
Qed.


(** ** The two parsing loops *)

Lemma set_variations_id hb :
  set_variations hb (hb_variations hb) (num_variations hb) = hb.
Proof. now destruct hb. Qed.

Lemma set_features_id hb :
  set_features hb (hb_features hb) (num_features hb) = hb.
Proof. now destruct hb. Qed.

Lemma set_variations_back hb' hb l n :
  set_variations hb' (hb_variations (set_variations hb l n))
                 (num_variations (set_variations hb l n)) = set_variations hb l n ->
  set_variations hb' (hb_variations hb) (num_variations hb) = hb.
Proof. destruct hb', hb. cbn. now intros [= -> -> -> -> -> -> -> ->]. Qed.

Lemma set_features_back hb' hb l n :
  set_features hb' (hb_features (set_features hb l n))
               (num_features (set_features hb l n)) = set_features hb l n ->
  set_features hb' (hb_features hb) (num_features hb) = hb.
Proof. destruct hb', hb. cbn. now intros [= -> -> -> -> -> -> -> ->]. Qed.

Lemma variation_errors_cons tok toks :
  variation_errors L (tok :: toks)
  = variation_errors L [tok] ++ variation_errors L toks.
Proof. unfold variation_errors. cbn [flat_map]. now rewrite app_nil_r. Qed.

Lemma parse_variation_eq tok w :
  parse_variation L tok w =
  (Returns tt,
   mkWorld
     match hb_variation_from_string L tok with
     | Some v => set_variations (w_hb w)
                   (<[Z.to_nat (num_variations (w_hb w)) := v]> (hb_variations (w_hb w)))
                   (num_variations (w_hb w) + 1)
     | None => w_hb w
     end
     (w_log w ++ variation_errors L [tok])
     (w_calls w ++ [Call_hb_variation_from_string tok (num_variations (w_hb w))])).
Proof.
  unfold parse_variation, variation_errors. cbv [pbind get_hb call]. cbn [flat_map].
  destruct (hb_variation_from_string L tok); cbn; rewrite ?app_nil_r; reflexivity.
Qed.

Lemma variations_loop_cons tok toks w :
  variations_loop L (tok :: toks) w =
  if num_variations (w_hb w) <? N_ELEM (hb_variations (w_hb w))
  then variations_loop L toks (snd (parse_variation L tok w))
  else (Returns tt, w).
Proof.
  cbn [variations_loop]. cbv [pbind get_hb]. cbn [w_hb].
  destruct (num_variations (w_hb w) <? N_ELEM (hb_variations (w_hb w))); [|reflexivity].
  now rewrite parse_variation_eq.
Qed.

Lemma parse_variation_world tok w :
  let w1 := snd (parse_variation L tok w) in
  w_calls w1 = w_calls w ++ [Call_hb_variation_from_string tok (num_variations (w_hb w))]
  /\ w_log w1 = w_log w ++ variation_errors L [tok]
  /\ length (hb_variations (w_hb w1)) = length (hb_variations (w_hb w))
  /\ num_variations (w_hb w1)
     = match hb_variation_from_string L tok with
       | Some _ => num_variations (w_hb w) + 1
       | None => num_variations (w_hb w)
       end
  /\ forall hb',
       set_variations hb' (hb_variations (w_hb w1)) (num_variations (w_hb w1)) = w_hb w1 ->
       set_variations hb' (hb_variations (w_hb w)) (num_variations (w_hb w)) = w_hb w.
Proof.
  cbv zeta. rewrite parse_variation_eq. cbn [snd w_calls w_log w_hb].
  destruct (hb_variation_from_string L tok) as [v|].
  - cbn [hb_variations num_variations set_variations]. rewrite length_insert.
    repeat split. intros hb'. apply set_variations_back.
  - repeat split. auto.
Qed.

Lemma variations_loop_spec toks : forall w,
  exists parsed rest,
    toks = parsed ++ rest
    /\ variations_loop L toks w = (Returns tt, snd (variations_loop L toks w))
    /\ variations_loop L parsed w = variations_loop L toks w
    /\ let w' := snd (variations_loop L toks w) in
       w_calls w' = w_calls w ++ variation_calls L parsed (num_variations (w_hb w))
       /\ w_log w' = w_log w ++ variation_errors L parsed
       /\ length (hb_variations (w_hb w')) = length (hb_variations (w_hb w))
       /\ num_variations (w_hb w) <= num_variations (w_hb w')
       /\ set_variations (w_hb w') (hb_variations (w_hb w)) (num_variations (w_hb w))
          = w_hb w
       /\ (rest = [] \/ N_ELEM (hb_variations (w_hb w')) <= num_variations (w_hb w'))
       /\ (0 <= num_variations (w_hb w) ->
           forall cf, Forall (slot_in_bounds (N_ELEM (hb_variations (w_hb w))) cf)
                        (variation_calls L parsed (num_variations (w_hb w)))).
Proof.
  induction toks as [|tok toks IH]; intros w.
  - exists [], []. cbn. rewrite !app_nil_r, set_variations_id.
    repeat split; auto. lia.
  - rewrite variations_loop_cons.
    destruct (num_variations (w_hb w) <? N_ELEM (hb_variations (w_hb w))) eqn:Hguard.
    + (* the token is handed to the parser *)
      destruct (parse_variation_world tok w) as (Pcalls & Plog & Plen & Pnum & Pset).
      cbv zeta in Pcalls, Plog, Plen, Pnum, Pset.
      set (w1 := snd (parse_variation L tok w)) in *.
      destruct (IH w1)
        as (parsed & rest & -> & Hret & Hsame & Hcalls & Hlog & Hlen & Hnum & Hset & Hfull & Hslots).
      exists (tok :: parsed), rest.
      rewrite ?variations_loop_cons, ?Hguard. fold w1.
      split; [reflexivity|split; [exact Hret|split; [exact Hsame|]]].
      cbv zeta. rewrite Hcalls, Hlog, Hlen, Pcalls, Plog, Plen.
      cbn [variation_calls]. rewrite (variation_errors_cons tok parsed), <- !app_assoc. cbn [app].
      rewrite <- Pnum.
      split; [reflexivity|split; [reflexivity|split; [reflexivity|]]].
      assert (Hmono : num_variations (w_hb w) <= num_variations (w_hb w1))
        by (rewrite Pnum; destruct (hb_variation_from_string L tok); lia).
      split; [lia|split; [now apply Pset|split; [exact Hfull|]]].
      intros Hpos cf. constructor; [cbn; lia|].
      unfold N_ELEM in *. rewrite <- Plen. apply Hslots. lia.
    + exists [], (tok :: toks). cbn. rewrite !app_nil_r, set_variations_id.
      repeat split; auto; try lia.
Qed.

Lemma feature_errors_cons tok toks :
  feature_errors L (tok :: toks)
  = feature_errors L [tok] ++ feature_errors L toks.
Proof. unfold feature_errors. cbn [flat_map]. now rewrite app_nil_r. Qed.

Lemma parse_feature_eq tok w :
  parse_feature L tok w =
  (Returns tt,
   mkWorld
     match hb_feature_from_string L tok with
     | Some v => set_features (w_hb w)
                   (<[Z.to_nat (num_features (w_hb w)) := v]> (hb_features (w_hb w)))
                   (num_features (w_hb w) + 1)
     | None => w_hb w
     end
     (w_log w ++ feature_errors L [tok])
     (w_calls w ++ [Call_hb_feature_from_string tok (num_features (w_hb w))])).
Proof.
  unfold parse_feature, feature_errors. cbv [pbind get_hb call]. cbn [flat_map].
  destruct (hb_feature_from_string L tok); cbn; rewrite ?app_nil_r; reflexivity.
Qed.

Lemma features_loop_cons tok toks w :
  features_loop L (tok :: toks) w =
  if num_features (w_hb w) <? N_ELEM (hb_features (w_hb w))
  then features_loop L toks (snd (parse_feature L tok w))
  else (Returns tt, w).
Proof.
  cbn [features_loop]. cbv [pbind get_hb]. cbn [w_hb].
  destruct (num_features (w_hb w) <? N_ELEM (hb_features (w_hb w))); [|reflexivity].
  now rewrite parse_feature_eq.
Qed.

Lemma parse_feature_world tok w :
  let w1 := snd (parse_feature L tok w) in
  w_calls w1 = w_calls w ++ [Call_hb_feature_from_string tok (num_features (w_hb w))]
  /\ w_log w1 = w_log w ++ feature_errors L [tok]
  /\ length (hb_features (w_hb w1)) = length (hb_features (w_hb w))
  /\ num_features (w_hb w1)
     = match hb_feature_from_string L tok with
       | Some _ => num_features (w_hb w) + 1
       | None => num_features (w_hb w)
       end
  /\ forall hb',
       set_features hb' (hb_features (w_hb w1)) (num_features (w_hb w1)) = w_hb w1 ->
       set_features hb' (hb_features (w_hb w)) (num_features (w_hb w)) = w_hb w.
Proof.
  cbv zeta. rewrite parse_feature_eq. cbn [snd w_calls w_log w_hb].
  destruct (hb_feature_from_string L tok) as [v|].
  - cbn [hb_features num_features set_features]. rewrite length_insert.
    repeat split. intros hb'. apply set_features_back.
  - repeat split. auto.
Qed.

Lemma features_loop_spec toks : forall w,
  exists parsed rest,
    toks = parsed ++ rest
    /\ features_loop L toks w = (Returns tt, snd (features_loop L toks w))
    /\ features_loop L parsed w = features_loop L toks w
    /\ let w' := snd (features_loop L toks w) in
       w_calls w' = w_calls w ++ feature_calls L parsed (num_features (w_hb w))
       /\ w_log w' = w_log w ++ feature_errors L parsed
       /\ length (hb_features (w_hb w')) = length (hb_features (w_hb w))
       /\ num_features (w_hb w) <= num_features (w_hb w')
       /\ set_features (w_hb w') (hb_features (w_hb w)) (num_features (w_hb w))
          = w_hb w
       /\ (rest = [] \/ N_ELEM (hb_features (w_hb w')) <= num_features (w_hb w'))
       /\ (0 <= num_features (w_hb w) ->
           forall cv, Forall (slot_in_bounds cv (N_ELEM (hb_features (w_hb w))))
                        (feature_calls L parsed (num_features (w_hb w)))).
Proof.
  induction toks as [|tok toks IH]; intros w.
  - exists [], []. cbn. rewrite !app_nil_r, set_features_id.
    repeat split; auto. lia.
  - rewrite features_loop_cons.
    destruct (num_features (w_hb w) <? N_ELEM (hb_features (w_hb w))) eqn:Hguard.
    + (* the token is handed to the parser *)
      destruct (parse_feature_world tok w) as (Pcalls & Plog & Plen & Pnum & Pset).
      cbv zeta in Pcalls, Plog, Plen, Pnum, Pset.
      set (w1 := snd (parse_feature L tok w)) in *.
      destruct (IH w1)
        as (parsed & rest & -> & Hret & Hsame & Hcalls & Hlog & Hlen & Hnum & Hset & Hfull & Hslots).
      exists (tok :: parsed), rest.
      rewrite ?features_loop_cons, ?Hguard. fold w1.
      split; [reflexivity|split; [exact Hret|split; [exact Hsame|]]].
      cbv zeta. rewrite Hcalls, Hlog, Hlen, Pcalls, Plog, Plen.
      cbn [feature_calls]. rewrite (feature_errors_cons tok parsed), <- !app_assoc. cbn [app].
      rewrite <- Pnum.
      split; [reflexivity|split; [reflexivity|split; [reflexivity|]]].
      assert (Hmono : num_features (w_hb w) <= num_features (w_hb w1))
        by (rewrite Pnum; destruct (hb_feature_from_string L tok); lia).
      split; [lia|split; [now apply Pset|split; [exact Hfull|]]].
      intros Hpos cv. constructor; [cbn; lia|].
      unfold N_ELEM in *. rewrite <- Plen. apply Hslots. lia.
    + exists [], (tok :: toks). cbn. rewrite !app_nil_r, set_features_id.
      repeat split; auto; try lia.
Qed.

(** ** The whole initialisation *)

Ltac run_proc_in H :=
  cbv beta iota zeta delta [pbind pret log call get_hb put_hb exit] in H;
  cbn [w_hb w_log w_calls fst snd app] in H.

Lemma set_variations_fields hb' hb l n :
  set_variations hb' l n = hb ->
  hb_features hb' = hb_features hb /\ num_features hb' = num_features hb
  /\ disable_hinting hb' = disable_hinting hb.
Proof. intros <-. now destruct hb'. Qed.

Lemma set_features_fields hb' hb l n :
  set_features hb' l n = hb ->
  hb_variations hb' = hb_variations hb /\ num_variations hb' = num_variations hb
  /\ disable_hinting hb' = disable_hinting hb.
Proof. intros <-. now destruct hb'. Qed.

(** Once the library is initialised and the font is loaded,
    initialisation returns; these are its calls, in order, its log, and
    what the two loops did to the arrays. *)
Lemma run_init_loaded (no_font_changed : bool) (e : entry) :
  FT_Init_FreeType L = 0 ->
  FT_New_Face L (font_name e) = 0 ->
  exists pv rv pf rf,
    tokens (font_variations e) = pv ++ rv
    /\ tokens (font_features e) = pf ++ rf
    /\ fst (run_init L no_font_changed e) = Returns tt
    /\ let w := snd (run_init L no_font_changed e) in
       let hb := harfbuzz e in
       w_calls w =
         calls_before_variations e
         ++ variation_calls L pv (num_variations hb)
         ++ Call_hb_font_set_variations (hb_variations (w_hb w)) (num_variations (w_hb w))
            :: (if no_font_changed then [] else [Call_hb_ft_hb_font_changed])
         ++ feature_calls L pf (num_features hb)
         ++ calls_after_features e
       /\ w_log w =
         [log_debug (line "Creating FreeType library.");
          log_debug (line "Loading FreeType font.")]
         ++ (if negb (set_size_error L e =? 0)
             then [log_error (line "Error setting font size: %s")
                     (get_ft_error_string L (set_size_error L e))]
             else [])
         ++ log_debug (line "Creating Harfbuzz font.")
            :: (if negb (Ascii.eqb (char_at (font_variations e) 0) NUL)
                then [log_debug (line "Parsing font variations.")] else [])
         ++ variation_errors L pv
         ++ (if negb (Ascii.eqb (char_at (font_features e) 0) NUL)
             then [log_debug (line "Parsing font features.")] else [])
         ++ feature_errors L pf
         ++ [log_debug (line "Creating Harfbuzz buffer.");
             log_debug (line "Creating Cairo font.")]
       /\ length (hb_variations (w_hb w)) = length (hb_variations hb)
       /\ length (hb_features (w_hb w)) = length (hb_features hb)
       /\ (rv = [] \/ N_ELEM (hb_variations (w_hb w)) <= num_variations (w_hb w))
       /\ (rf = [] \/ N_ELEM (hb_features (w_hb w)) <= num_features (w_hb w))
       /\ (0 <= num_variations hb ->
           forall cf, Forall (slot_in_bounds (N_ELEM (hb_variations hb)) cf)
                        (variation_calls L pv (num_variations hb)))
       /\ (0 <= num_features hb ->
           forall cv, Forall (slot_in_bounds cv (N_ELEM (hb_features hb)))
                        (feature_calls L pf (num_features hb))).
Proof.
  intros H1 H2.
  destruct (run_init L no_font_changed e) as [o w] eqn:HR.
  unfold run_init, entry_backend_harfbuzz_init in HR.
  run_proc_in HR. rewrite H1 in HR. cbn [Z.eqb negb] in HR. run_proc_in HR.
  rewrite H2 in HR. cbn [Z.eqb negb] in HR. run_proc_in HR.
  unfold calls_before_variations, calls_after_features, set_size_error, init_font_size.
  destruct (negb (FT_Set_Char_Size L _ _ =? 0)); run_proc_in HR.
  all: destruct (negb (Ascii.eqb (char_at (font_variations e) 0) NUL)); run_proc_in HR.
  all: match type of HR with
       | context [variations_loop L ?t ?w] =>
           destruct (variations_loop_spec t w)
             as (pv & rv & Htv & Hret & _ & Vcalls & Vlog & Vlen & Vnum & Vset & Vfull & Vslots);
           rewrite Hret in HR; run_proc_in HR;
           set (w1 := snd (variations_loop L t w)) in *
       end.
  all: destruct no_font_changed; run_proc_in HR.
  all: destruct (negb (Ascii.eqb (char_at (font_features e) 0) NUL)); run_proc_in HR.
  all: match type of HR with
       | context [features_loop L ?t ?w] =>
           destruct (features_loop_spec t w)
             as (pf & rf & Htf & Fret & _ & Fcalls & Flog & Flen & Fnum & Fset & Ffull & Fslots);
           rewrite Fret in HR; run_proc_in HR;
           set (w2 := snd (features_loop L t w)) in *
       end.
  all: cbn [w_hb w_log w_calls hb_variations hb_features num_variations num_features
            disable_hinting set_hb_font set_ft_face set_ft_library set_hb_buffer
            set_cairo_face] in *.
  all: apply set_variations_fields in Vset as (V1 & V2 & V3).
  all: apply set_features_fields in Fset as (F1 & F2 & F3).
  all: cbn [w_hb w_log w_calls hb_variations hb_features num_variations num_features
            disable_hinting set_hb_font set_ft_face set_ft_library set_hb_buffer
            set_cairo_face] in *.
  all: rewrite F3, V3 in HR.
  all: destruct (disable_hinting (harfbuzz e)); run_proc_in HR.
  all: injection HR as <- <-.
  all: exists pv, rv, pf, rf.
  all: split; [exact Htv|split; [exact Htf|split; [reflexivity|]]].
  all: cbn [w_hb w_log w_calls hb_variations hb_features num_variations num_features
            disable_hinting set_hb_font set_ft_face set_ft_library set_hb_buffer
            set_cairo_face fst snd].
  all: rewrite Fcalls, Flog, Vcalls, Vlog, <- ?app_assoc; cbn [app].
  all: rewrite ?F1, ?F2, ?V1, ?V2, ?Flen, ?Vlen.
  all: unfold N_ELEM in *.
  all: rewrite ?F1, ?F2, ?V1, ?V2, ?Flen, ?Vlen in Vfull, Ffull, Vslots, Fslots |- *.
  all: repeat split; try assumption; try reflexivity.
  all: try (rewrite V1; reflexivity).
  all: intros Hpos cv; rewrite <- V1, <- V2; apply Fslots; rewrite V2; exact Hpos.
Qed.

Lemma run_init_library_failure nfc e :
  FT_Init_FreeType L <> 0 ->
  run_init L nfc e =
  (Exits EXIT_FAILURE,
   mkWorld (harfbuzz e)
     [log_debug (line "Creating FreeType library.");
      log_error (line "Error initialising FreeType: %s")
        (get_ft_error_string L (FT_Init_FreeType L))]
     [Call_FT_Init_FreeType]).
Proof.
  intros H. apply Z.eqb_neq in H.
  unfold run_init, entry_backend_harfbuzz_init.
  rewrite H. reflexivity.
Qed.

Lemma run_init_face_failure nfc e :
  FT_Init_FreeType L = 0 ->
  FT_New_Face L (font_name e) <> 0 ->
  run_init L nfc e =
  (Exits EXIT_FAILURE,
   mkWorld (set_ft_library (harfbuzz e) true)
     [log_debug (line "Creating FreeType library.");
      log_debug (line "Loading FreeType font.");
      log_error (line "Error loading font: %s")
        (get_ft_error_string L (FT_New_Face L (font_name e)))]
     [Call_FT_Init_FreeType; Call_FT_New_Face (font_name e)]).
Proof.
  intros H1 H2. apply Z.eqb_neq in H2.
  unfold run_init, entry_backend_harfbuzz_init.
  rewrite H1, H2. reflexivity.
Qed.

(** C1 (what the code does): when FreeType cannot be initialised or the
    font cannot be opened, [entry_backend_harfbuzz_init] logs the error
    string of the failure and ends the process; when the size cannot be
    set, it logs the error string, goes on to the end of the
    initialisation and returns. *)
Theorem init_font_errors (no_font_changed : bool) (e : entry) :
  (FT_Init_FreeType L <> 0 ->
   fst (run_init L no_font_changed e) = Exits EXIT_FAILURE
   /\ last (w_log (snd (run_init L no_font_changed e)))
      = Some (log_error (line "Error initialising FreeType: %s")
                (get_ft_error_string L (FT_Init_FreeType L))))
  /\ (FT_Init_FreeType L = 0 -> FT_New_Face L (font_name e) <> 0 ->
      fst (run_init L no_font_changed e) = Exits EXIT_FAILURE
      /\ last (w_log (snd (run_init L no_font_changed e)))
         = Some (log_error (line "Error loading font: %s")
                   (get_ft_error_string L (FT_New_Face L (font_name e)))))
  /\ (FT_Init_FreeType L = 0 -> FT_New_Face L (font_name e) = 0 ->
      set_size_error L e <> 0 ->
      fst (run_init L no_font_changed e) = Returns tt
      /\ In (log_error (line "Error setting font size: %s")
               (get_ft_error_string L (set_size_error L e)))
            (w_log (snd (run_init L no_font_changed e)))
      /\ last (w_calls (snd (run_init L no_font_changed e)))
         = Some Call_cairo_font_options_destroy).
Proof.
  split; [|split].
  - intros H. rewrite (run_init_library_failure _ _ H). split; reflexivity.
  - intros H1 H2. rewrite (run_init_face_failure _ _ H1 H2). split; reflexivity.
  - intros H1 H2 H3.
    destruct (run_init_loaded no_font_changed e H1 H2)
      as (pv & rv & pf & rf & _ & _ & Hret & Hcalls & Hlog & _).
    cbv zeta in Hcalls, Hlog.
    split; [exact Hret|split].
    + rewrite Hlog. apply Z.eqb_neq in H3. rewrite H3. cbn. auto.
    + rewrite Hcalls.
      assert (Hend : last (calls_after_features e) = Some Call_cairo_font_options_destroy)
        by reflexivity.
      rewrite last_app, last_app, last_cons, last_app, last_app, Hend. reflexivity.
Qed.

(** C10: with counters that start at or above zero, every slot handed to a
    parser of variations or features during initialisation lies inside its
    array, and the arrays keep their length; when the font is loaded,
    initialisation returns, the tokens of each list split into those
    handed to the parser and those left over, the left-over tokens cause no
    call and no log message, and tokens are left over only when the array
    is full. *)
Theorem init_parsers_stay_in_bounds (no_font_changed : bool) (e : entry) :
  0 <= num_variations (harfbuzz e) ->
  0 <= num_features (harfbuzz e) ->
  let w := snd (run_init L no_font_changed e) in
  let hb := harfbuzz e in
  Forall (slot_in_bounds (N_ELEM (hb_variations hb)) (N_ELEM (hb_features hb)))
         (w_calls w)
  /\ length (hb_variations (w_hb w)) = length (hb_variations hb)
  /\ length (hb_features (w_hb w)) = length (hb_features hb)
  /\ (FT_Init_FreeType L = 0 -> FT_New_Face L (font_name e) = 0 ->
      exists pv rv pf rf,
        tokens (font_variations e) = pv ++ rv
        /\ tokens (font_features e) = pf ++ rf
        /\ fst (run_init L no_font_changed e) = Returns tt
        /\ (rv = [] \/ N_ELEM (hb_variations (w_hb w)) <= num_variations (w_hb w))
        /\ (rf = [] \/ N_ELEM (hb_features (w_hb w)) <= num_features (w_hb w))
        /\ w_calls w =
             calls_before_variations e
             ++ variation_calls L pv (num_variations hb)
             ++ Call_hb_font_set_variations (hb_variations (w_hb w))
                  (num_variations (w_hb w))
                :: (if no_font_changed then [] else [Call_hb_ft_hb_font_changed])
             ++ feature_calls L pf (num_features hb)
             ++ calls_after_features e
        /\ w_log w =
             [log_debug (line "Creating FreeType library.");
              log_debug (line "Loading FreeType font.")]
             ++ (if negb (set_size_error L e =? 0)
                 then [log_error (line "Error setting font size: %s")
                         (get_ft_error_string L (set_size_error L e))]
                 else [])
             ++ log_debug (line "Creating Harfbuzz font.")
                :: (if negb (Ascii.eqb (char_at (font_variations e) 0) NUL)
                    then [log_debug (line "Parsing font variations.")] else [])
             ++ variation_errors L pv
             ++ (if negb (Ascii.eqb (char_at (font_features e) 0) NUL)
                 then [log_debug (line "Parsing font features.")] else [])
             ++ feature_errors L pf
             ++ [log_debug (line "Creating Harfbuzz buffer.");
                 log_debug (line "Creating Cairo font.")]).
Proof.
  intros Hv Hf w hb.
  destruct (Z.eq_dec (FT_Init_FreeType L) 0) as [H1|H1].
  2:{ subst w. rewrite (run_init_library_failure _ _ H1). cbn.
      repeat split; try contradiction. repeat constructor. }
  destruct (Z.eq_dec (FT_New_Face L (font_name e)) 0) as [H2|H2].
  2:{ subst w. rewrite (run_init_face_failure _ _ H1 H2). cbn.
      repeat split; try contradiction. repeat constructor. }
  destruct (run_init_loaded no_font_changed e H1 H2)
    as (pv & rv & pf & rf & Htv & Htf & Hret & Hcalls & Hlog & Hlv & Hlf
        & Hfv & Hff & Hsv & Hsf).
  fold w hb in Hcalls, Hlog, Hlv, Hlf, Hfv, Hff, Hsv, Hsf.
  split; [|split; [exact Hlv|split; [exact Hlf|]]].
  - rewrite Hcalls.
    apply Forall_app; split; [repeat constructor|].
    apply Forall_app; split; [now apply Hsv|].
    apply Forall_cons; split; [exact I|].
    apply Forall_app; split; [destruct no_font_changed; repeat constructor|].
    apply Forall_app; split; [now apply Hsf|].
    unfold calls_after_features.
    destruct (disable_hinting (harfbuzz e)); repeat constructor.
  - intros _ _. exists pv, rv, pf, rf. repeat split; assumption.
Qed.

End Init.

(** ** Initialisation with the sample font *)

Section InitSamples.

Import Samples.

Lemma init_font_errors_witness :
  fst (run_init sample_libs false bitmap_entry) = Returns tt
  /\ In (log_error (line "Error setting font size: %s") (Some "invalid pixel size"%string))
        (w_log (snd (run_init sample_libs false bitmap_entry)))
  /\ last (w_calls (snd (run_init sample_libs false bitmap_entry)))
     = Some Call_cairo_font_options_destroy.
Proof.
  exact (proj2 (proj2 (init_font_errors sample_libs false bitmap_entry))
           eq_refl eq_refl ltac:(vm_compute; discriminate)).
Defined.

Lemma init_parsers_stay_in_bounds_witness :
  Forall (slot_in_bounds 2 2) (w_calls (snd (run_init sample_libs false four_tokens))).
Proof.
  exact (proj1 (init_parsers_stay_in_bounds sample_libs false four_tokens
                  ltac:(vm_compute; discriminate) ltac:(vm_compute; discriminate))).
Defined.

(** The third token fills the array; the fourth is neither parsed nor
    reported, and the token that does not parse is reported once. *)
Example init_drops_the_fourth_token :
  tokens (font_variations four_tokens) = ["a=1"; "bad"; "c=3"; "d=4"]%string
  /\ List.filter (fun c => match c with
                      | Call_hb_variation_from_string _ _ => true
                      | _ => false
                      end)
            (w_calls (snd (run_init sample_libs false four_tokens)))
     = [Call_hb_variation_from_string "a=1" 0;
        Call_hb_variation_from_string "bad" 1;
        Call_hb_variation_from_string "c=3" 1]
  /\ num_variations (w_hb (snd (run_init sample_libs false four_tokens))) = 2
  /\ List.filter (fun m => match m with log_error _ _ => true | _ => false end)
            (w_log (snd (run_init sample_libs false four_tokens)))
     = [log_error (line ("Failed to parse font variation " ++ dquote ++ "%s"
                         ++ dquote ++ ".")) (Some "bad"%string)]
  /\ fst (run_init sample_libs false four_tokens) = Returns tt.
Proof. vm_compute. repeat split. Qed.

End InitSamples.

End InitFacts.

(** * Facts on the font settings *)

Module SettingsFacts.
Import Harfbuzz Settings.
Import InitFacts.

(** ** The tokens of a list *)

Lemma tokens_comma rest : tokens (String "," rest) = tokens rest.
Proof.
  rewrite (tokens_unfold (String "," rest)), (tokens_unfold rest). reflexivity.
Qed.

Lemma skip_delims_token c rest :
  Ascii.eqb c "," = false -> skip_delims (String c rest) = String c rest.
Proof. intros H. cbn. now rewrite H. Qed.

Lemma fields_take_token s :
  fields s = fst (take_token s) :: tl (fields s)
  /\ List.filter (fun f => negb (is_empty f)) (tl (fields s))
     = List.filter (fun f => negb (is_empty f)) (fields (snd (take_token s))).
Proof.
  induction s as [|c rest [IH1 IH2]]; [split; reflexivity|].
  cbn [fields take_token].
  destruct (Ascii.eqb c NUL); [split; reflexivity|].
  destruct (Ascii.eqb c ","); [split; reflexivity|].
  destruct (take_token rest) as [tok after]. cbn [fst snd] in *.
  rewrite IH1. cbn [tl] in *. split; [reflexivity | exact IH2].
Qed.

Lemma take_token_clean s :
  ~ occurs "," (fst (take_token s)) /\ ~ occurs NUL (fst (take_token s)).
Proof.
  induction s as [|c rest [IH1 IH2]]; [split; intros []|].
  cbn [take_token].
  destruct (Ascii.eqb_spec c NUL); [split; intros []|].
  destruct (Ascii.eqb_spec c ","); [split; intros []|].
  destruct (take_token rest) as [tok after]. cbn [fst occurs] in *.
  split; intros [H|H]; auto.
Qed.

Lemma tokens_fields_upto n : forall s,
  (String.length s <= n)%nat ->
  tokens s = List.filter (fun f => negb (is_empty f)) (fields s)
  /\ Forall (fun tok => tok <> EmptyString /\ ~ occurs "," tok /\ ~ occurs NUL tok)
            (tokens s).
Proof.
  induction n as [|n IH]; intros s Hs.
  - destruct s; [|cbn in Hs; lia]. split; [reflexivity | constructor].
  - destruct s as [|c rest]; [split; [reflexivity | constructor]|].
    cbn in Hs.
    destruct (Ascii.eqb_spec c ",") as [->|Hc].
    + rewrite tokens_comma. cbn [fields Ascii.eqb Bool.eqb andb List.filter is_empty negb].
      apply IH. lia.
    + rewrite tokens_unfold. unfold strtok_r.
      rewrite skip_delims_token by (now apply Ascii.eqb_neq).
      destruct (Ascii.eqb c NUL) eqn:En.
      * cbn [fields]. rewrite En. split; [reflexivity | constructor].
      * pose proof (strtok_r_consumes (String c rest)) as Hcons.
        unfold strtok_r in Hcons.
        rewrite skip_delims_token, En in Hcons by (now apply Ascii.eqb_neq).
        destruct (fields_take_token (String c rest)) as [F1 F2].
        destruct (take_token_clean (String c rest)) as [C1 C2].
        destruct (take_token (String c rest)) as [tok after].
        destruct (Hcons tok after eq_refl) as [Hlt Hne]. cbn [fst snd] in *.
        destruct (IH after) as [T1 T2]; [cbn in Hlt; lia|].
        split.
        -- rewrite F1. cbn [List.filter]. rewrite F2, <- T1.
           destruct tok; [contradiction|reflexivity].
        -- constructor; [auto | exact T2].
Qed.

(** X8: the tokens that [strtok_r] cuts out of a list of font variations
    or features are the comma-separated fields of the string read up to
    its terminator, in order, without the empty ones: commas at the
    start, at the end or next to each other yield no token, so no token is
    empty and no token contains a comma or a NUL. *)
Theorem tokens_are_nonempty_fields (s : string) :
  tokens s = List.filter (fun f => negb (is_empty f)) (fields s)
  /\ Forall (fun tok => tok <> EmptyString /\ ~ occurs "," tok /\ ~ occurs NUL tok)
            (tokens s)
  /\ (forall rest, tokens (String "," rest) = tokens rest)
  /\ tokens (String NUL s) = [].
Proof.
  destruct (tokens_fields_upto (String.length s) s (le_n _)) as [H1 H2].
  split; [exact H1|]. split; [exact H2|]. split; [exact tokens_comma|].
  rewrite tokens_unfold. reflexivity.
Qed.

(** ** What the loops leave in the arrays *)

Section Stored.

Variable L : libs.

Lemma variations_loop_stored toks : forall w,
  0 <= num_variations (w_hb w) ->
  let hb := w_hb w in
  let hb' := w_hb (snd (variations_loop L toks w)) in
  let kept := stored (length (hb_variations hb)) (num_variations hb)
                (parsed (hb_variation_from_string L) toks) in
  num_variations hb' = num_variations hb + Z.of_nat (length kept)
  /\ take (Z.to_nat (num_variations hb')) (hb_variations hb')
     = take (Z.to_nat (num_variations hb)) (hb_variations hb) ++ kept.
Proof.
  unfold stored.
  induction toks as [|tok toks IH]; intros w Hpos; cbv zeta.
  - cbn [variations_loop pret snd parsed]. rewrite take_nil, app_nil_r. cbn. split; [lia|reflexivity].
  - rewrite variations_loop_cons.
    destruct (Z.ltb_spec (num_variations (w_hb w)) (N_ELEM (hb_variations (w_hb w))))
      as [Hroom|Hfull]; unfold N_ELEM in *.
    + specialize (IH (snd (parse_variation L tok w))). cbv zeta in IH.
      rewrite parse_variation_eq in IH |- *. cbn [snd w_hb] in IH |- *.
      cbn [parsed].
      destruct (hb_variation_from_string L tok) as [v|].
      * cbn [num_variations hb_variations set_variations] in IH.
        rewrite length_insert in IH.
        destruct IH as [IH1 IH2]; [lia|].
        replace (length (hb_variations (w_hb w)) - Z.to_nat (num_variations (w_hb w)))%nat
          with (S (length (hb_variations (w_hb w))
                   - Z.to_nat (num_variations (w_hb w) + 1)))%nat by lia.
        cbn [take length]. split; [rewrite IH1; lia|]. rewrite IH2.
        replace (Z.to_nat (num_variations (w_hb w) + 1))
          with (S (Z.to_nat (num_variations (w_hb w)))) by lia.
        rewrite (take_S_r _ _ v)
          by (apply list_lookup_insert_eq; lia).
        rewrite take_insert_ge by lia.
        rewrite <- app_assoc. reflexivity.
      * apply IH. exact Hpos.
    + cbn [snd].
      replace (length (hb_variations (w_hb w)) - Z.to_nat (num_variations (w_hb w)))%nat
        with 0%nat by lia.
      rewrite take_0, app_nil_r. cbn. split; [lia|reflexivity].
Qed.

Lemma features_loop_stored toks : forall w,
  0 <= num_features (w_hb w) ->
  let hb := w_hb w in
  let hb' := w_hb (snd (features_loop L toks w)) in
  let kept := stored (length (hb_features hb)) (num_features hb)
                (parsed (hb_feature_from_string L) toks) in
  num_features hb' = num_features hb + Z.of_nat (length kept)
  /\ take (Z.to_nat (num_features hb')) (hb_features hb')
     = take (Z.to_nat (num_features hb)) (hb_features hb) ++ kept.
Proof.
  unfold stored.
  induction toks as [|tok toks IH]; intros w Hpos; cbv zeta.
  - cbn [features_loop pret snd parsed]. rewrite take_nil, app_nil_r. cbn. split; [lia|reflexivity].
  - rewrite features_loop_cons.
    destruct (Z.ltb_spec (num_features (w_hb w)) (N_ELEM (hb_features (w_hb w))))
      as [Hroom|Hfull]; unfold N_ELEM in *.
    + specialize (IH (snd (parse_feature L tok w))). cbv zeta in IH.
      rewrite parse_feature_eq in IH |- *. cbn [snd w_hb] in IH |- *.
      cbn [parsed].
      destruct (hb_feature_from_string L tok) as [v|].
      * cbn [num_features hb_features set_features] in IH.
        rewrite length_insert in IH.
        destruct IH as [IH1 IH2]; [lia|].
        replace (length (hb_features (w_hb w)) - Z.to_nat (num_features (w_hb w)))%nat
          with (S (length (hb_features (w_hb w))
                   - Z.to_nat (num_features (w_hb w) + 1)))%nat by lia.
        cbn [take length]. split; [rewrite IH1; lia|]. rewrite IH2.
        replace (Z.to_nat (num_features (w_hb w) + 1))
          with (S (Z.to_nat (num_features (w_hb w)))) by lia.
        rewrite (take_S_r _ _ v)
          by (apply list_lookup_insert_eq; lia).
        rewrite take_insert_ge by lia.
        rewrite <- app_assoc. reflexivity.
      * apply IH. exact Hpos.
    + cbn [snd].
      replace (length (hb_features (w_hb w)) - Z.to_nat (num_features (w_hb w)))%nat
        with 0%nat by lia.
      rewrite take_0, app_nil_r. cbn. split; [lia|reflexivity].
Qed.

Lemma set_variations_handles hb' hb l n :
  set_variations hb' l n = hb ->
  (ft_library hb', ft_face hb', cairo_face hb', hb_font hb', hb_buffer hb')
  = (ft_library hb, ft_face hb, cairo_face hb, hb_font hb, hb_buffer hb).
Proof. intros <-. now destruct hb'. Qed.

Lemma set_features_handles hb' hb l n :
  set_features hb' l n = hb ->
  (ft_library hb', ft_face hb', cairo_face hb', hb_font hb', hb_buffer hb')
  = (ft_library hb, ft_face hb, cairo_face hb, hb_font hb, hb_buffer hb).
Proof. intros <-. now destruct hb'. Qed.

Ltac step_proc_in H :=
  cbv beta iota zeta delta [pbind pret log call get_hb put_hb exit] in H;
  cbn [w_hb w_log w_calls fst snd app] in H.

(** X9: when the library is initialised and the font is loaded,
    [entry_backend_harfbuzz_init] leaves in the counted part of the array of
    variations what was counted before, followed by the values of the
    tokens that parse, in the order of the list, as many as there was room
    for; tokens that do not parse leave no gap; the count grows by that
    number. The same holds for the features. All four handles are set, the
    buffer is a fresh one, and the hinting switch is untouched. *)
Theorem init_stores_parsed_settings (no_font_changed : bool) (e : entry) :
  FT_Init_FreeType L = 0 ->
  FT_New_Face L (font_name e) = 0 ->
  0 <= num_variations (harfbuzz e) ->
  0 <= num_features (harfbuzz e) ->
  let hb := harfbuzz e in
  let hb' := w_hb (snd (run_init L no_font_changed e)) in
  let variations :=
    stored (length (hb_variations hb)) (num_variations hb)
      (parsed (hb_variation_from_string L) (tokens (font_variations e))) in
  let features :=
    stored (length (hb_features hb)) (num_features hb)
      (parsed (hb_feature_from_string L) (tokens (font_features e))) in
  num_variations hb' = num_variations hb + Z.of_nat (length variations)
  /\ take (Z.to_nat (num_variations hb')) (hb_variations hb')
     = take (Z.to_nat (num_variations hb)) (hb_variations hb) ++ variations
  /\ num_features hb' = num_features hb + Z.of_nat (length features)
  /\ take (Z.to_nat (num_features hb')) (hb_features hb')
     = take (Z.to_nat (num_features hb)) (hb_features hb) ++ features
  /\ (ft_library hb', ft_face hb', hb_font hb', cairo_face hb') = (true, true, true, true)
  /\ hb_buffer hb'
     = Some (mkBuffer HB_DIRECTION_INVALID HB_SCRIPT_INVALID None EmptyString)
  /\ disable_hinting hb' = disable_hinting hb.
Proof.
  intros H1 H2 Hv Hf. cbv zeta.
  destruct (run_init L no_font_changed e) as [o w] eqn:HR.
  unfold run_init, entry_backend_harfbuzz_init in HR.
  step_proc_in HR. rewrite H1 in HR. cbn [Z.eqb negb] in HR. step_proc_in HR.
  rewrite H2 in HR. cbn [Z.eqb negb] in HR. step_proc_in HR.
  destruct (negb (FT_Set_Char_Size L _ _ =? 0)); step_proc_in HR.
  all: destruct (negb (Ascii.eqb (char_at (font_variations e) 0) NUL)); step_proc_in HR.
  all: match type of HR with
       | context [variations_loop L ?t ?w] =>
           destruct (variations_loop_spec L t w)
             as (pv & rv & _ & Hret & _ & _ & _ & _ & _ & Vset & _);
           destruct (variations_loop_stored t w Hv) as [S1 S2];
           cbv zeta in S1, S2;
           rewrite Hret in HR; step_proc_in HR;
           set (w1 := snd (variations_loop L t w)) in *
       end.
  all: destruct no_font_changed; step_proc_in HR.
  all: destruct (negb (Ascii.eqb (char_at (font_features e) 0) NUL)); step_proc_in HR.
  all: pose proof (set_variations_handles _ _ _ _ Vset) as VH.
  all: apply set_variations_fields in Vset as (V1 & V2 & V3).
  all: cbn [w_hb w_log w_calls hb_variations hb_features num_variations num_features
            disable_hinting set_hb_font set_ft_face set_ft_library set_hb_buffer
            set_cairo_face ft_library ft_face hb_font cairo_face hb_buffer] in *.
  all: match type of HR with
       | context [features_loop L ?t ?w] =>
           destruct (features_loop_spec L t w)
             as (pf & rf & _ & Fret & _ & _ & _ & _ & _ & Fset & _);
           destruct (features_loop_stored t w) as [T1 T2];
           [cbn [w_hb]; rewrite V2; exact Hf|];
           cbv zeta in T1, T2;
           rewrite Fret in HR; step_proc_in HR;
           set (w2 := snd (features_loop L t w)) in *
       end.
  all: cbn [w_hb w_log w_calls hb_variations hb_features num_variations num_features
            disable_hinting set_hb_font set_ft_face set_ft_library set_hb_buffer
            set_cairo_face ft_library ft_face hb_font cairo_face hb_buffer] in *.
  all: pose proof (set_features_handles _ _ _ _ Fset) as FH.
  all: apply set_features_fields in Fset as (F1 & F2 & F3).
  all: cbn [w_hb w_log w_calls hb_variations hb_features num_variations num_features
            disable_hinting set_hb_font set_ft_face set_ft_library set_hb_buffer
            set_cairo_face ft_library ft_face hb_font cairo_face hb_buffer] in *.
  all: destruct (disable_hinting (w_hb w2)) eqn:Hhint; step_proc_in HR.
  all: injection HR as <- <-.
  all: cbn [w_hb w_log w_calls hb_variations hb_features num_variations num_features
            disable_hinting set_hb_font set_ft_face set_ft_library set_hb_buffer
            set_cairo_face ft_library ft_face hb_font cairo_face hb_buffer fst snd] in *.
  all: injection VH as VH1 VH2 VH3 VH4 VH5; injection FH as FH1 FH2 FH3 FH4 FH5.
  all: repeat split; congruence.
Qed.


(** X10: when [entry_backend_harfbuzz_init] gives up, it has called
    nothing after the call that failed: a failing [FT_Init_FreeType] is
    the only call and leaves the backend as it was; a failing
    [FT_New_Face] follows [FT_Init_FreeType] alone and leaves only the
    library handle set; neither HarfBuzz nor Cairo is reached, and the
    error is the last of the messages. *)
Theorem init_failure_stops_early (no_font_changed : bool) (e : entry) :
  let w := snd (run_init L no_font_changed e) in
  (FT_Init_FreeType L <> 0 ->
   w_calls w = [Call_FT_Init_FreeType]
   /\ w_hb w = harfbuzz e
   /\ w_log w = [log_debug (line "Creating FreeType library.");
                 log_error (line "Error initialising FreeType: %s")
                   (get_ft_error_string L (FT_Init_FreeType L))])
  /\ (FT_Init_FreeType L = 0 -> FT_New_Face L (font_name e) <> 0 ->
      w_calls w = [Call_FT_Init_FreeType; Call_FT_New_Face (font_name e)]
      /\ w_hb w = set_ft_library (harfbuzz e) true
      /\ (ft_face (w_hb w), hb_font (w_hb w), cairo_face (w_hb w), hb_buffer (w_hb w))
         = (ft_face (harfbuzz e), hb_font (harfbuzz e), cairo_face (harfbuzz e),
            hb_buffer (harfbuzz e))
      /\ w_log w = [log_debug (line "Creating FreeType library.");
                    log_debug (line "Loading FreeType font.");
                    log_error (line "Error loading font: %s")
                      (get_ft_error_string L (FT_New_Face L (font_name e)))]).
Proof.
  cbv zeta. split.
  - intros H. rewrite (run_init_library_failure L _ _ H). repeat split.
  - intros H1 H2. rewrite (run_init_face_failure L _ _ H1 H2). repeat split.
Qed.

(** X11: [get_ft_error_string] returns the message of the first entry of
    the table of FreeType errors that carries the code, whatever follows
    it, so an entry is never shadowed by a later one or by the terminator
    of the table; a code that no entry carries yields "Unknown FT error". *)
Theorem get_ft_error_string_first_match (err_code : Z) :
  (forall before msg after,
     ft_errors L = before ++ (err_code, msg) :: after ->
     Forall (fun entry => fst entry <> err_code) before ->
     get_ft_error_string L err_code = msg)
  /\ (Forall (fun entry => fst entry <> err_code) (ft_errors L) ->
      get_ft_error_string L err_code = Some "Unknown FT error"%string).
Proof.
  unfold get_ft_error_string. split.
  - intros before msg after -> Hbefore.
    induction Hbefore as [|[code m] before Hcode _ IH]; cbn [app find_ft_error].
    + now rewrite Z.eqb_refl.
    + cbn [fst] in Hcode. apply Z.eqb_neq in Hcode. now rewrite Hcode.
  - intros Hnone.
    induction Hnone as [|[code m] table Hcode _ IH]; [reflexivity|].
    cbn [find_ft_error]. cbn [fst] in Hcode. apply Z.eqb_neq in Hcode.
    now rewrite Hcode.
Qed.

End Stored.

Lemma init_stores_parsed_settings_witness :
  let hb := harfbuzz Samples.four_tokens in
  let hb' := w_hb (snd (run_init Samples.sample_libs false Samples.four_tokens)) in
  let variations :=
    stored (length (hb_variations hb)) (num_variations hb)
      (parsed (hb_variation_from_string Samples.sample_libs)
         (tokens (font_variations Samples.four_tokens))) in
  num_variations hb' = num_variations hb + Z.of_nat (length variations)
  /\ take (Z.to_nat (num_variations hb')) (hb_variations hb')
     = take (Z.to_nat (num_variations hb)) (hb_variations hb) ++ variations.
Proof.
  pose proof (init_stores_parsed_settings Samples.sample_libs false Samples.four_tokens
                eq_refl eq_refl ltac:(vm_compute; discriminate)
                ltac:(vm_compute; discriminate)) as H.
  cbv zeta in H. destruct H as (H1 & H2 & _).
  cbv zeta. split; [exact H1 | exact H2].
Defined.

End SettingsFacts.

(** * Facts on letter case and shorthand *)

Module Notation16Facts.
Import Color Notation16.

(** ** Letter case *)

Lemma to_upper_facts c :
  hex_digit (to_upper c) = hex_digit c
  /\ isspace (to_upper c) = isspace c
  /\ Ascii.eqb (to_upper c) NUL = Ascii.eqb c NUL
  /\ Ascii.eqb (to_upper c) "#" = Ascii.eqb c "#"
  /\ Ascii.eqb (to_upper c) "-" = Ascii.eqb c "-"
  /\ Ascii.eqb (to_upper c) "+" = Ascii.eqb c "+"
  /\ Ascii.eqb (to_upper c) "0" = Ascii.eqb c "0"
  /\ (Ascii.eqb (to_upper c) "x" || Ascii.eqb (to_upper c) "X")
     = (Ascii.eqb c "x" || Ascii.eqb c "X").
Proof.
  destruct c as [[] [] [] [] [] [] [] []]; vm_compute; repeat split.
Qed.

Lemma strlen_upper s : strlen (upper s) = strlen s.
Proof.
  induction s as [|c rest IH]; [reflexivity|]. cbn [upper strlen].
  destruct (to_upper_facts c) as (_ & _ & -> & _). now rewrite IH.
Qed.

Lemma char_at_upper s : forall i, char_at (upper s) i = to_upper (char_at s i).
Proof.
  unfold char_at.
  induction s as [|c rest IH]; intros i; [reflexivity|].
  destruct i as [|i]; cbn [upper String.get]; [reflexivity | apply IH].
Qed.

Lemma skip_hash_upper s : skip_hash (upper s) = upper (skip_hash s).
Proof.
  destruct s as [|c rest]; [reflexivity|]. cbn [upper].
  destruct (to_upper_facts c) as (_ & _ & _ & H & _).
  destruct (Ascii.eqb_spec c "#") as [->|Hc]; [reflexivity|].
  apply Ascii.eqb_neq in H.
  assert (K : forall x s', x <> "#"%char -> skip_hash (String x s') = String x s').
  { intros x s' Hx. destruct x as [[] [] [] [] [] [] [] []]; try reflexivity.
    now contradiction Hx. }
  now rewrite !K.
Qed.

Lemma hex_run_upper s : forall acc, hex_run (upper s) acc = hex_run s acc.
Proof.
  induction s as [|c rest IH]; intros acc; [reflexivity|]. cbn [upper hex_run].
  destruct (to_upper_facts c) as (-> & _). destruct (hex_digit c); [apply IH | reflexivity].
Qed.

Lemma skip_spaces_upper s : skip_spaces (upper s) = upper (skip_spaces s).
Proof.
  induction s as [|c rest IH]; [reflexivity|]. cbn [upper skip_spaces].
  destruct (to_upper_facts c) as (_ & -> & _). destruct (isspace c); [apply IH | reflexivity].
Qed.

Lemma take_sign_upper s :
  take_sign (upper s) = (fst (take_sign s), upper (snd (take_sign s))).
Proof.
  destruct s as [|c rest]; [reflexivity|]. cbn [upper].
  destruct c as [[] [] [] [] [] [] [] []]; reflexivity.
Qed.

Lemma skip_0x_other c s : Ascii.eqb c "0" = false -> skip_0x (String c s) = String c s.
Proof.
  intros H. destruct c as [[] [] [] [] [] [] [] []]; try reflexivity. discriminate H.
Qed.

Lemma skip_0x_hex_run s acc : hex_run (skip_0x (upper s)) acc = hex_run (skip_0x s) acc.
Proof.
  destruct s as [|c rest]; [reflexivity|]. cbn [upper].
  destruct (to_upper_facts c) as (_ & _ & _ & _ & _ & _ & H0 & _).
  destruct (Ascii.eqb c "0") eqn:E.
  - apply Ascii.eqb_eq in E as ->. apply Ascii.eqb_eq in H0 as ->.
    destruct rest as [|x [|d rest]]; try reflexivity.
    + cbn. destruct (to_upper_facts x) as (-> & _). reflexivity.
    + cbn [upper skip_0x].
      destruct (to_upper_facts x) as (Hx & _ & _ & _ & _ & _ & _ & ->).
      destruct (to_upper_facts d) as (Hd & _). rewrite Hd.
      destruct ((Ascii.eqb x "x" || Ascii.eqb x "X") && bool_decide (is_Some (hex_digit d))).
      * apply (hex_run_upper (String d rest)).
      * apply (hex_run_upper (String "0" (String x (String d rest)))).
  - rewrite !skip_0x_other by congruence. apply (hex_run_upper (String c rest)).
Qed.

Lemma strtol16_upper s : strtol16 (upper s) = strtol16 s.
Proof.
  unfold strtol16. rewrite skip_spaces_upper, take_sign_upper.
  destruct (take_sign (skip_spaces s)) as [neg s1]. cbn [fst snd].
  now rewrite skip_0x_hex_run.
Qed.

(** X12: [hex_to_color] does not see the case of letters, whatever the
    string is: a string and the same string in upper case yield the same
    colour, also when the string is rejected or holds characters that are
    not hexadecimal digits. *)
Theorem hex_to_color_ignores_case (s : string) :
  hex_to_color (upper s) = hex_to_color s.
Proof.
  unfold hex_to_color. rewrite skip_hash_upper, strlen_upper.
  set (hex := skip_hash s).
  destruct (strlen hex =? 3)%nat; [|destruct (strlen hex =? 4)%nat].
  - cbv zeta. rewrite !char_at_upper.
    change (str_of_chars [to_upper (char_at hex 0); to_upper (char_at hex 0);
                          to_upper (char_at hex 1); to_upper (char_at hex 1);
                          to_upper (char_at hex 2); to_upper (char_at hex 2)])
      with (upper (str_of_chars [char_at hex 0; char_at hex 0; char_at hex 1;
                                 char_at hex 1; char_at hex 2; char_at hex 2])).
    now rewrite strtol16_upper.
  - cbv zeta. rewrite !char_at_upper.
    change (str_of_chars [to_upper (char_at hex 0); to_upper (char_at hex 0);
                          to_upper (char_at hex 1); to_upper (char_at hex 1);
                          to_upper (char_at hex 2); to_upper (char_at hex 2);
                          to_upper (char_at hex 3); to_upper (char_at hex 3)])
      with (upper (str_of_chars [char_at hex 0; char_at hex 0; char_at hex 1;
                                 char_at hex 1; char_at hex 2; char_at hex 2;
                                 char_at hex 3; char_at hex 3])).
    now rewrite strtol16_upper.
  - cbv zeta. rewrite strtol16_upper. reflexivity.
Qed.

(** ** Shorthand *)

Lemma strlen_char_at s : forall i,
  (i < strlen s)%nat -> Ascii.eqb (char_at s i) NUL = false.
Proof.
  unfold char_at.
  induction s as [|c rest IH]; intros i Hi; cbn in Hi; [lia|].
  destruct (Ascii.eqb c NUL) eqn:E; [lia|].
  destruct i as [|i]; cbn [String.get]; [exact E | apply IH; lia].
Qed.

Lemma strlen_doubled cs :
  Forall (fun c => Ascii.eqb c NUL = false) cs ->
  strlen (str_of_chars (doubled cs)) = (2 * length cs)%nat.
Proof.
  induction 1 as [|c cs Hc _ IH]; [reflexivity|].
  cbn [doubled str_of_chars string_of_list_ascii strlen length].
  rewrite Hc. unfold str_of_chars in IH. rewrite IH. lia.
Qed.

Lemma first_chars_nonzero n s :
  (n <= strlen s)%nat ->
  Forall (fun c => Ascii.eqb c NUL = false) (first_chars n s).
Proof.
  intros Hn. unfold first_chars. apply List.Forall_forall.
  intros c Hc. apply in_map_iff in Hc as (i & <- & Hi).
  apply in_seq in Hi. apply strlen_char_at. lia.
Qed.

(** X13: the shorthand forms are read by doubling, whatever the characters
    are: a string of three characters after the optional hash sign yields
    the colour of the six characters obtained by writing each one twice,
    and a string of four characters that of the eight obtained the same
    way. *)
Theorem hex_to_color_shorthand (s : string) :
  (strlen (skip_hash s) = 3 \/ strlen (skip_hash s) = 4)%nat ->
  hex_to_color s
  = hex_to_color
      (String "#" (str_of_chars
                     (doubled (first_chars (strlen (skip_hash s)) (skip_hash s))))).
Proof.
  intros Hlen.
  unfold hex_to_color at 2. cbn [skip_hash].
  rewrite strlen_doubled by (now apply first_chars_nonzero).
  unfold first_chars at 1. rewrite List.length_map, List.length_seq.
  unfold hex_to_color.
  destruct Hlen as [-> | ->]; cbn [Nat.eqb Nat.mul Nat.add]; cbv zeta;
    cbn [first_chars seq map doubled]; reflexivity.
Qed.

Lemma hex_to_color_shorthand_witness :
  hex_to_color "#1x9" = hex_to_color "#11xx99".
Proof.
  exact (hex_to_color_shorthand "#1x9" (or_introl eq_refl)).
Defined.

End Notation16Facts.
